(** * pySDC: the step hierarchy and the 1D mesh transfer

    A shallow embedding of [pySDC/Step.py] and of
    [implementations/transfer_classes/TransferMesh_1D.py].

    Python objects that the code mutates or compares by identity (dicts,
    levels) live in an explicit store and are referred to by their location.
    Lists are never mutated by the code under study and are kept as values.
    Every routine runs in a state-and-exception monad over that store. *)

From stdpp Require Import base list strings pretty.
From Stdlib Require Import ZArith Lia.
From Stdlib Require QArith.Qcanon.

Local Set Warnings "-register-all".

(** ** Python values *)

(** Locations are positions in the store. *)
Abbreviation loc := nat (only parsing).

Inductive value :=
| VNone
| VBool (b : bool)
| VInt (z : Z)
| VStr (s : string)
| VObj (o : nat)               (* a class or any other opaque object, by identity *)
| VTuple (vs : list value)
| VList (vs : list value)      (* [type(v) is list] holds for these only *)
| VDict (l : loc).             (* a reference to a dict object of the store *)

(** A dict object: its items in insertion order, keys pairwise distinct. *)
Abbreviation dict := (list (string * value)) (only parsing).

Inductive pyerror :=
| SystemExit (max_val : nat) (k : string) (v : value)
| AssertionError
| KeyError
| IndexError
| AttributeError
| TypeError
| ValueError.

Inductive result (A : Type) :=
| Ok (a : A)
| Err (e : pyerror).
Arguments Ok {A} a.
Arguments Err {A} e.

Definition is_list (v : value) : bool :=
  match v with VList _ => true | _ => false end.

(** ** Dict contents *)

Fixpoint dict_get (k : string) (d : dict) : option value :=
  match d with
  | [] => None
  | (k', v) :: rest => if String.eqb k k' then Some v else dict_get k rest
  end.

Definition dict_has (k : string) (d : dict) : bool :=
  match dict_get k d with Some _ => true | None => false end.

(** [d[k] = v]: an existing key keeps its position, a new key goes last. *)
Fixpoint dict_set (k : string) (v : value) (d : dict) : dict :=
  match d with
  | [] => [(k, v)]
  | (k', v') :: rest =>
      if String.eqb k k' then (k', v) :: rest else (k', v') :: dict_set k v rest
  end.

(** ** Levels, transfers and the store *)

(** Modelled from the spec: the level class ([pySDC/Level.py] is not among
    the sources).  A level keeps what its constructor was given, an immutable
    string id, and the coarse-grid correction [tau], which is absent until
    [__add_tau] allocates it. *)
Record level := mkLevel {
  level_id : string;
  lv_problem_class : value;
  lv_problem_params : value;
  lv_dtype_u : value;
  lv_dtype_f : value;
  lv_sweeper_class : value;
  lv_sweeper_params : value;
  lv_level_params : value;
  lv_hook_class : value;
  tau_allocated : bool
}.

Definition add_tau (L : level) : level :=
  mkLevel (level_id L) (lv_problem_class L) (lv_problem_params L) (lv_dtype_u L)
          (lv_dtype_f L) (lv_sweeper_class L) (lv_sweeper_params L)
          (lv_level_params L) (lv_hook_class L) true.

(** Modelled from the spec: the transfer base class ([pySDC/Transfer.py] is
    not among the sources).  An instance keeps the class it was made from, the
    two levels, its parameters, and the "final interpolation" option
    [params.finter]. *)
Record transfer_inst := mkTransfer {
  tr_class : value;
  tr_fine : loc;
  tr_coarse : loc;
  tr_params : value;
  finter : bool
}.

Inductive method := restrict | prolong | prolong_f.

(** A bound method [T.restrict], [T.prolong] or [T.prolong_f]. *)
Definition action : Type := transfer_inst * method.

Record world := mkWorld {
  dicts : list dict;                      (* dict objects, by location *)
  lvls : list level;                      (* level objects, by location *)
  calls : list (action * list value);     (* transfer actions invoked so far, with their arguments *)
  stdout : list string                    (* lines printed so far *)
}.

Definition set_dicts (w : world) (ds : list dict) : world :=
  mkWorld ds (lvls w) (calls w) (stdout w).
Definition set_lvls (w : world) (ls : list level) : world :=
  mkWorld (dicts w) ls (calls w) (stdout w).

(** ** The monad: a store threaded through, an exception aborts *)

Definition M (A : Type) : Type := world → result A * world.

Definition ret {A} (a : A) : M A := λ w, (Ok a, w).
Definition raise {A} (e : pyerror) : M A := λ w, (Err e, w).
Definition bind {A B} (m : M A) (f : A → M B) : M B :=
  λ w, match m w with
       | (Ok a, w') => f a w'
       | (Err e, w') => (Err e, w')
       end.
Definition lift {A} (r : result A) : M A := λ w, (r, w).

Notation "x <- m ;; k" := (bind m (λ x, k))
  (at level 100, m at next level, right associativity).
Notation "m ;;; k" := (bind m (λ _, k))
  (at level 100, right associativity).

Definition assert (b : bool) : M unit :=
  if b then ret tt else raise AssertionError.

(** ** Store operations *)

(** [{}] and dict displays: a new dict object. *)
Definition new_dict (d : dict) : M loc :=
  λ w, (Ok (length (dicts w)), set_dicts w (dicts w ++ [d])).

(** [d.items()]; only dicts have it. *)
Definition items (dv : value) : M dict :=
  λ w, match dv with
       | VDict l => match dicts w !! l with
                    | Some d => (Ok d, w)
                    | None => (Err AttributeError, w)
                    end
       | _ => (Err AttributeError, w)
       end.

Definition is_str (k : string) (v : value) : bool :=
  match v with VStr s => String.eqb k s | _ => false end.

Definition substring_of (k s : string) : bool :=
  match String.index 0 k s with Some _ => true | None => false end.

(** [k in d] for a string [k]: a key of a dict, an element of a list or a
    tuple, a part of a string; nothing else can be searched. *)
Definition contains (k : string) (dv : value) : M bool :=
  λ w, match dv with
       | VDict l => match dicts w !! l with
                    | Some d => (Ok (dict_has k d), w)
                    | None => (Err TypeError, w)
                    end
       | VList vs | VTuple vs => (Ok (existsb (is_str k) vs), w)
       | VStr s => (Ok (substring_of k s), w)
       | _ => (Err TypeError, w)
       end.

(** [d[k]] for a string [k]: only a dict can be indexed by a string. *)
Definition getitem (dv : value) (k : string) : M value :=
  λ w, match dv with
       | VDict l => match dicts w !! l with
                    | Some d => match dict_get k d with
                                | Some v => (Ok v, w)
                                | None => (Err KeyError, w)
                                end
                    | None => (Err TypeError, w)
                    end
       | _ => (Err TypeError, w)
       end.

(** [d[k] = v] for the dict object at [l] *)
Definition setitem (l : loc) (k : string) (v : value) : M unit :=
  λ w, match dicts w !! l with
       | Some d => (Ok tt, set_dicts w (<[l := dict_set k v d]> (dicts w)))
       | None => (Err TypeError, w)
       end.

(** [d.copy()]: a new dict object with the same items (a shallow copy). *)
Definition dict_copy (dv : value) : M loc :=
  d <- items dv ;; new_dict d.

(** [xs[i]] for a list *)
Definition index {A} (xs : list A) (i : nat) : result A :=
  match xs !! i with
  | Some x => Ok x
  | None => Err IndexError
  end.

(** ** step.__dict_to_list *)

(** [a is b] for two ints that are lengths.  CPython keeps a single object
    for each int from -5 to 256; above that [len] answers with a new object
    each time, which is never the object [max_val] holds. *)
Definition int_is (a b : nat) : bool := (a =? b) && (a <=? 256).

(** The first loop: find [max_val], leave through [sys.exit] on a list whose
    length is neither 1 nor the [max_val] seen so far. *)
Fixpoint scan_max_val (its : dict) (max_val : nat) : result nat :=
  match its with
  | [] => Ok max_val
  | (k, v) :: rest =>
      match v with
      | VList vs =>
          if (1 <? length vs) && ((1 <? max_val) && negb (int_is (length vs) max_val))
          then Err (SystemExit max_val k v)
          else scan_max_val rest (max max_val (length vs))
      | _ => scan_max_val rest max_val
      end
  end.

(** What level [d] receives for the value [v] of a key. *)
Definition select (v : value) (d : nat) : result value :=
  match v with
  | VList vs => if length vs =? 1 then index vs 0 else index vs d
  | _ => Ok v
  end.

(** The inner loop: [for k,v in dict.items(): ld[d][k] = ...]. *)
Fixpoint fill_dict (target : loc) (d : nat) (its : dict) : M unit :=
  match its with
  | [] => ret tt
  | (k, v) :: rest =>
      x <- lift (select v d) ;;
      setitem target k x ;;;
      fill_dict target d rest
  end.

(** The outer loop: [for d in range(len(ld))]. *)
Fixpoint fill_levels (dv : value) (ld : list loc) (ds : list nat) : M unit :=
  match ds with
  | [] => ret tt
  | d :: ds' =>
      its <- items dv ;;
      target <- lift (index ld d) ;;
      fill_dict target d its ;;;
      fill_levels dv ld ds'
  end.

(** [[{} for l in range(max_val)]] *)
Fixpoint new_dicts (n : nat) : M (list loc) :=
  match n with
  | 0 => ret []
  | S n' => l <- new_dict [] ;; ls <- new_dicts n' ;; ret (l :: ls)
  end.

Definition dict_to_list (dv : value) : M (list loc) :=
  its <- items dv ;;
  max_val <- lift (scan_max_val its 1) ;;
  ld <- new_dicts max_val ;;
  fill_levels dv ld (seq 0 (length ld)) ;;;
  ret ld.

(** The list of dicts as a Python value. *)
Definition dict_list (ld : list loc) : value := VList (VDict <$> ld).

(** ** The step object *)

Record status := mkStatus {
  st_iter : value;
  st_stage : value;
  st_slot : value;
  st_first : value;
  st_last : value;
  st_pred_cnt : value;
  st_done : value;
  st_prev_done : value
}.

(** The transfer dictionary: keyed by a tuple of two level objects, which
    hash and compare by identity. *)
Abbreviation transfer_table := (list ((loc * loc) * action)) (only parsing).

Record step := mkStep {
  params : dict;
  step_status : status;
  __transfer_dict : transfer_table;
  levels : list loc;
  __prev : value;
  __next : value
}.

Definition key_eqb (a b : loc * loc) : bool :=
  (a.1 =? b.1) && (a.2 =? b.2).

Fixpoint table_get (k : loc * loc) (t : transfer_table) : option action :=
  match t with
  | [] => None
  | (k', a) :: rest => if key_eqb k k' then Some a else table_get k rest
  end.

Fixpoint table_set (k : loc * loc) (a : action) (t : transfer_table) : transfer_table :=
  match t with
  | [] => [(k, a)]
  | (k', a') :: rest =>
      if key_eqb k k' then (k', a) :: rest else (k', a') :: table_set k a rest
  end.

Definition set_transfer_dict (self : step) (t : transfer_table) : step :=
  mkStep (params self) (step_status self) t (levels self) (__prev self) (__next self).
Definition set_levels (self : step) (ls : list loc) : step :=
  mkStep (params self) (step_status self) (__transfer_dict self) ls (__prev self) (__next self).

(** The helper class [pars]: [maxiter] unset, then one attribute per item. *)
Definition pars (step_params : dict) : dict :=
  fold_left (λ acc kv, dict_set kv.1 kv.2 acc) step_params [("maxiter", VNone)].

Definition new_status : status :=
  mkStatus VNone VNone VNone VNone VNone VNone VNone VNone.

(** Modelled from the spec: the default hook class [hookclass.hooks]
    ([pySDC/Hooks.py] is not among the sources), an opaque object. *)
Definition default_hooks : value := VObj 0.

(** Modelled from the spec: [levclass.level(...)] makes a new level object
    out of its arguments, without a [tau]. *)
Definition new_level (L : level) : M loc :=
  λ w, (Ok (length (lvls w)), set_lvls w (lvls w ++ [L])).

(** Modelled from the spec: [L._level__add_tau()] allocates the [tau] of the
    level object at [L]. *)
Definition level_add_tau (L : loc) : M unit :=
  λ w, match lvls w !! L with
       | Some lv => (Ok tt, set_lvls w (<[L := add_tau lv]> (lvls w)))
       | None => (Err AttributeError, w)
       end.

Definition is_level (L : loc) : M bool :=
  λ w, (Ok (bool_decide (L < length (lvls w))), w).

(** Truth value of an object, as [if x:] takes it. *)
Definition truthy (v : value) : M bool :=
  λ w, (Ok match v with
           | VNone => false
           | VBool b => b
           | VInt z => negb (z =? 0)%Z
           | VStr s => negb (String.eqb s "")
           | VObj _ => true
           | VTuple vs | VList vs => negb (bool_decide (vs = []))
           | VDict l => match dicts w !! l with
                        | Some [] => false
                        | _ => true
                        end
           end, w).

(** Modelled from the spec: [transfer_class(fine_level, coarse_level, params)];
    the instance reads its optional [finter] flag off the parameters, unset
    when they do not give it.  Only a class can be called. *)
Definition new_transfer (transfer_class : value) (fine_level coarse_level : loc)
    (transfer_params : value) : M transfer_inst :=
  match transfer_class with
  | VObj _ =>
      its <- items transfer_params ;;
      f <- match dict_get "finter" its with
           | Some v => truthy v
           | None => ret false
           end ;;
      ret (mkTransfer transfer_class fine_level coarse_level transfer_params f)
  | _ => raise TypeError
  end.

(** Modelled from the spec: calling a bound transfer method.  What the method
    does to the levels is outside the sources; the call itself is recorded. *)
Definition invoke (a : action) (args : list value) : M unit :=
  λ w, (Ok tt, mkWorld (dicts w) (lvls w) (calls w ++ [(a, args)]) (stdout w)).

Definition print (line : string) : M unit :=
  λ w, (Ok tt, mkWorld (dicts w) (lvls w) (calls w) (stdout w ++ [line])).

(** *** step.register_level *)
Definition register_level (self : step) (L : loc) : M step :=
  (b <- is_level L ;; assert b) ;;;
  let self := set_levels self (levels self ++ [L]) in
  if 1 <? length (levels self)
  then level_add_tau L ;;; ret self
  else ret self.

(** *** step.connect_levels *)
Definition connect_levels (self : step) (transfer_class transfer_params : value)
    (fine_level coarse_level : loc) : M step :=
  T <- new_transfer transfer_class fine_level coarse_level transfer_params ;;
  let self := set_transfer_dict self
                (table_set (fine_level, coarse_level) (T, restrict) (__transfer_dict self)) in
  if finter T
  then ret (set_transfer_dict self
              (table_set (coarse_level, fine_level) (T, prolong_f) (__transfer_dict self)))
  else ret (set_transfer_dict self
              (table_set (coarse_level, fine_level) (T, prolong) (__transfer_dict self))).

(** *** step.__generate_hierarchy *)

(** [d[k] if k in d else {}] and its like *)
Definition get_or (dv : value) (k : string) (default : M value) : M value :=
  b <- contains k dv ;;
  if b then getitem dv k else default.

Definition empty_dict : M value := l <- new_dict [] ;; ret (VDict l).

(** One round of [for l in range(len(descr_list))]. *)
Definition hierarchy_round (descr_list : list loc) (self : step) (l : nat) : M step :=
  dl <- lift (index descr_list l) ;;
  hook <- get_or (VDict dl) "hook_class" (ret default_hooks) ;;
  tparams <- get_or (VDict dl) "transfer_params" empty_dict ;;
  pparams <- get_or (VDict dl) "problem_params" empty_dict ;;
  pc <- getitem (VDict dl) "problem_class" ;;
  du <- getitem (VDict dl) "dtype_u" ;;
  df <- getitem (VDict dl) "dtype_f" ;;
  sc <- getitem (VDict dl) "sweeper_class" ;;
  sp <- getitem (VDict dl) "sweeper_params" ;;
  lp <- getitem (VDict dl) "level_params" ;;
  L <- new_level (mkLevel ("L" +:+ pretty l) pc pparams du df sc sp lp hook false) ;;
  self <- register_level self L ;;
  if 0 <? l
  then
    tc <- getitem (VDict dl) "transfer_class" ;;
    fine <- lift (index (levels self) (l - 1)) ;;
    coarse <- lift (index (levels self) l) ;;
    connect_levels self tc tparams fine coarse
  else ret self.

Fixpoint hierarchy_loop (descr_list : list loc) (self : step) (ls : list nat) : M step :=
  match ls with
  | [] => ret self
  | l :: ls' =>
      self <- hierarchy_round descr_list self l ;;
      hierarchy_loop descr_list self ls'
  end.

Definition assert_in (k : string) (dv : value) : M unit :=
  b <- contains k dv ;; assert b.

Definition generate_hierarchy (self : step) (descr : value) : M step :=
  assert_in "problem_class" descr ;;;
  assert_in "problem_params" descr ;;;
  assert_in "dtype_u" descr ;;;
  assert_in "dtype_f" descr ;;;
  assert_in "sweeper_class" descr ;;;
  assert_in "sweeper_params" descr ;;;
  assert_in "level_params" descr ;;;
  pp <- getitem descr "problem_params" ;;
  pparams_list <- dict_to_list pp ;;
  lp <- getitem descr "level_params" ;;
  lparams_list <- dict_to_list lp ;;
  sp <- getitem descr "sweeper_params" ;;
  swparams_list <- dict_to_list sp ;;
  descr_new <- dict_copy descr ;;
  setitem descr_new "problem_params" (dict_list pparams_list) ;;;
  setitem descr_new "level_params" (dict_list lparams_list) ;;;
  setitem descr_new "sweeper_params" (dict_list swparams_list) ;;;
  descr_list <- dict_to_list (VDict descr_new) ;;
  (if 1 <? length descr_list
   then assert_in "transfer_class" (VDict descr_new) ;;;
        assert_in "transfer_params" (VDict descr_new)
   else b <- contains "transfer_class" (VDict descr_new) ;;
        if b
        then print "WARNING: you have specified transfer classes, but only a single level..."
        else ret tt) ;;;
  hierarchy_loop descr_list self (seq 0 (length descr_list)).

(** *** step.__init__ *)
Definition step_init (description : value) : M step :=
  step_params <- get_or description "step_params" empty_dict ;;
  sp_items <- items step_params ;;
  let self := mkStep (pars sp_items) new_status [] [] VNone VNone in
  generate_hierarchy self description.

(** *** step.transfer *)
Definition transfer (self : step) (source target : loc) : M unit :=
  match table_get (source, target) (__transfer_dict self) with
  | Some a => invoke a []
  | None => raise KeyError
  end.

(** *** The properties [prev] and [next] *)
Definition prev (self : step) : value := __prev self.
Definition set_prev (self : step) (p : value) : step :=
  mkStep (params self) (step_status self) (__transfer_dict self) (levels self) p (__next self).
Definition next (self : step) : value := __prev self.
Definition set_next (self : step) (p : value) : step :=
  mkStep (params self) (step_status self) (__transfer_dict self) (levels self) (__prev self) p.

(** * Vocabulary of the properties *)

(** The value level [d] ends up with, where [select] succeeds. *)
Definition pick (d : nat) (v : value) : value :=
  match select v d with Ok x => x | Err _ => VNone end.

(** The dictionary of level [d]. *)
Definition level_dict (its : dict) (d : nat) : dict :=
  (λ kv, (kv.1, pick d kv.2)) <$> its.

(** The largest list length among the values of a dict, and 1 when there is
    no list to speak of: the hierarchy width [N] of the spec. *)
Definition max_list_len (its : dict) : nat :=
  foldr (λ kv m, match kv.2 with VList vs => length vs `max` m | _ => m end) 1 its.

(** Every list value has length 1 or [N]. *)
Definition lengths_1_or (N : nat) (its : dict) : Prop :=
  ∀ k vs, (k, VList vs) ∈ its → length vs = 1 ∨ length vs = N.

(** [x] is what level [i] is to get for [v]: [v] itself, the single element
    of a list of length 1, or element [i] of a list of length [N]. *)
Definition selected (N i : nat) (v x : value) : Prop :=
  match v with
  | VList vs => (length vs = 1 ∧ vs !! 0 = Some x) ∨ (length vs = N ∧ vs !! i = Some x)
  | _ => x = v
  end.

(** [frame b w w']: the dict objects below [b] are in [w'] as they were in
    [w]. *)
Definition frame (b : nat) (w w' : world) : Prop :=
  b ≤ length (dicts w') ∧ ∀ l, l < b → dicts w' !! l = dicts w !! l.

(** [keeps b m φ]: run from a store holding at least [b] dicts, [m] leaves
    those in place, whether it returns or raises, and what it returns
    satisfies [φ]. *)
Definition keeps {A} (b : nat) (m : M A) (φ : A → Prop) : Prop :=
  ∀ w, b ≤ length (dicts w) → frame b w (m w).2 ∧ ∀ a, (m w).1 = Ok a → φ a.

(** [level_free m]: [m] neither makes nor changes a level. *)
Definition level_free {A} (m : M A) : Prop := ∀ w, lvls (m w).2 = lvls w.

(** Routines that only read the store. *)
Definition reads {A} (m : M A) : Prop := ∀ w, (m w).2 = w.

(** [doomed b w0 m]: from any store that still holds the first [b] dicts of
    [w0], [m] raises, and no level has been made or changed by then. *)
Definition doomed {A} (b : nat) (w0 : world) (m : M A) : Prop :=
  ∀ w, frame b w0 w → ∃ e, (m w).1 = Err e ∧ lvls (m w).2 = lvls w.

(** The coarse-to-fine action [connect_levels] picks for a transfer. *)
Definition down (T : transfer_inst) : method :=
  if finter T then prolong_f else prolong.

(** The two entries of the transfer between the levels at [f] and [S f]. *)
Definition entry_pair (f : loc) (T : transfer_inst) : transfer_table :=
  [((f, S f), (T, restrict)); ((S f, f), (T, down T))].

(** The table of a chain of transfers, the first one starting at level [b]. *)
Fixpoint table_of (b : loc) (Ts : list transfer_inst) : transfer_table :=
  match Ts with
  | [] => []
  | T :: Ts' => entry_pair b T ++ table_of (S b) Ts'
  end.

(** What holds after [k] rounds of the loop that started with [b] level
    objects in the store: the levels of the step are the [k] objects made
    since, in order; all but the first have their [tau]; the table is the one
    of the [k - 1] transfers between neighbours. *)
Definition hierarchy_inv (b k : nat) (s : step) (w : world) : Prop :=
  levels s = seq b k ∧
  length (lvls w) = b + k ∧
  (∀ i, i < k → ∃ lv, lvls w !! (b + i) = Some lv ∧
                      tau_allocated lv = (0 <? i) ∧
                      level_id lv = "L" +:+ pretty i) ∧
  ∃ Ts, length Ts = k - 1 ∧
        __transfer_dict s = table_of b Ts ∧
        ∀ i T, Ts !! i = Some T → tr_fine T = b + i ∧ tr_coarse T = b + S i.

(** The parameter dicts a description is expanded by. *)
Definition param_keys : list string :=
  ["problem_params"; "level_params"; "sweeper_params"].

(** The widths a description asks for: the largest list length in one of
    its parameter dicts, or the length of a list it holds under another
    key. *)
Inductive width_source (w0 : world) (descr : dict) : nat → Prop :=
| width_of_params (key : string) (l : loc) (its : dict) :
    key ∈ param_keys →
    dict_get key descr = Some (VDict l) →
    dicts w0 !! l = Some its →
    width_source w0 descr (max_list_len its)
| width_of_list (k : string) (vs : list value) :
    (k, VList vs) ∈ descr →
    k ∉ param_keys →
    width_source w0 descr (length vs).

(** What the expansion of the parameter dict under [key] returns, seen from
    the store [w0] the construction started in. *)
Definition expanded (w0 : world) (descr : dict) (key : string) (pl : list loc) : Prop :=
  ∀ l its, dict_get key descr = Some (VDict l) → dicts w0 !! l = Some its →
           length pl = max_list_len its.

(** ** Example descriptions *)

(** The spec's own example: three [nvars] against two [cadv]. *)
Definition mixed_params : dict :=
  [("nvars", VList [VTuple [VInt 2; VInt 50]; VTuple [VInt 2; VInt 25];
                    VTuple [VInt 2; VInt 10]]);
   ("cadv", VList [VInt 1; VInt 2])].

(** The same dict in a store, as the parameters of the description at 1. *)
Definition mixed_world : world :=
  mkWorld [mixed_params;
           [("problem_class", VObj 1); ("problem_params", VDict 0);
            ("dtype_u", VObj 2); ("dtype_f", VObj 3); ("sweeper_class", VObj 4);
            ("sweeper_params", VDict 0); ("level_params", VDict 0)]] [] [] [].

(** A two-level set of problem parameters. *)
Definition two_level_params : dict :=
  [("nvars", VList [VInt 50; VInt 25]); ("cadv", VList [VInt 1]); ("cs", VInt 5)].

(** A description of three levels, at 4, with its parameter dicts. *)
Definition three_level_world : world := mkWorld
  [ [("nvars", VList [VInt 50; VInt 25; VInt 10]); ("cadv", VList [VInt 1])];
    [("restol", VInt 1)];
    [("num_nodes", VList [VInt 3])];
    [("finter", VBool true)];
    [("problem_class", VObj 1); ("problem_params", VDict 0); ("dtype_u", VObj 2);
     ("dtype_f", VObj 3); ("sweeper_class", VObj 4); ("sweeper_params", VDict 2);
     ("level_params", VDict 1); ("transfer_class", VObj 5); ("transfer_params", VDict 3)] ]
  [] [] [].

(** ** Vocabulary of the further properties *)

(** [len_free m]: [m] makes no dict object. *)
Definition len_free {A} (m : M A) : Prop :=
  ∀ w, length (dicts (m w).2) = length (dicts w).

(** [quiet m]: [m] prints nothing and calls no transfer method. *)
Definition quiet {A} (m : M A) : Prop :=
  ∀ w, stdout (m w).2 = stdout w ∧ calls (m w).2 = calls w.

(** The keys [__generate_hierarchy] asserts, in the order it asserts them. *)
Definition required_keys : list string :=
  ["problem_class"; "problem_params"; "dtype_u"; "dtype_f"; "sweeper_class";
   "sweeper_params"; "level_params"].

(** The description copy [descr_new] once the three expanded lists are in. *)
Definition with_expanded (descr : dict) (pl ll sl : list loc) : dict :=
  dict_set "sweeper_params" (dict_list sl)
    (dict_set "level_params" (dict_list ll)
       (dict_set "problem_params" (dict_list pl) descr)).

(** The line the constructor prints for a transfer class without a second
    level. *)
Definition single_level_warning : string :=
  "WARNING: you have specified transfer classes, but only a single level...".

(** [apart b w u]: [u] is [w] but for the dicts made after the first [b]. *)
Definition apart (b : nat) (w u : world) : Prop :=
  frame b w u ∧ lvls u = lvls w ∧ stdout u = stdout w ∧ calls u = calls w.

(** A description of a single level with parameters for the step and a
    transfer class, and one that lacks its sweeper parameters. *)
Definition plain_world : world := mkWorld
  [ [("nvars", VInt 50)];
    [("maxiter", VInt 20); ("tol", VInt 1)];
    [("problem_class", VObj 1); ("problem_params", VDict 0); ("dtype_u", VObj 2);
     ("dtype_f", VObj 3); ("sweeper_class", VObj 4); ("sweeper_params", VDict 0);
     ("level_params", VDict 0); ("step_params", VDict 1); ("transfer_class", VObj 5)];
    [("problem_class", VObj 1); ("problem_params", VDict 0); ("dtype_u", VObj 2);
     ("dtype_f", VObj 3); ("sweeper_class", VObj 4); ("level_params", VDict 0);
     ("step_params", VDict 1)] ]
  [] [] [].

(** [built_from its l lv]: [lv] is the level that round [l] of the loop
    makes out of a level dict with the items [its]. *)
Definition built_from (its : dict) (l : nat) (lv : level) : Prop :=
  level_id lv = "L" +:+ pretty l ∧
  dict_get "problem_class" its = Some (lv_problem_class lv) ∧
  dict_get "dtype_u" its = Some (lv_dtype_u lv) ∧
  dict_get "dtype_f" its = Some (lv_dtype_f lv) ∧
  dict_get "sweeper_class" its = Some (lv_sweeper_class lv) ∧
  dict_get "sweeper_params" its = Some (lv_sweeper_params lv) ∧
  dict_get "level_params" its = Some (lv_level_params lv) ∧
  lv_hook_class lv = default default_hooks (dict_get "hook_class" its) ∧
  (∀ v, dict_get "problem_params" its = Some v → lv_problem_params lv = v).

(** The description of [three_level_world]. *)
Definition three_level_description : dict :=
  [("problem_class", VObj 1); ("problem_params", VDict 0); ("dtype_u", VObj 2);
   ("dtype_f", VObj 3); ("sweeper_class", VObj 4); ("sweeper_params", VDict 2);
   ("level_params", VDict 1); ("transfer_class", VObj 5); ("transfer_params", VDict 3)].

(** * The 1D mesh transfer with Dirichlet-0 boundaries *)

Module TransferMesh_1D.

(** The numbers of the value buffers.  The code computes in floats; the
    model computes with the operations of an instance: the exact rationals
    and an IEEE-like arithmetic with infinities, nan and signed zeros are
    given below. *)
Class Scalar (R : Type) := {
  rO : R;                       (* 0.0 *)
  rI : R;                       (* 1.0 *)
  half : R;                     (* 0.5 *)
  radd : R → R → R;
  rmul : R → R → R;
  of_nat : nat → R;
  uninit : R                    (* what [np.empty] leaves in a new buffer *)
}.

(** What the identity operators rely on, as it holds of IEEE floats.  The
    laws speak of finite values only (neither an infinity nor a nan: [0 * inf]
    is nan), and of equality as numbers, the [==] of floats, under which the
    two zeros are one ([0.0 + -0.0] is [0.0]). *)
Class FloatLaws (R : Type) `{Scalar R} := {
  finite : R → Prop;
  same : R → R → Prop;
  same_refl : ∀ x : R, finite x → same x x;
  same_trans : ∀ x y z : R, same x y → same y z → same x z;
  same_finite : ∀ x y : R, same x y → finite y → finite x;
  finite_0 : finite rO;
  rmul_0_l : ∀ x : R, finite x → same (rmul rO x) rO;
  rmul_1_l : ∀ x : R, finite x → same (rmul rI x) x;
  radd_0_l : ∀ z x : R, same z rO → finite x → same (radd z x) x;
  radd_0_r : ∀ x z : R, finite x → same z rO → same (radd x z) x
}.

(** A class, with the classes it derives from. *)
Record pyclass := mkClass {
  cls_id : nat;
  cls_bases : list nat
}.

Definition issubclass (c d : pyclass) : bool :=
  bool_decide (cls_id d ∈ cls_id c :: cls_bases c).

Definition result_bind {A B} (r : result A) (f : A → result B) : result B :=
  match r with
  | Ok a => f a
  | Err e => Err e
  end.

Notation "'let?' x := r 'in' k" := (result_bind r (λ x, k))
  (at level 100, x name, r at next level, k at level 100, right associativity).

Section transfer.
Context {R : Type} `{Scalar R}.

(** A two-dimensional array: its rows, each of [n_cols] entries. *)
Record matrix := mkMatrix {
  n_cols : nat;
  rows : list (list R)
}.

Definition n_rows (M : matrix) : nat := length (rows M).

(** [np.eye(n)] *)
Definition eye (n : nat) : matrix :=
  mkMatrix n ((λ i, (λ j, if i =? j then rI else rO) <$> seq 0 n) <$> seq 0 n).

(** [M.T] *)
Definition transpose (M : matrix) : matrix :=
  mkMatrix (n_rows M)
    ((λ j, (λ row, nth j row rO) <$> rows M) <$> seq 0 (n_cols M)).

(** [c * M] *)
Definition scale (c : R) (M : matrix) : matrix :=
  mkMatrix (n_cols M) ((λ row : list R, rmul c <$> row) <$> rows M).

Definition vdot (row v : list R) : R :=
  foldr radd rO (zip_with rmul row v).

(** [M.dot(v)] for a flat buffer [v]; the shapes have to agree. *)
Definition dot (M : matrix) (v : list R) : result (list R) :=
  if length v =? n_cols M
  then Ok ((λ row : list R, vdot row v) <$> rows M)
  else Err ValueError.

(** Modelled from the spec: the solution and right-hand-side containers (the
    datatype classes are not among the sources): built from an unknown-count
    and an optional fill value, they expose a flat buffer [values]. *)
Record field := mkField {
  f_class : pyclass;
  values : list R
}.

Definition new_field (c : pyclass) (init : nat) (val : option R) : field :=
  mkField c (replicate init (default uninit val)).

Definition set_values (u : field) (vs : list R) : field :=
  mkField (f_class u) vs.

Definition isinstance (F : field) (c : pyclass) : bool :=
  issubclass (f_class F) c.

(** Modelled from the spec: what the transfer reads off a level, that is its
    problem with the unknown-count, the grid spacing and the two container
    classes. *)
Record problem := mkProblem {
  nvars : nat;
  dx : R;
  dtype_u : pyclass;
  dtype_f : pyclass
}.

Record level := mkLevel {
  prob : problem
}.

Record mesh_to_mesh_1d_dirichlet := mkTransfer {
  fine_level : level;
  coarse_level : level;
  init_f : nat;
  init_c : nat;
  params : dict;
  Rspace : matrix;
  Pspace : matrix
}.

(** [th.interpolation_matrix_1d_dirichlet_null], from the transfer helper,
    which is not among the sources. *)
Context (interpolation_matrix_1d_dirichlet_null : list R → list R → value → matrix).

Definition grid (L : level) : list R :=
  (λ i, rmul (of_nat (i + 1)) (dx (prob L))) <$> seq 0 (nvars (prob L)).

Definition lookup_param (params : dict) (k : string) : result value :=
  match dict_get k params with
  | Some v => Ok v
  | None => Err KeyError
  end.

(** *** mesh_to_mesh_1d_dirichlet.__init__ *)

(** Modelled from the spec for the part the base class does: it keeps the
    two levels and the parameters, and records their unknown-counts as
    [init_f] and [init_c]. *)
Definition init (fine_level coarse_level : level) (params : dict)
    : result mesh_to_mesh_1d_dirichlet :=
  let init_f := nvars (prob fine_level) in
  let init_c := nvars (prob coarse_level) in
  let fine_grid := grid fine_level in
  let coarse_grid := grid coarse_level in
  let? Rspace :=
    (if init_c =? init_f
     then Ok (eye init_c)
     else let? k := lookup_param params "rorder" in
          Ok (scale half
                (transpose (interpolation_matrix_1d_dirichlet_null fine_grid coarse_grid k)))) in
  let? Pspace :=
    (if init_f =? init_c
     then Ok (eye init_f)
     else let? k := lookup_param params "iorder" in
          Ok (interpolation_matrix_1d_dirichlet_null fine_grid coarse_grid k)) in
  Ok (mkTransfer fine_level coarse_level init_f init_c params Rspace Pspace).

(** *** mesh_to_mesh_1d_dirichlet.restrict_space *)
Definition restrict_space (self : mesh_to_mesh_1d_dirichlet) (F : field)
    : result (option field) :=
  if isinstance F (dtype_u (prob (fine_level self))) then
    let u_coarse := new_field (dtype_u (prob (fine_level self))) (init_c self) (Some rO) in
    let? vs := dot (Rspace self) (values F) in
    Ok (Some (set_values u_coarse vs))
  else if isinstance F (dtype_f (prob (fine_level self))) then
    let u_coarse := new_field (dtype_f (prob (fine_level self))) (init_c self) None in
    let? vs := dot (Rspace self) (values F) in
    Ok (Some (set_values u_coarse vs))
  else Ok None.

(** *** mesh_to_mesh_1d_dirichlet.prolong_space *)

(** The new container is built for [init_c], as in the source, and its
    values are then replaced by the product. *)
Definition prolong_space (self : mesh_to_mesh_1d_dirichlet) (G : field)
    : result (option field) :=
  if isinstance G (dtype_u (prob (coarse_level self))) then
    let u_fine := new_field (dtype_u (prob (coarse_level self))) (init_c self) (Some rO) in
    let? vs := dot (Pspace self) (values G) in
    Ok (Some (set_values u_fine vs))
  else if isinstance G (dtype_f (prob (coarse_level self))) then
    let u_fine := new_field (dtype_f (prob (coarse_level self))) (init_c self) None in
    let? vs := dot (Pspace self) (values G) in
    Ok (Some (set_values u_fine vs))
  else Ok None.

(** Modelled from the spec: the shape of what the helper returns, one row
    per fine point and one column per coarse point, so that [P] is
    fine-dimension by coarse-dimension. *)
Definition interp_shape : Prop :=
  ∀ fg cg k,
    n_rows (interpolation_matrix_1d_dirichlet_null fg cg k) = length fg ∧
    n_cols (interpolation_matrix_1d_dirichlet_null fg cg k) = length cg.

End transfer.

Arguments matrix R : clear implicits.
Arguments field R : clear implicits.
Arguments problem R : clear implicits.
Arguments level R : clear implicits.
Arguments mesh_to_mesh_1d_dirichlet R : clear implicits.

(** ** Example data, over the rationals *)

Definition q (n : Z) (d : positive) : Qcanon.Qc :=
  Qcanon.Q2Qc (QArith_base.Qmake n d).

#[export] Instance Qc_scalar : Scalar Qcanon.Qc := {|
  rO := q 0 1;
  rI := q 1 1;
  half := q 1 2;
  radd := Qcanon.Qcplus;
  rmul := Qcanon.Qcmult;
  of_nat := λ n, q (Z.of_nat n) 1;
  uninit := q 0 1
|}.

(** A stand-in for the interpolation helper: each fine point takes the
    value of the coarse point below it. *)
Definition injection_matrix {R : Type} `{Scalar R} (fine_grid coarse_grid : list R)
    (k : value) : matrix R :=
  mkMatrix (length coarse_grid)
    ((λ i, (λ j, if j =? (i * length coarse_grid) `div` length fine_grid
                 then rI else rO) <$> seq 0 (length coarse_grid))
       <$> seq 0 (length fine_grid)).

Definition mesh : pyclass := mkClass 1 [].
Definition rhs_mesh : pyclass := mkClass 2 [].
Definition other_mesh : pyclass := mkClass 3 [].
Definition other_rhs : pyclass := mkClass 4 [].

Definition level_of (n : nat) (u f : pyclass) : level Qcanon.Qc :=
  mkLevel (mkProblem n (q 1 2) u f).

Definition orders : dict := [("rorder", VInt 2); ("iorder", VInt 6)].

(** ** Example data, over an IEEE-like arithmetic *)

(** Floats with their special values: nan, the two infinities, the two
    zeros, and the other finite values, here the rationals but 0, without
    rounding. *)
Inductive fnum :=
| FNaN
| FInf (negative : bool)
| FZero (negative : bool)
| FNum (x : Qcanon.Qc).

Definition qc_is_zero (x : Qcanon.Qc) : bool :=
  (QArith_base.Qnum (Qcanon.this x) =? 0)%Z.

Definition qc_negative (x : Qcanon.Qc) : bool :=
  (QArith_base.Qnum (Qcanon.this x) <? 0)%Z.

Definition fnum_of (x : Qcanon.Qc) : fnum :=
  if qc_is_zero x then FZero false else FNum x.

Definition fmul (a b : fnum) : fnum :=
  match a, b with
  | FNaN, _ | _, FNaN => FNaN
  | FInf s, FInf t => FInf (xorb s t)
  | FInf _, FZero _ | FZero _, FInf _ => FNaN
  | FInf s, FNum x | FNum x, FInf s => FInf (xorb s (qc_negative x))
  | FZero s, FZero t => FZero (xorb s t)
  | FZero s, FNum x | FNum x, FZero s => FZero (xorb s (qc_negative x))
  | FNum x, FNum y => fnum_of (Qcanon.Qcmult x y)
  end.

Definition fadd (a b : fnum) : fnum :=
  match a, b with
  | FNaN, _ | _, FNaN => FNaN
  | FInf s, FInf t => if Bool.eqb s t then FInf s else FNaN
  | FInf s, _ | _, FInf s => FInf s
  | FZero s, FZero t => FZero (s && t)
  | FZero _, FNum x | FNum x, FZero _ => FNum x
  | FNum x, FNum y => fnum_of (Qcanon.Qcplus x y)
  end.

#[export] Instance fnum_scalar : Scalar fnum := {|
  rO := FZero false;
  rI := FNum (q 1 1);
  half := FNum (q 1 2);
  radd := fadd;
  rmul := fmul;
  of_nat := λ n, fnum_of (q (Z.of_nat n) 1);
  uninit := FNaN
|}.

Definition fnum_finite (a : fnum) : bool :=
  match a with
  | FZero _ => true
  | FNum x => negb (qc_is_zero x)
  | _ => false
  end.

(** [a == b] *)
Definition fnum_same (a b : fnum) : Prop :=
  match a, b with
  | FZero _, FZero _ => True
  | FNum x, FNum y => qc_is_zero x = false ∧ x = y
  | _, _ => False
  end.

Definition float_level_of (n : nat) (u f : pyclass) : level fnum :=
  mkLevel (mkProblem n (FNum (q 1 2)) u f).

End TransferMesh_1D.

(** * Properties *)

(** ** Running the monad *)

Lemma bind_ok {A B} (m : M A) (f : A → M B) w a w1 :
  m w = (Ok a, w1) → bind m f w = f a w1.
Proof. intros H. unfold bind. by rewrite H. Qed.

Lemma bind_err {A B} (m : M A) (f : A → M B) w e w1 :
  m w = (Err e, w1) → bind m f w = (Err e, w1).
Proof. intros H. unfold bind. by rewrite H. Qed.

Lemma bind_ok_inv {A B} (m : M A) (f : A → M B) w b w' :
  bind m f w = (Ok b, w') → ∃ a w1, m w = (Ok a, w1) ∧ f a w1 = (Ok b, w').
Proof.
  unfold bind. destruct (m w) as [[a|e] w1]; intros H.
  - by exists a, w1.
  - discriminate.
Qed.

Lemma set_dicts_set_dicts w a b : set_dicts (set_dicts w a) b = set_dicts w b.
Proof. reflexivity. Qed.

Lemma set_dicts_id w : set_dicts w (dicts w) = w.
Proof. by destruct w. Qed.

(** ** Dict contents *)

Lemma eqb_false_ne (k k' : string) : String.eqb k k' = false ↔ k ≠ k'.
Proof. apply String.eqb_neq. Qed.

Lemma dict_set_fresh k v (d : dict) :
  k ∉ d.*1 → dict_set k v d = d ++ [(k, v)].
Proof.
  induction d as [|[k' v'] d IH]; simpl; intros Hk; [done|].
  apply not_elem_of_cons in Hk as [Hne Hk].
  apply eqb_false_ne in Hne. rewrite Hne. by rewrite IH.
Qed.

Lemma dict_get_elem k v (d : dict) :
  NoDup d.*1 → (k, v) ∈ d → dict_get k d = Some v.
Proof.
  induction d as [|[k' v'] d IH]; simpl; intros Hnd Hin.
  - by apply elem_of_nil in Hin.
  - apply NoDup_cons in Hnd as [Hk' Hnd].
    apply elem_of_cons in Hin as [Heq|Hin].
    + injection Heq as -> ->. by rewrite String.eqb_refl.
    + destruct (String.eqb k k') eqn:E.
      * apply String.eqb_eq in E as ->. exfalso. apply Hk'.
        apply list_elem_of_fmap. by exists (k', v).
      * by apply IH.
Qed.

(** ** The accessors [prev] and [next] *)

Lemma prev_set_prev (s : step) (p : value) : prev (set_prev s p) = p.
Proof. reflexivity. Qed.

Lemma next_set_next (s : step) (p : value) : next (set_next s p) = prev s.
Proof. reflexivity. Qed.

(** C7: assigning [s.prev = p] and reading [s.prev] gives [p]; assigning
    [s.next = p] and reading [s.next] does not: the getter of [next] returns
    the private field of [prev], so a new step still answers [None]. *)
Theorem C7_next_getter_reads_prev :
  let s := mkStep [("maxiter", VNone)] new_status [] [] VNone VNone in
  prev (set_prev s (VObj 7)) = VObj 7 ∧
  next (set_next s (VObj 7)) = VNone ∧
  next (set_next s (VObj 7)) ≠ VObj 7.
Proof. repeat split; discriminate. Qed.

(** ** The first loop of [__dict_to_list] *)

Lemma int_is_eq a b : int_is a b = true → a = b.
Proof.
  unfold int_is. intros H. apply andb_prop in H as [H _]. by apply Nat.eqb_eq in H.
Qed.

Lemma int_is_small a : a ≤ 256 → int_is a a = true.
Proof.
  intros H. unfold int_is. rewrite Nat.eqb_refl. simpl. by apply Nat.leb_le.
Qed.

(** Once [max_val] is above 1, a longer or shorter proper list stops the scan. *)
Lemma scan_max_val_mismatch (its : dict) (m : nat) k vs :
  1 < m → (k, VList vs) ∈ its → 1 < length vs → length vs ≠ m →
  ∃ m' k' v', scan_max_val its m = Err (SystemExit m' k' v').
Proof.
  induction its as [|[k0 v0] its IH]; intros Hm Hin Hlen Hne.
  - by apply elem_of_nil in Hin.
  - simpl. apply elem_of_cons in Hin as [Heq|Hin].
    + injection Heq as <- <-.
      assert (int_is (length vs) m = false) as Hid.
      { destruct (int_is (length vs) m) eqn:E; [|done].
        by apply int_is_eq in E. }
      rewrite Hid. simpl.
      apply Nat.ltb_lt in Hlen, Hm. rewrite Hlen, Hm. simpl. eauto.
    + destruct v0; try by apply IH.
      destruct (_ && _) eqn:E; [eauto|].
      assert (m `max` length vs0 = m) as ->; [|by apply IH].
      apply andb_false_iff in E as [E|E].
      * apply Nat.ltb_ge in E. lia.
      * apply andb_false_iff in E as [E|E].
        -- apply Nat.ltb_ge in E. lia.
        -- apply negb_false_iff, int_is_eq in E. lia.
Qed.

Lemma scan_max_val_two (its : dict) (m : nat) k1 vs1 k2 vs2 :
  (k1, VList vs1) ∈ its → (k2, VList vs2) ∈ its →
  1 < length vs1 → 1 < length vs2 → length vs1 ≠ length vs2 →
  ∃ m' k' v', scan_max_val its m = Err (SystemExit m' k' v').
Proof.
  intros H1 H2 L1 L2 Hne.
  destruct (decide (1 < m)) as [Hm|Hm].
  { destruct (decide (length vs1 = m)) as [E|E].
    - apply (scan_max_val_mismatch its m k2 vs2); [done..|lia].
    - by apply (scan_max_val_mismatch its m k1 vs1). }
  revert m Hm H1 H2.
  induction its as [|[k0 v0] its IH]; intros m Hm H1 H2.
  - by apply elem_of_nil in H1.
  - simpl.
    assert ((1 <? m) = false) as Hmb by (apply Nat.ltb_ge; lia).
    apply elem_of_cons in H1 as [E1|H1]; apply elem_of_cons in H2 as [E2|H2].
    + congruence.
    + injection E1 as <- <-. rewrite Hmb, andb_false_r.
      apply (scan_max_val_mismatch its _ k2 vs2); [lia|done|done|lia].
    + injection E2 as <- <-. rewrite Hmb, andb_false_r.
      apply (scan_max_val_mismatch its _ k1 vs1); [lia|done|done|lia].
    + destruct v0; try by apply IH.
      rewrite Hmb, andb_false_r.
      destruct (decide (1 < m `max` length vs)) as [Hm'|Hm'].
      * destruct (decide (length vs1 = m `max` length vs)) as [E|E].
        -- apply (scan_max_val_mismatch its _ k2 vs2); [done..|lia].
        -- by apply (scan_max_val_mismatch its _ k1 vs1).
      * by apply IH.
Qed.

(** ** The second loop of [__dict_to_list] *)

Lemma level_dict_keys its d : (level_dict its d).*1 = its.*1.
Proof.
  unfold level_dict. rewrite <- list_fmap_compose. by apply list_fmap_ext.
Qed.

Lemma fill_dict_run (its : dict) (target d : nat) (w : world) (acc : dict) :
  dicts w !! target = Some acc →
  NoDup (acc.*1 ++ its.*1) →
  (∀ k v, (k, v) ∈ its → select v d = Ok (pick d v)) →
  fill_dict target d its w =
    (Ok tt, set_dicts w (<[target := acc ++ level_dict its d]> (dicts w))).
Proof.
  revert w acc. induction its as [|[k v] its IH]; intros w acc Hacc Hnd Hsel.
  - simpl. unfold ret, level_dict. simpl. rewrite app_nil_r.
    rewrite list_insert_id by done. by rewrite set_dicts_id.
  - simpl. rewrite (bind_ok _ _ w (pick d v) w).
    2:{ unfold lift. rewrite (Hsel k v); [done|]. apply elem_of_cons. by left. }
    assert (k ∉ acc.*1) as Hk.
    { simpl in Hnd. apply NoDup_app in Hnd as (_ & Hd & _).
      intros Hin. apply (Hd k Hin). apply elem_of_cons. by left. }
    rewrite (bind_ok _ _ w tt
               (set_dicts w (<[target := acc ++ [(k, pick d v)]]> (dicts w)))).
    2:{ unfold setitem. rewrite Hacc. by rewrite dict_set_fresh. }
    rewrite (IH _ (acc ++ [(k, pick d v)])).
    + simpl. rewrite set_dicts_set_dicts, list_insert_insert_eq.
      unfold level_dict. simpl. by rewrite <- app_assoc.
    + simpl. apply list_lookup_insert_eq. by eapply lookup_lt_Some.
    + rewrite fmap_app. simpl. rewrite <- app_assoc. done.
    + intros k' v' Hin. apply (Hsel k' v'). apply elem_of_cons. by right.
Qed.

Lemma fill_levels_run (its : dict) (l b N : nat) (n s : nat) (w : world) :
  dicts w !! l = Some its → l < b →
  NoDup its.*1 →
  s + n ≤ N →
  (∀ d, s ≤ d < s + n → dicts w !! (b + d) = Some []) →
  (∀ d k v, s ≤ d < s + n → (k, v) ∈ its → select v d = Ok (pick d v)) →
  ∃ σ, fill_levels (VDict l) (seq b N) (seq s n) w = (Ok tt, set_dicts w σ) ∧
       length σ = length (dicts w) ∧
       (∀ j, j < b + s ∨ b + s + n ≤ j → σ !! j = dicts w !! j) ∧
       (∀ d, s ≤ d < s + n → σ !! (b + d) = Some (level_dict its d)).
Proof.
  revert s w. induction n as [|n IH]; intros s w Hl Hlb Hnd HN Hempty Hsel.
  - exists (dicts w). simpl. unfold ret. rewrite set_dicts_id.
    split_and!; [done..|]. intros d Hd. lia.
  - simpl.
    rewrite (bind_ok _ _ w its w) by (unfold items; by rewrite Hl).
    rewrite (bind_ok _ _ w (b + s) w).
    2:{ unfold lift, index. rewrite lookup_seq_lt by lia. done. }
    rewrite (bind_ok _ _ w tt
               (set_dicts w (<[b + s := [] ++ level_dict its s]> (dicts w)))).
    2:{ apply fill_dict_run.
        - apply Hempty. lia.
        - done.
        - intros k v Hin. apply (Hsel s k v); [lia|done]. }
    simpl.
    assert (b + s < length (dicts w)) as Hlt.
    { eapply lookup_lt_Some. apply (Hempty s). lia. }
    destruct (IH (S s) (set_dicts w (<[b + s := level_dict its s]> (dicts w))))
      as (σ & Hrun & Hlen & Hother & Hrows).
    + simpl. rewrite list_lookup_insert_ne by lia. done.
    + done.
    + done.
    + lia.
    + intros d Hd. simpl. rewrite list_lookup_insert_ne by lia. apply Hempty. lia.
    + intros d k v Hd Hin. apply (Hsel d k v); [lia|done].
    + exists σ. rewrite Hrun. rewrite set_dicts_set_dicts.
      simpl in Hlen, Hother, Hrows. rewrite length_insert in Hlen.
      repeat split; [done| |].
      * intros j Hj. rewrite Hother by lia. apply list_lookup_insert_ne. lia.
      * intros d Hd. destruct (decide (d = s)) as [->|Hds].
        -- rewrite Hother by lia. by apply list_lookup_insert_eq.
        -- apply Hrows. lia.
Qed.

Lemma new_dicts_run (n : nat) (w : world) :
  new_dicts n w =
    (Ok (seq (length (dicts w)) n), set_dicts w (dicts w ++ replicate n [])).
Proof.
  revert w. induction n as [|n IH]; intros w; simpl.
  - unfold ret. by rewrite app_nil_r, set_dicts_id.
  - rewrite (bind_ok _ _ w (length (dicts w)) (set_dicts w (dicts w ++ [[]])))
      by reflexivity.
    rewrite (bind_ok _ _ _ _ _ (IH _)). unfold ret. simpl.
    rewrite length_app, Nat.add_1_r, set_dicts_set_dicts, <- app_assoc. done.
Qed.

Lemma max_list_len_ge1 its : 1 ≤ max_list_len its.
Proof.
  induction its as [|[k v] its IH]; simpl; [done|]. destruct v; lia.
Qed.

Lemma scan_max_val_uniform (its : dict) (N m : nat) :
  lengths_1_or N its → N ≤ 256 → m = 1 ∨ m = N → 1 ≤ N →
  ∃ m', scan_max_val its m = Ok m' ∧ (m' = 1 ∨ m' = N) ∧
        m' = m `max` max_list_len its.
Proof.
  revert m. induction its as [|[k v] its IH]; intros m Hits HN Hm H1.
  - simpl. exists m. repeat split; [done|lia].
  - assert (lengths_1_or N its) as Hits'.
    { intros k' vs Hin. apply (Hits k'). apply elem_of_cons. by right. }
    simpl. destruct v;
      try (destruct (IH m) as (m' & -> & ? & ?); [done..|]; by exists m').
    destruct (Hits k vs) as [Hl|Hl]; [apply elem_of_cons; by left|..].
    + rewrite Hl. simpl.
      destruct (IH (m `max` 1)) as (m' & -> & ? & ?); [done..|lia|done|].
      exists m'. repeat split; [done|lia].
    + assert (((1 <? length vs) && ((1 <? m) && negb (int_is (length vs) m))) = false)
        as ->.
      { destruct Hm as [->| ->].
        - by rewrite andb_false_r.
        - rewrite Hl, int_is_small by done. by rewrite !andb_false_r. }
      destruct (IH (m `max` length vs)) as (m' & -> & ? & ?); [done..|lia|done|].
      exists m'. repeat split; [done|lia].
Qed.

(** When the scan accepts the dict, the expansion is what [level_dict]
    says, in [max_val] new dict objects placed after the existing ones. *)
Lemma dict_to_list_run (w : world) (l : loc) (its : dict) (N : nat) :
  dicts w !! l = Some its →
  NoDup its.*1 →
  scan_max_val its 1 = Ok N →
  (∀ d k v, d < N → (k, v) ∈ its → select v d = Ok (pick d v)) →
  dict_to_list (VDict l) w =
    (Ok (seq (length (dicts w)) N),
     set_dicts w (dicts w ++ (level_dict its <$> seq 0 N))).
Proof.
  intros Hl Hnd Hscan Hsel. unfold dict_to_list.
  rewrite (bind_ok _ _ w its w) by (unfold items; by rewrite Hl).
  rewrite (bind_ok _ _ w N w) by (unfold lift; by rewrite Hscan).
  rewrite (bind_ok _ _ _ _ _ (new_dicts_run N w)).
  rewrite length_seq.
  assert (l < length (dicts w)) as Hlt by (by eapply lookup_lt_Some).
  destruct (fill_levels_run its l (length (dicts w)) N N 0
              (set_dicts w (dicts w ++ replicate N [])))
    as (σ & Hrun & Hlen & Hother & Hrows).
  - simpl. by rewrite lookup_app_l.
  - done.
  - done.
  - lia.
  - intros d Hd. simpl. rewrite lookup_app_r by lia.
    replace (length (dicts w) + d - length (dicts w)) with d by lia.
    apply lookup_replicate_2. lia.
  - intros d k v Hd Hin. apply (Hsel d k v); [lia|done].
  - rewrite (bind_ok _ _ _ _ _ Hrun). unfold ret.
    rewrite set_dicts_set_dicts. do 2 f_equal.
    simpl in Hlen, Hother, Hrows. rewrite length_app, length_replicate in Hlen.
    apply list_eq. intros j.
    destruct (decide (j < length (dicts w))) as [Hj|Hj].
    + rewrite Hother by lia. by rewrite !lookup_app_l.
    + destruct (decide (j < length (dicts w) + N)) as [Hj'|Hj'].
      * replace j with (length (dicts w) + (j - length (dicts w))) at 1 by lia.
        rewrite Hrows by lia. rewrite lookup_app_r by lia.
        rewrite list_lookup_fmap, lookup_seq_lt by lia. done.
      * rewrite !lookup_ge_None_2; [done|..].
        -- rewrite length_app, length_fmap, length_seq. lia.
        -- lia.
Qed.

Lemma select_defined (N d : nat) (v : value) :
  (∀ vs, v = VList vs → length vs = 1 ∨ length vs = N) → d < N →
  select v d = Ok (pick d v).
Proof.
  intros Hv Hd. unfold pick. destruct v; try reflexivity.
  simpl. destruct (Hv vs eq_refl) as [Hl|Hl].
  - rewrite Hl. simpl. unfold index.
    destruct vs as [|x vs]; [discriminate|]. reflexivity.
  - unfold index. destruct (length vs =? 1).
    + destruct (lookup_lt_is_Some_2 vs 0) as [x ->]; [lia|done].
    + destruct (lookup_lt_is_Some_2 vs d) as [x ->]; [lia|done].
Qed.

Lemma pick_selected (N i : nat) (v : value) :
  (∀ vs, v = VList vs → length vs = 1 ∨ length vs = N) → i < N →
  selected N i v (pick i v).
Proof.
  intros Hv Hi. unfold selected, pick. destruct v; try reflexivity.
  simpl. unfold index. destruct (Hv vs eq_refl) as [Hl|Hl].
  - left. split; [done|]. rewrite Hl. simpl.
    destruct vs as [|x vs]; [discriminate|]. reflexivity.
  - destruct (length vs =? 1) eqn:E.
    + apply Nat.eqb_eq in E. left. split; [done|].
      destruct (lookup_lt_is_Some_2 vs 0) as [x Hx]; [lia|]. by rewrite Hx.
    + right. split; [done|].
      destruct (lookup_lt_is_Some_2 vs i) as [x Hx]; [lia|]. by rewrite Hx.
Qed.

Lemma level_dict_get (its : dict) (d : nat) k v :
  NoDup its.*1 → (k, v) ∈ its → dict_get k (level_dict its d) = Some (pick d v).
Proof.
  intros Hnd Hin. apply dict_get_elem.
  - by rewrite level_dict_keys.
  - unfold level_dict. apply list_elem_of_fmap. by exists (k, v).
Qed.

(** A list value among the entries of a level comes out of a list of the
    input: it was one of its elements. *)
Lemma level_dict_list_entry (its : dict) (d : nat) k x :
  (k, x) ∈ level_dict its d → is_list x = true →
  ∃ vs, (k, VList vs) ∈ its ∧ x ∈ vs.
Proof.
  unfold level_dict. intros Hin Hx.
  apply list_elem_of_fmap in Hin as ([k' v] & [= -> ->] & Hin). simpl in *.
  unfold pick in Hx |- *. destruct v; simpl in Hx; try discriminate.
  exists vs. split; [done|]. simpl in *. unfold index in *.
  destruct (length vs =? 1).
  - destruct (vs !! 0) eqn:E; [|discriminate]. by eapply list_elem_of_lookup_2.
  - destruct (vs !! d) eqn:E; [|discriminate]. by eapply list_elem_of_lookup_2.
Qed.

(** C2, as the code has it: when every list has length 1 or [N], the largest
    list length, and [N] is at most 256, [__dict_to_list] returns [N] new
    dicts; dict [i] has the keys of the input, each with its scalar, the
    single element of its length-1 list, or element [i] of its length-[N]
    list.  An entry is a list only where that element is one. *)
Theorem C2_dict_to_list_expands (w : world) (l : loc) (its : dict) (N : nat) :
  dicts w !! l = Some its →
  NoDup its.*1 →
  N = max_list_len its →
  lengths_1_or N its →
  N ≤ 256 →
  ∃ ld w',
    dict_to_list (VDict l) w = (Ok ld, w') ∧
    length ld = N ∧
    ∀ i, i < N →
      ∃ t di, ld !! i = Some t ∧ dicts w' !! t = Some di ∧
        di.*1 = its.*1 ∧
        (∀ k v, (k, v) ∈ its → ∃ x, dict_get k di = Some x ∧ selected N i v x) ∧
        (∀ k x, (k, x) ∈ di → is_list x = true → ∃ vs, (k, VList vs) ∈ its ∧ x ∈ vs).
Proof.
  intros Hl Hnd HN Hits H256.
  pose proof (max_list_len_ge1 its) as H1.
  destruct (scan_max_val_uniform its N 1) as (m & Hscan & _ & Hm); [done|done|by left|lia|].
  assert (m = N) as -> by lia.
  exists (seq (length (dicts w)) N), (set_dicts w (dicts w ++ (level_dict its <$> seq 0 N))).
  split; [|split].
  - apply dict_to_list_run; [done..|].
    intros d k v Hd Hin. apply (select_defined N); [|done].
    intros vs ->. by apply (Hits k).
  - apply length_seq.
  - intros i Hi. exists (length (dicts w) + i), (level_dict its i).
    split; [by apply lookup_seq_lt|]. split.
    { simpl. rewrite lookup_app_r by lia.
      replace (length (dicts w) + i - length (dicts w)) with i by lia.
      by rewrite list_lookup_fmap, lookup_seq_lt. }
    split; [apply level_dict_keys|]. split.
    + intros k v Hin. exists (pick i v). split; [by apply level_dict_get|].
      apply pick_selected; [|done]. intros vs ->. by apply (Hits k).
    + intros k x. apply level_dict_list_entry.
Qed.

Lemma C2_dict_to_list_expands_witness :
  ∃ ld w',
    dict_to_list (VDict 0) (mkWorld [two_level_params] [] [] []) = (Ok ld, w') ∧
    length ld = 2 ∧
    ∀ i, i < 2 →
      ∃ t di, ld !! i = Some t ∧ dicts w' !! t = Some di ∧
        di.*1 = two_level_params.*1 ∧
        (∀ k v, (k, v) ∈ two_level_params →
           ∃ x, dict_get k di = Some x ∧ selected 2 i v x) ∧
        (∀ k x, (k, x) ∈ di → is_list x = true →
           ∃ vs, (k, VList vs) ∈ two_level_params ∧ x ∈ vs).
Proof.
  apply (C2_dict_to_list_expands (mkWorld [two_level_params] [] [] []) 0
           two_level_params 2).
  - reflexivity.
  - apply NoDup_ListNoDup. simpl.
    repeat (constructor; [simpl; intuition discriminate|]). constructor.
  - reflexivity.
  - intros k vs Hin. unfold two_level_params in Hin.
    repeat (apply elem_of_cons in Hin as [Heq|Hin];
            [first [discriminate | injection Heq as -> ->; simpl; lia]|]).
    by apply elem_of_nil in Hin.
  - lia.
Defined.

(** C2 as stated fails where a per-level value is itself a list: the single
    list has length 1, and the one dict produced still has a list entry. *)
Lemma C2_list_entry_remains :
  let its := [("nvars", VList [VList [VInt 2; VInt 50]])] in
  let w := mkWorld [its] [] [] [] in
  lengths_1_or (max_list_len its) its ∧
  ∃ ld w' t di x,
    dict_to_list (VDict 0) w = (Ok ld, w') ∧ length ld = max_list_len its ∧
    ld !! 0 = Some t ∧ dicts w' !! t = Some di ∧
    dict_get "nvars" di = Some x ∧ is_list x = true.
Proof.
  simpl. split.
  - intros k vs Hin. apply elem_of_cons in Hin as [[= -> ->]|Hin]; [by left|].
    by apply elem_of_nil in Hin.
  - by eexists _, _, _, _, _.
Qed.

(** The two-level parameters, expanded. *)
Example dict_to_list_two_levels :
  dict_to_list (VDict 0) (mkWorld [two_level_params] [] [] [])
  = (Ok [1; 2],
     mkWorld [two_level_params;
              [("nvars", VInt 50); ("cadv", VInt 1); ("cs", VInt 5)];
              [("nvars", VInt 25); ("cadv", VInt 1); ("cs", VInt 5)]] [] [] []).
Proof. reflexivity. Qed.

(** An empty list is neither broadcast nor rejected by the scan; indexing it
    fails when the first level is filled. *)
Example dict_to_list_empty_list :
  (dict_to_list (VDict 0) (mkWorld [[("nvars", VList [])]] [] [] [])).1 = Err IndexError.
Proof. reflexivity. Qed.

(** With more than 256 levels the identity test of the scan no longer
    recognises equal lengths: two lists of 257 entries are turned down. *)
Lemma dict_to_list_long_equal_lists :
  let its := [("nvars", VList (replicate 257 (VInt 8))); ("cadv", VList (replicate 257 (VInt 1)))] in
  (dict_to_list (VDict 0) (mkWorld [its] [] [] [])).1
  = Err (SystemExit 257 "cadv" (VList (replicate 257 (VInt 1)))).
Proof. vm_compute. reflexivity. Qed.

(** ** What a routine leaves alone *)

Lemma frame_refl b w : b ≤ length (dicts w) → frame b w w.
Proof. by split. Qed.

Lemma frame_same_dicts b w w' :
  dicts w' = dicts w → b ≤ length (dicts w) → frame b w w'.
Proof. intros E Hb. unfold frame. by rewrite E. Qed.

Lemma frame_trans b w1 w2 w3 : frame b w1 w2 → frame b w2 w3 → frame b w1 w3.
Proof.
  intros [H1 H1'] [H2 H2']. split; [done|].
  intros l Hl. by rewrite H2', H1'.
Qed.

Lemma keeps_ret {A} b (a : A) (φ : A → Prop) : φ a → keeps b (ret a) φ.
Proof. intros Ha w Hw. split; [by apply frame_refl|]. by intros ? [= <-]. Qed.

Lemma keeps_bind {A B} b (m : M A) (f : A → M B) (φ : A → Prop) (ψ : B → Prop) :
  keeps b m φ → (∀ a, φ a → keeps b (f a) ψ) → keeps b (bind m f) ψ.
Proof.
  intros Hm Hf w Hw. destruct (Hm w Hw) as [Hfr Hφ].
  unfold bind. destruct (m w) as [[a|e] w1]; simpl in *.
  - destruct (Hf a (Hφ a eq_refl) w1) as [Hfr' Hψ]; [apply Hfr|].
    split; [by eapply frame_trans|done].
  - split; [done|]. intros ? [=].
Qed.

Lemma keeps_if {A} b (c : bool) (m1 m2 : M A) (φ : A → Prop) :
  keeps b m1 φ → keeps b m2 φ → keeps b (if c then m1 else m2) φ.
Proof. by destruct c. Qed.

Lemma reads_keeps {A} b (m : M A) : reads m → keeps b m (λ _, True).
Proof. intros Hm w Hw. rewrite Hm. split; [by apply frame_refl|done]. Qed.

Lemma reads_level_free {A} (m : M A) : reads m → level_free m.
Proof. intros Hm w. by rewrite Hm. Qed.

Lemma reads_raise {A} e : reads (@raise A e).
Proof. done. Qed.
Lemma reads_lift {A} (r : result A) : reads (lift r).
Proof. done. Qed.
Lemma reads_assert c : reads (assert c).
Proof. by destruct c. Qed.
Lemma reads_items dv : reads (items dv).
Proof. intros w. unfold items. destruct dv; try done. by destruct (dicts w !! l). Qed.
Lemma reads_contains k dv : reads (contains k dv).
Proof. intros w. unfold contains. destruct dv; try done. by destruct (dicts w !! l). Qed.
Lemma reads_getitem dv k : reads (getitem dv k).
Proof.
  intros w. unfold getitem. destruct dv; try done.
  destruct (dicts w !! l); [|done]. by destruct (dict_get k l0).
Qed.
Lemma reads_truthy v : reads (truthy v).
Proof. done. Qed.
Lemma reads_is_level L : reads (is_level L).
Proof. done. Qed.

Lemma keeps_new_dict b d : keeps b (new_dict d) (λ l, b ≤ l).
Proof.
  intros w Hw. unfold new_dict, frame. simpl. split; [split|].
  - rewrite length_app. lia.
  - intros l Hl. apply lookup_app_l. lia.
  - intros a [= <-]. done.
Qed.

Lemma keeps_setitem b l k v : b ≤ l → keeps b (setitem l k v) (λ _, True).
Proof.
  intros Hl w Hw. unfold setitem, frame. destruct (dicts w !! l); simpl.
  - split; [split|done].
    + by rewrite length_insert.
    + intros l' Hl'. apply list_lookup_insert_ne. lia.
  - split; [by apply frame_refl|done].
Qed.

Lemma keeps_print b line : keeps b (print line) (λ _, True).
Proof. intros w Hw. split; [by apply frame_same_dicts|done]. Qed.
Lemma keeps_invoke b a args : keeps b (invoke a args) (λ _, True).
Proof. intros w Hw. split; [by apply frame_same_dicts|done]. Qed.
Lemma keeps_new_level b L : keeps b (new_level L) (λ _, True).
Proof. intros w Hw. split; [by apply frame_same_dicts|done]. Qed.
Lemma keeps_level_add_tau b L : keeps b (level_add_tau L) (λ _, True).
Proof.
  intros w Hw. unfold level_add_tau.
  destruct (lvls w !! L); (split; [by apply frame_same_dicts|done]).
Qed.

Create HintDb keeps.
#[local] Hint Resolve reads_raise reads_lift reads_assert reads_items reads_contains
  reads_getitem reads_truthy reads_is_level : keeps.
#[local] Hint Resolve keeps_new_dict keeps_print keeps_invoke keeps_new_level
  keeps_level_add_tau : keeps.

(** One step through a sequence of binds. *)
Ltac keeps_step :=
  lazymatch goal with
  | |- keeps _ (bind _ _) _ => eapply keeps_bind; [|intros ? ?]
  | |- keeps _ (ret _) _ => apply keeps_ret
  | |- keeps _ (if _ then _ else _) _ => apply keeps_if
  | |- keeps _ (setitem _ _ _) _ => apply keeps_setitem
  | |- keeps _ _ _ => first [ by eauto with keeps
                            | apply reads_keeps; by eauto with keeps ]
  end.

Lemma keeps_fill_dict b target d its :
  b ≤ target → keeps b (fill_dict target d its) (λ _, True).
Proof.
  intros Ht. induction its as [|[k v] its IH]; simpl.
  - by apply keeps_ret.
  - repeat keeps_step; done.
Qed.

Lemma keeps_lift {A} b (r : result A) : keeps b (lift r) (λ a, r = Ok a).
Proof. intros w Hw. split; [by apply frame_refl|done]. Qed.

Lemma index_Ok {A} (xs : list A) i x : index xs i = Ok x → xs !! i = Some x.
Proof. unfold index. destruct (xs !! i); by intros [=]; subst. Qed.

Lemma keeps_fill_levels b dv ld ds :
  Forall (le b) ld → keeps b (fill_levels dv ld ds) (λ _, True).
Proof.
  intros Hld. induction ds as [|d ds IH]; simpl.
  - by apply keeps_ret.
  - eapply keeps_bind; [keeps_step|intros its _].
    eapply keeps_bind; [apply keeps_lift|intros t Ht].
    apply index_Ok in Ht.
    eapply keeps_bind; [|intros _ _; apply IH].
    apply keeps_fill_dict.
    by apply (Forall_lookup_1 _ _ _ _ Hld Ht).
Qed.

Lemma keeps_new_dicts b n : keeps b (new_dicts n) (Forall (le b)).
Proof.
  induction n as [|n IH]; simpl.
  - by apply keeps_ret.
  - eapply keeps_bind; [apply keeps_new_dict|intros l Hl].
    eapply keeps_bind; [apply IH|intros ls Hls].
    apply keeps_ret. by constructor.
Qed.

Lemma keeps_dict_to_list b dv : keeps b (dict_to_list dv) (Forall (le b)).
Proof.
  unfold dict_to_list.
  eapply keeps_bind; [keeps_step|intros its _].
  eapply keeps_bind; [keeps_step|intros max_val _].
  eapply keeps_bind; [apply keeps_new_dicts|intros ld Hld].
  eapply keeps_bind; [by apply keeps_fill_levels|intros _ _].
  by apply keeps_ret.
Qed.

Lemma keeps_dict_copy b dv : keeps b (dict_copy dv) (le b).
Proof.
  unfold dict_copy. eapply keeps_bind; [keeps_step|intros d _].
  apply keeps_new_dict.
Qed.

Lemma keeps_get_or b dv k default :
  keeps b default (λ _, True) → keeps b (get_or dv k default) (λ _, True).
Proof. intros Hd. unfold get_or. repeat keeps_step; done. Qed.

Lemma keeps_empty_dict b : keeps b empty_dict (λ _, True).
Proof. unfold empty_dict. repeat keeps_step; done. Qed.

Lemma keeps_assert_in b k dv : keeps b (assert_in k dv) (λ _, True).
Proof. unfold assert_in. repeat keeps_step; done. Qed.

Lemma keeps_new_transfer b tc fl cl tp : keeps b (new_transfer tc fl cl tp) (λ _, True).
Proof.
  unfold new_transfer. destruct tc; try (apply reads_keeps; by eauto with keeps).
  eapply keeps_bind; [keeps_step|intros its _].
  eapply keeps_bind; [|intros f _; by apply keeps_ret].
  destruct (dict_get "finter" its); [keeps_step|by apply keeps_ret].
Qed.

Lemma keeps_register_level b self L : keeps b (register_level self L) (λ _, True).
Proof. unfold register_level. repeat keeps_step; done. Qed.

Lemma keeps_connect_levels b self tc tp fl cl :
  keeps b (connect_levels self tc tp fl cl) (λ _, True).
Proof.
  unfold connect_levels.
  eapply keeps_bind; [apply keeps_new_transfer|intros T _].
  repeat keeps_step; done.
Qed.

#[local] Hint Resolve keeps_get_or keeps_empty_dict keeps_assert_in keeps_new_transfer
  keeps_register_level keeps_connect_levels keeps_ret : keeps.

Lemma keeps_hierarchy_round b descr_list self l :
  keeps b (hierarchy_round descr_list self l) (λ _, True).
Proof. unfold hierarchy_round. repeat keeps_step; done. Qed.

Lemma keeps_hierarchy_loop b descr_list self ls :
  keeps b (hierarchy_loop descr_list self ls) (λ _, True).
Proof.
  revert self. induction ls as [|l ls IH]; intros self; simpl.
  - by apply keeps_ret.
  - eapply keeps_bind; [apply keeps_hierarchy_round|intros self' _; apply IH].
Qed.

Lemma keeps_generate_hierarchy b self descr :
  keeps b (generate_hierarchy self descr) (λ _, True).
Proof.
  unfold generate_hierarchy.
  do 7 (eapply keeps_bind; [apply keeps_assert_in|intros _ _]).
  eapply keeps_bind; [keeps_step|intros pp _].
  eapply keeps_bind; [apply keeps_dict_to_list|intros pparams_list _].
  eapply keeps_bind; [keeps_step|intros lp _].
  eapply keeps_bind; [apply keeps_dict_to_list|intros lparams_list _].
  eapply keeps_bind; [keeps_step|intros sp _].
  eapply keeps_bind; [apply keeps_dict_to_list|intros swparams_list _].
  eapply keeps_bind; [apply keeps_dict_copy|intros descr_new Hnew].
  do 3 (eapply keeps_bind; [by apply keeps_setitem|intros _ _]).
  eapply keeps_bind; [apply keeps_dict_to_list|intros descr_list _].
  eapply keeps_bind; [|intros _ _; apply keeps_hierarchy_loop].
  repeat keeps_step; done.
Qed.

Lemma keeps_step_init b description : keeps b (step_init description) (λ _, True).
Proof.
  unfold step_init.
  eapply keeps_bind; [apply keeps_get_or, keeps_empty_dict|intros step_params _].
  eapply keeps_bind; [keeps_step|intros sp_items _].
  apply keeps_generate_hierarchy.
Qed.

Lemma frame_prefix (w w' : world) :
  frame (length (dicts w)) w w' → ∃ new, dicts w' = dicts w ++ new.
Proof.
  intros [Hlen Hsame]. exists (drop (length (dicts w)) (dicts w')).
  rewrite <- (take_drop (length (dicts w)) (dicts w')) at 1. f_equal.
  apply list_eq. intros l.
  destruct (decide (l < length (dicts w))) as [Hl|Hl].
  - rewrite lookup_take_lt by done. by apply Hsame.
  - rewrite lookup_take_ge by lia. symmetry. apply lookup_ge_None_2. lia.
Qed.

(** C10: constructing a step changes no dict object that existed before:
    the description and the parameter dicts it refers to hold the same items
    afterwards, whether the construction returns or raises.  Whatever the
    construction needs it puts into dict objects of its own. *)
Theorem C10_description_unchanged (description : value) (w : world) :
  ∃ new, dicts (step_init description w).2 = dicts w ++ new.
Proof.
  apply frame_prefix. by apply (keeps_step_init (length (dicts w)) description w).
Qed.

(** ** Routines that do not touch the levels *)

Lemma level_free_ret {A} (a : A) : level_free (ret a).
Proof. done. Qed.

Lemma level_free_bind {A B} (m : M A) (f : A → M B) :
  level_free m → (∀ a, level_free (f a)) → level_free (bind m f).
Proof.
  intros Hm Hf w. unfold bind. specialize (Hm w).
  destruct (m w) as [[a|e] w1]; simpl in *; [|done].
  by rewrite Hf.
Qed.

Lemma level_free_if {A} (c : bool) (m1 m2 : M A) :
  level_free m1 → level_free m2 → level_free (if c then m1 else m2).
Proof. by destruct c. Qed.

Lemma level_free_new_dict d : level_free (new_dict d).
Proof. done. Qed.
Lemma level_free_setitem l k v : level_free (setitem l k v).
Proof. intros w. unfold setitem. by destruct (dicts w !! l). Qed.
Lemma level_free_print line : level_free (print line).
Proof. done. Qed.

Create HintDb level_free.
#[local] Hint Resolve level_free_ret level_free_new_dict level_free_setitem
  level_free_print : level_free.
#[local] Hint Resolve reads_raise reads_lift reads_assert reads_items reads_contains
  reads_getitem reads_truthy reads_is_level : level_free.

Ltac level_free_step :=
  lazymatch goal with
  | |- level_free (bind _ _) => apply level_free_bind; [|intros ?]
  | |- level_free (if _ then _ else _) => apply level_free_if
  | |- level_free (match ?x with _ => _ end) => destruct x
  | |- level_free _ => first [ by eauto with level_free
                             | apply reads_level_free; by eauto with level_free ]
  end.

Lemma level_free_fill_dict target d its : level_free (fill_dict target d its).
Proof. induction its as [|[k v] its IH]; simpl; repeat level_free_step. Qed.

#[local] Hint Resolve level_free_fill_dict : level_free.

Lemma level_free_fill_levels dv ld ds : level_free (fill_levels dv ld ds).
Proof. induction ds as [|d ds IH]; simpl; repeat level_free_step. Qed.

Lemma level_free_new_dicts n : level_free (new_dicts n).
Proof. induction n as [|n IH]; simpl; repeat level_free_step. Qed.

#[local] Hint Resolve level_free_fill_levels level_free_new_dicts : level_free.

Lemma level_free_dict_to_list dv : level_free (dict_to_list dv).
Proof. unfold dict_to_list. repeat level_free_step. Qed.

Lemma level_free_dict_copy dv : level_free (dict_copy dv).
Proof. unfold dict_copy. repeat level_free_step. Qed.

Lemma level_free_get_or dv k default :
  level_free default → level_free (get_or dv k default).
Proof. intros Hd. unfold get_or. repeat level_free_step. Qed.

Lemma level_free_empty_dict : level_free empty_dict.
Proof. unfold empty_dict. repeat level_free_step. Qed.

Lemma level_free_assert_in k dv : level_free (assert_in k dv).
Proof. unfold assert_in. repeat level_free_step. Qed.

Lemma level_free_new_transfer tc fl cl tp : level_free (new_transfer tc fl cl tp).
Proof. unfold new_transfer. repeat level_free_step. Qed.

#[local] Hint Resolve level_free_dict_to_list level_free_dict_copy level_free_get_or
  level_free_empty_dict level_free_assert_in level_free_new_transfer : level_free.

(** A level-free routine at the head of a successful run can be skipped. *)
Lemma bind_ok_skip {A B} (m : M A) (f : A → M B) w b w' :
  level_free m → bind m f w = (Ok b, w') →
  ∃ a w1, lvls w1 = lvls w ∧ f a w1 = (Ok b, w').
Proof.
  intros Hm H. apply bind_ok_inv in H as (a & w1 & Ha & H).
  exists a, w1. split; [|done]. specialize (Hm w). by rewrite Ha in Hm.
Qed.

Tactic Notation "skip_head" hyp(H) "as" ident(a) ident(w) ident(E) :=
  apply bind_ok_skip in H as (a & w & E & H);
  [| by repeat level_free_step ].

(** ** A construction that cannot succeed *)

Lemma doomed_skip {A B} b w0 (m : M A) (f : A → M B) (φ : A → Prop) :
  keeps b m φ → level_free m → (∀ a, doomed b w0 (f a)) → doomed b w0 (bind m f).
Proof.
  intros Hk Hl Hf w Hfr. destruct (Hk w) as [Hfr' _]; [apply Hfr|].
  specialize (Hl w). unfold bind. destruct (m w) as [[a|e] w1]; simpl in *.
  - destruct (Hf a w1) as (e & He & Hlv); [by eapply frame_trans|].
    exists e. split; [done|]. congruence.
  - by exists e.
Qed.

Lemma doomed_getitem {B} b w0 (ld : loc) (ditems : dict) k v (f : value → M B) :
  dicts w0 !! ld = Some ditems → ld < b → dict_get k ditems = Some v →
  doomed b w0 (f v) → doomed b w0 (bind (getitem (VDict ld) k) f).
Proof.
  intros Hld Hb Hk Hf w Hfr.
  rewrite (bind_ok _ _ w v w); [by apply Hf|].
  unfold getitem. destruct Hfr as [_ Hsame]. by rewrite Hsame, Hld, Hk.
Qed.

Lemma doomed_dict_to_list {B} b w0 (l : loc) (its : dict) k1 vs1 k2 vs2
    (f : list loc → M B) :
  dicts w0 !! l = Some its → l < b →
  (k1, VList vs1) ∈ its → (k2, VList vs2) ∈ its →
  1 < length vs1 → 1 < length vs2 → length vs1 ≠ length vs2 →
  doomed b w0 (bind (dict_to_list (VDict l)) f).
Proof.
  intros Hl Hb H1 H2 L1 L2 Hne w [_ Hsame].
  destruct (scan_max_val_two its 1 k1 vs1 k2 vs2) as (m & k & v & Hscan); [done..|].
  exists (SystemExit m k v).
  rewrite (bind_err _ _ w (SystemExit m k v) w); [done|].
  unfold dict_to_list.
  rewrite (bind_ok _ _ w its w) by (unfold items; by rewrite Hsame, Hl).
  apply bind_err. unfold lift. by rewrite Hscan.
Qed.

(** The rejection seen from the constructor: when the problem, level or
    sweeper parameters of a description hold two lists of different lengths
    above 1, the construction of the step raises before any level is made. *)
Lemma step_init_mixed_lengths_rejected (w : world) (ld l : loc) (descr its : dict)
    (key k1 k2 : string) (vs1 vs2 : list value) :
  dicts w !! ld = Some descr →
  key = "problem_params" ∨ key = "level_params" ∨ key = "sweeper_params" →
  dict_get key descr = Some (VDict l) →
  dicts w !! l = Some its →
  (k1, VList vs1) ∈ its → (k2, VList vs2) ∈ its →
  1 < length vs1 → 1 < length vs2 → length vs1 ≠ length vs2 →
  ∃ e, (step_init (VDict ld) w).1 = Err e ∧ lvls (step_init (VDict ld) w).2 = lvls w.
Proof.
  intros Hld Hkey Hget Hl H1 H2 L1 L2 Hne.
  set (b := length (dicts w)).
  assert (ld < b) as Hldb by (by eapply lookup_lt_Some).
  assert (l < b) as Hlb by (by eapply lookup_lt_Some).
  assert (∀ B (f : list loc → M B), doomed b w (bind (dict_to_list (VDict l)) f)) as Hdoom.
  { intros B f. by apply (doomed_dict_to_list b w l its k1 vs1 k2 vs2). }
  assert (doomed b w (step_init (VDict ld))) as Hfinal;
    [|exact (Hfinal w (frame_refl b w (Nat.le_refl _)))].
  unfold step_init, generate_hierarchy.
  eapply doomed_skip; [apply keeps_get_or, keeps_empty_dict
                      |by repeat level_free_step|intros step_params].
  eapply doomed_skip; [apply reads_keeps, reads_items
                      |apply reads_level_free, reads_items|intros sp_items].
  do 7 (eapply doomed_skip; [apply keeps_assert_in|apply level_free_assert_in|intros _]).
  destruct Hkey as [->|Hkey].
  { eapply doomed_getitem; [done..|]. apply Hdoom. }
  eapply doomed_skip; [apply reads_keeps, reads_getitem
                      |apply reads_level_free, reads_getitem|intros pp].
  eapply doomed_skip; [apply keeps_dict_to_list|apply level_free_dict_to_list
                      |intros pparams_list].
  destruct Hkey as [->| ->].
  { eapply doomed_getitem; [done..|]. apply Hdoom. }
  eapply doomed_skip; [apply reads_keeps, reads_getitem
                      |apply reads_level_free, reads_getitem|intros lp].
  eapply doomed_skip; [apply keeps_dict_to_list|apply level_free_dict_to_list
                      |intros lparams_list].
  eapply doomed_getitem; [done..|]. apply Hdoom.
Qed.

(** C3: a dict holding two lists of different lengths, both above 1, makes
    [__dict_to_list] leave through [sys.exit], the store being as it was; and
    a step whose description has that dict for its problem, level or sweeper
    parameters is not constructed: the constructor raises, and no level has
    been made. *)
Theorem C3_mixed_lengths_rejected (w : world) (l : loc) (its : dict)
    (k1 k2 : string) (vs1 vs2 : list value) :
  dicts w !! l = Some its →
  (k1, VList vs1) ∈ its → (k2, VList vs2) ∈ its →
  1 < length vs1 → 1 < length vs2 → length vs1 ≠ length vs2 →
  (∃ m k v, dict_to_list (VDict l) w = (Err (SystemExit m k v), w)) ∧
  (∀ ld descr key,
     dicts w !! ld = Some descr →
     key = "problem_params" ∨ key = "level_params" ∨ key = "sweeper_params" →
     dict_get key descr = Some (VDict l) →
     ∃ e, (step_init (VDict ld) w).1 = Err e ∧
          lvls (step_init (VDict ld) w).2 = lvls w).
Proof.
  intros Hl H1 H2 L1 L2 Hne. split.
  - destruct (scan_max_val_two its 1 k1 vs1 k2 vs2) as (m & k & v & Hscan); [done..|].
    exists m, k, v. unfold dict_to_list.
    rewrite (bind_ok _ _ w its w) by (unfold items; by rewrite Hl).
    apply bind_err. unfold lift. by rewrite Hscan.
  - intros ld descr key Hld Hkey Hget.
    by apply (step_init_mixed_lengths_rejected w ld l descr its key k1 k2 vs1 vs2).
Qed.

Lemma C3_mixed_lengths_rejected_witness :
  (∃ m k v, dict_to_list (VDict 0) mixed_world = (Err (SystemExit m k v), mixed_world)) ∧
  (∀ ld descr key,
     dicts mixed_world !! ld = Some descr →
     key = "problem_params" ∨ key = "level_params" ∨ key = "sweeper_params" →
     dict_get key descr = Some (VDict 0) →
     ∃ e, (step_init (VDict ld) mixed_world).1 = Err e ∧
          lvls (step_init (VDict ld) mixed_world).2 = lvls mixed_world).
Proof.
  apply (C3_mixed_lengths_rejected mixed_world 0 mixed_params "nvars" "cadv"
           [VTuple [VInt 2; VInt 50]; VTuple [VInt 2; VInt 25]; VTuple [VInt 2; VInt 10]]
           [VInt 1; VInt 2]).
  - reflexivity.
  - apply elem_of_cons. by left.
  - apply elem_of_cons. right. apply elem_of_cons. by left.
  - simpl. lia.
  - simpl. lia.
  - simpl. lia.
Defined.

(** The description of the example is turned down with the message of the
    scan. *)
Example mixed_description_rejected :
  (step_init (VDict 1) mixed_world).1
  = Err (SystemExit 3 "cadv" (VList [VInt 1; VInt 2])).
Proof. reflexivity. Qed.

(** *** Widths that disagree across the description *)

Lemma dict_set_elem k v (d : dict) : (k, v) ∈ dict_set k v d.
Proof.
  induction d as [|[k' v'] d IH]; simpl.
  - apply elem_of_cons. by left.
  - destruct (String.eqb k k') eqn:E.
    + apply String.eqb_eq in E as ->. apply elem_of_cons. by left.
    + apply elem_of_cons. by right.
Qed.

Lemma dict_set_elem_ne k v k' v' (d : dict) :
  k ≠ k' → (k, v) ∈ d → (k, v) ∈ dict_set k' v' d.
Proof.
  intros Hne. induction d as [|[k0 v0] d IH]; simpl; intros Hin.
  - by apply elem_of_nil in Hin.
  - apply elem_of_cons in Hin as [[= <- <-]|Hin].
    + assert (String.eqb k' k = false) as -> by (by apply String.eqb_neq).
      apply elem_of_cons. by left.
    + destruct (String.eqb k' k0); apply elem_of_cons; right; [done|by apply IH].
Qed.

Lemma scan_max_val_Ok (its : dict) (m0 m : nat) :
  scan_max_val its m0 = Ok m → m0 ≤ m ∧ m `max` 1 = m0 `max` max_list_len its.
Proof.
  revert m0. induction its as [|[k v] its IH]; intros m0; simpl.
  - intros [= ->]. lia.
  - destruct v; try (intros H; apply IH in H; lia).
    destruct (_ && _); [discriminate|].
    intros H. apply IH in H. lia.
Qed.

(** A successful expansion returns as many dicts as the largest list is
    long. *)
Lemma dict_to_list_ok_length (l : loc) (its : dict) (w w' : world) (ld : list loc) :
  dicts w !! l = Some its →
  dict_to_list (VDict l) w = (Ok ld, w') →
  length ld = max_list_len its.
Proof.
  intros Hl H. unfold dict_to_list in H.
  apply bind_ok_inv in H as (its' & w1 & Hits & H).
  unfold items in Hits. rewrite Hl in Hits. injection Hits as <- <-.
  apply bind_ok_inv in H as (mv & w1 & Hscan & H).
  unfold lift in Hscan. injection Hscan as Hscan <-.
  rewrite (bind_ok _ _ _ _ _ (new_dicts_run mv w)) in H.
  apply bind_ok_inv in H as ([] & w2 & _ & H). injection H as <- _.
  rewrite length_seq. apply scan_max_val_Ok in Hscan.
  pose proof (max_list_len_ge1 its). lia.
Qed.

Lemma doomed_expand {B} b w0 (ld : loc) (descr : dict) (key : string)
    (f : list loc → M B) :
  b = length (dicts w0) → dicts w0 !! ld = Some descr →
  (∀ pl, expanded w0 descr key pl → doomed b w0 (f pl)) →
  doomed b w0 (pp <- getitem (VDict ld) key ;; pl <- dict_to_list pp ;; f pl).
Proof.
  intros Hb Hld Hf w Hfr.
  assert (dicts w !! ld = Some descr) as Hld'.
  { destruct Hfr as [_ Hsame]. rewrite Hsame; [done|].
    rewrite Hb. by eapply lookup_lt_Some. }
  destruct (dict_get key descr) as [pp|] eqn:Hkey.
  2:{ exists KeyError. rewrite (bind_err _ _ w KeyError w); [done|].
      unfold getitem. by rewrite Hld', Hkey. }
  rewrite (bind_ok _ _ w pp w) by (unfold getitem; by rewrite Hld', Hkey).
  pose proof (level_free_dict_to_list pp w) as Hlv.
  destruct (keeps_dict_to_list b pp w) as [Hfr' _]; [apply Hfr|].
  destruct (dict_to_list pp w) as [[pl|e] w1] eqn:Hrun.
  - rewrite (bind_ok _ _ w pl w1) by done. simpl in *.
    destruct (Hf pl) with (w := w1) as (e & He & Hlv').
    + intros l its Hpp Hl. rewrite Hkey in Hpp. injection Hpp as ->.
      eapply dict_to_list_ok_length; [|exact Hrun].
      destruct Hfr as [_ Hsame]. rewrite Hsame; [done|].
      rewrite Hb. by eapply lookup_lt_Some.
    + by eapply frame_trans.
    + exists e. split; [done|]. congruence.
  - rewrite (bind_err _ _ w e w1) by done. by exists e.
Qed.

(** The last expansion, of the copy that holds the three expanded lists. *)
Lemma doomed_final {B} b w0 (ld : loc) (descr : dict) (pl ll sl : list loc)
    k1 vs1 k2 vs2 (f : loc → list loc → M B) :
  b = length (dicts w0) → dicts w0 !! ld = Some descr →
  let D := dict_set "sweeper_params" (dict_list sl)
             (dict_set "level_params" (dict_list ll)
                (dict_set "problem_params" (dict_list pl) descr)) in
  (k1, VList vs1) ∈ D → (k2, VList vs2) ∈ D →
  1 < length vs1 → 1 < length vs2 → length vs1 ≠ length vs2 →
  doomed b w0
    (descr_new <- dict_copy (VDict ld) ;;
     setitem descr_new "problem_params" (dict_list pl) ;;;
     setitem descr_new "level_params" (dict_list ll) ;;;
     setitem descr_new "sweeper_params" (dict_list sl) ;;;
     descr_list <- dict_to_list (VDict descr_new) ;;
     f descr_new descr_list).
Proof.
  intros Hb Hld D H1 H2 L1 L2 Hne w Hfr.
  assert (dicts w !! ld = Some descr) as Hld'.
  { destruct Hfr as [_ Hsame]. rewrite Hsame; [done|].
    rewrite Hb. by eapply lookup_lt_Some. }
  set (n := length (dicts w)).
  destruct (scan_max_val_two D 1 k1 vs1 k2 vs2) as (m & k & v & Hscan); [done..|].
  exists (SystemExit m k v).
  rewrite (bind_ok _ _ w n (set_dicts w (dicts w ++ [descr]))).
  2:{ unfold dict_copy. rewrite (bind_ok _ _ w descr w); [done|].
      unfold items. by rewrite Hld'. }
  rewrite (bind_ok _ _ _ tt
             (set_dicts w (dicts w ++ [dict_set "problem_params" (dict_list pl) descr]))).
  2:{ unfold setitem. simpl. rewrite lookup_app_r by done.
      replace (n - length (dicts w)) with 0 by (unfold n; lia). simpl.
      rewrite insert_app_r_alt by done.
      replace (n - length (dicts w)) with 0 by (unfold n; lia). done. }
  rewrite (bind_ok _ _ _ tt
             (set_dicts w (dicts w ++ [dict_set "level_params" (dict_list ll)
                                         (dict_set "problem_params" (dict_list pl) descr)]))).
  2:{ unfold setitem. simpl. rewrite lookup_app_r by done.
      replace (n - length (dicts w)) with 0 by (unfold n; lia). simpl.
      rewrite insert_app_r_alt by done.
      replace (n - length (dicts w)) with 0 by (unfold n; lia). done. }
  rewrite (bind_ok _ _ _ tt (set_dicts w (dicts w ++ [D]))).
  2:{ unfold setitem. simpl. rewrite lookup_app_r by done.
      replace (n - length (dicts w)) with 0 by (unfold n; lia). simpl.
      rewrite insert_app_r_alt by done.
      replace (n - length (dicts w)) with 0 by (unfold n; lia). done. }
  rewrite (bind_err _ _ _ (SystemExit m k v) (set_dicts w (dicts w ++ [D]))); [done|].
  unfold dict_to_list.
  rewrite (bind_ok _ _ _ D (set_dicts w (dicts w ++ [D]))).
  2:{ unfold items. simpl. rewrite lookup_app_r by done.
      replace (n - length (dicts w)) with 0 by (unfold n; lia). done. }
  apply bind_err. unfold lift. by rewrite Hscan.
Qed.

(** Every width the description asks for is the length of a list of the
    copy, once the three expanded lists are in it. *)
Lemma width_source_entry (w0 : world) (descr : dict) (pl ll sl : list loc) (a : nat) :
  expanded w0 descr "problem_params" pl →
  expanded w0 descr "level_params" ll →
  expanded w0 descr "sweeper_params" sl →
  width_source w0 descr a →
  ∃ k vs, (k, VList vs) ∈ dict_set "sweeper_params" (dict_list sl)
                            (dict_set "level_params" (dict_list ll)
                               (dict_set "problem_params" (dict_list pl) descr))
          ∧ length vs = a.
Proof.
  intros Hp Hl Hs [key l its Hkey Hget Hits|k vs Hin Hk].
  - unfold param_keys in Hkey.
    apply elem_of_cons in Hkey as [->|Hkey]; [|apply elem_of_cons in Hkey as [->|Hkey]];
      [| |apply elem_of_cons in Hkey as [->|Hkey]; [|by apply elem_of_nil in Hkey]].
    + exists "problem_params", (VDict <$> pl). split.
      * do 2 (apply dict_set_elem_ne; [done|]). apply dict_set_elem.
      * rewrite length_fmap. by eapply Hp.
    + exists "level_params", (VDict <$> ll). split.
      * apply dict_set_elem_ne; [done|]. apply dict_set_elem.
      * rewrite length_fmap. by eapply Hl.
    + exists "sweeper_params", (VDict <$> sl). split.
      * apply dict_set_elem.
      * rewrite length_fmap. by eapply Hs.
  - exists k, vs. split; [|done].
    unfold param_keys in Hk.
    do 3 (apply dict_set_elem_ne;
          [intros ->; apply Hk; apply list_elem_of_In; simpl; tauto|]).
    done.
Qed.

(** Two widths above 1 that differ, wherever in the description they come
    from, make the construction raise before any level is made: either an
    expansion of a parameter dict raises, or the last one does. *)
Lemma step_init_width_mismatch_rejected (w : world) (ld : loc) (descr : dict)
    (a b : nat) :
  dicts w !! ld = Some descr →
  width_source w descr a → width_source w descr b →
  1 < a → 1 < b → a ≠ b →
  ∃ e, (step_init (VDict ld) w).1 = Err e ∧ lvls (step_init (VDict ld) w).2 = lvls w.
Proof.
  intros Hld Ha Hb La Lb Hne.
  set (n := length (dicts w)).
  assert (doomed n w (step_init (VDict ld))) as Hfinal;
    [|exact (Hfinal w (frame_refl n w (Nat.le_refl _)))].
  unfold step_init, generate_hierarchy.
  eapply doomed_skip; [apply keeps_get_or, keeps_empty_dict
                      |by repeat level_free_step|intros step_params].
  eapply doomed_skip; [apply reads_keeps, reads_items
                      |apply reads_level_free, reads_items|intros sp_items].
  do 7 (eapply doomed_skip; [apply keeps_assert_in|apply level_free_assert_in|intros _]).
  eapply doomed_expand; [done..|intros pl Hp].
  eapply doomed_expand; [done..|intros ll Hl].
  eapply doomed_expand; [done..|intros sl Hs].
  destruct (width_source_entry w descr pl ll sl a Hp Hl Hs Ha) as (k1 & vs1 & H1 & E1).
  destruct (width_source_entry w descr pl ll sl b Hp Hl Hs Hb) as (k2 & vs2 & H2 & E2).
  eapply (doomed_final n w ld descr pl ll sl k1 vs1 k2 vs2); [done..|lia|lia|lia].
Qed.

(** Three [nvars] for the problem against two [num_nodes] for the sweeper. *)
Example cross_description_rejected :
  ∃ e, (step_init (VDict 3)
          (mkWorld [[("nvars", VList [VInt 50; VInt 25; VInt 10])];
                    [("restol", VInt 1)];
                    [("num_nodes", VList [VInt 3; VInt 2])];
                    [("problem_class", VObj 1); ("problem_params", VDict 0);
                     ("dtype_u", VObj 2); ("dtype_f", VObj 3); ("sweeper_class", VObj 4);
                     ("sweeper_params", VDict 2); ("level_params", VDict 1)]] [] [] [])).1
       = Err e.
Proof. eexists. vm_compute. reflexivity. Qed.

(** ** The transfer table *)

Lemma key_eqb_eq a b : key_eqb a b = true ↔ a = b.
Proof.
  destruct a as [a1 a2], b as [b1 b2]. unfold key_eqb. simpl.
  rewrite andb_true_iff, !Nat.eqb_eq. split; [by intros [-> ->]|by intros [= -> ->]].
Qed.

Lemma key_eqb_ne a b : a ≠ b → key_eqb a b = false.
Proof.
  intros Hne. destruct (key_eqb a b) eqn:E; [|done]. by apply key_eqb_eq in E.
Qed.

Lemma key_eqb_refl a : key_eqb a a = true.
Proof. by apply key_eqb_eq. Qed.

Lemma table_set_fresh k a (t : transfer_table) :
  k ∉ t.*1 → table_set k a t = t ++ [(k, a)].
Proof.
  induction t as [|[k' a'] t IH]; simpl; intros Hk; [done|].
  apply not_elem_of_cons in Hk as [Hne Hk].
  rewrite key_eqb_ne by done. by rewrite IH.
Qed.

Lemma table_of_snoc b Ts T :
  table_of b (Ts ++ [T]) = table_of b Ts ++ entry_pair (b + length Ts) T.
Proof.
  revert b. induction Ts as [|T' Ts IH]; intros b; simpl.
  - by rewrite Nat.add_0_r.
  - rewrite IH. by replace (S b + length Ts) with (b + S (length Ts)) by lia.
Qed.

Lemma table_of_length b Ts : length (table_of b Ts) = 2 * length Ts.
Proof. revert b. induction Ts as [|T Ts IH]; intros b; simpl; [done|]. rewrite IH. lia. Qed.

(** Every entry joins two neighbours of the chain. *)
Lemma table_of_elem b Ts src tgt a :
  ((src, tgt), a) ∈ table_of b Ts →
  ∃ i T, Ts !! i = Some T ∧
    ((src = b + i ∧ tgt = b + S i ∧ a = (T, restrict)) ∨
     (src = b + S i ∧ tgt = b + i ∧ a = (T, down T))).
Proof.
  revert b. induction Ts as [|T Ts IH]; intros b; simpl.
  - by intros ?%elem_of_nil.
  - intros Hin. apply elem_of_cons in Hin as [[= -> -> ->]|Hin].
    { exists 0, T. split; [done|]. left. split_and!; [lia|lia|done]. }
    apply elem_of_cons in Hin as [[= -> -> ->]|Hin].
    { exists 0, T. split; [done|]. right. split_and!; [lia|lia|done]. }
    destruct (IH _ Hin) as (i & T' & Hi & H). exists (S i), T'. split; [done|].
    destruct H as [(-> & -> & ->)|(-> & -> & ->)]; [left|right]; split_and!; (lia || done).
Qed.

Lemma table_of_keys_bound b Ts k :
  k ∈ (table_of b Ts).*1 → b ≤ k.1 ≤ b + length Ts ∧ b ≤ k.2 ≤ b + length Ts.
Proof.
  intros Hin. apply list_elem_of_fmap in Hin as ([[src tgt] a] & -> & Hin).
  apply table_of_elem in Hin as (i & T & Hi & H). apply lookup_lt_Some in Hi.
  simpl. destruct H as [(-> & -> & _)|(-> & -> & _)]; lia.
Qed.

Lemma table_get_Some_elem k a (t : transfer_table) :
  table_get k t = Some a → (k, a) ∈ t.
Proof.
  induction t as [|[k' a'] t IH]; simpl; [done|].
  destruct (key_eqb k k') eqn:E.
  - apply key_eqb_eq in E as ->. intros [= ->]. apply elem_of_cons. by left.
  - intros H. apply elem_of_cons. right. by apply IH.
Qed.

Lemma table_get_restrict b Ts i T :
  Ts !! i = Some T → table_get (b + i, b + S i) (table_of b Ts) = Some (T, restrict).
Proof.
  revert b i. induction Ts as [|T' Ts IH]; intros b i Hi; [done|].
  destruct i as [|i]; simpl in *.
  - injection Hi as ->. rewrite Nat.add_0_r, Nat.add_1_r. by rewrite key_eqb_refl.
  - rewrite !key_eqb_ne by (intros [=]; lia).
    replace (b + S i) with (S b + i) by lia.
    replace (b + S (S i)) with (S b + S i) by lia. by apply IH.
Qed.

Lemma table_get_down b Ts i T :
  Ts !! i = Some T → table_get (b + S i, b + i) (table_of b Ts) = Some (T, down T).
Proof.
  revert b i. induction Ts as [|T' Ts IH]; intros b i Hi; [done|].
  destruct i as [|i]; simpl in *.
  - injection Hi as ->. rewrite Nat.add_0_r, Nat.add_1_r.
    rewrite key_eqb_ne by (intros [=]; lia). by rewrite key_eqb_refl.
  - rewrite !key_eqb_ne by (intros [=]; lia).
    replace (b + S i) with (S b + i) by lia.
    replace (b + S (S i)) with (S b + S i) by lia. by apply IH.
Qed.

Lemma table_get_far b Ts src tgt :
  tgt ≠ S src → src ≠ S tgt → table_get (src, tgt) (table_of b Ts) = None.
Proof.
  intros H1 H2. destruct (table_get (src, tgt) (table_of b Ts)) as [a|] eqn:E; [|done].
  apply table_get_Some_elem, table_of_elem in E as (i & T & _ & H).
  destruct H as [(-> & -> & _)|(-> & -> & _)]; lia.
Qed.

Lemma table_of_NoDup b Ts : NoDup (table_of b Ts).*1.
Proof.
  revert b. induction Ts as [|T Ts IH]; intros b; simpl.
  - apply NoDup_nil_2.
  - apply NoDup_cons. split.
    { intros Hin. apply elem_of_cons in Hin as [[=]|Hin]; [lia|].
      apply table_of_keys_bound in Hin. simpl in Hin. lia. }
    apply NoDup_cons. split; [|apply IH].
    intros Hin. apply table_of_keys_bound in Hin. simpl in Hin. lia.
Qed.

(** ** Successful runs of the step routines *)

Lemma register_level_ok self L w s1 w' :
  register_level self L w = (Ok s1, w') →
  s1 = set_levels self (levels self ++ [L]) ∧
  ((1 <? length (levels s1)) = true →
     ∃ lv, lvls w !! L = Some lv ∧ lvls w' = <[L := add_tau lv]> (lvls w)) ∧
  ((1 <? length (levels s1)) = false → lvls w' = lvls w).
Proof.
  unfold register_level. intros H.
  apply bind_ok_inv in H as ([] & w1 & H1 & H).
  apply bind_ok_inv in H1 as (c & w2 & Hc & H1).
  injection Hc as <- <-. destruct (bool_decide _); [|discriminate].
  injection H1 as <-.
  destruct (1 <? length (levels (set_levels self (levels self ++ [L])))) eqn:E.
  - apply bind_ok_inv in H as ([] & w3 & Ht & H). injection H as <- <-.
    split; [done|]. rewrite E. split; [|done]. intros _.
    unfold level_add_tau in Ht. destruct (lvls w !! L) as [lv|]; [|discriminate].
    injection Ht as <-. by exists lv.
  - injection H as <- <-. split; [done|]. rewrite E. split; done.
Qed.

Lemma new_transfer_ok tc fl cl tp w T w' :
  new_transfer tc fl cl tp w = (Ok T, w') →
  lvls w' = lvls w ∧ tr_fine T = fl ∧ tr_coarse T = cl ∧ tr_class T = tc ∧ tr_params T = tp.
Proof.
  intros H. split.
  { pose proof (level_free_new_transfer tc fl cl tp w) as E. by rewrite H in E. }
  unfold new_transfer in H. destruct tc; try discriminate.
  apply bind_ok_inv in H as (its & w1 & _ & H).
  apply bind_ok_inv in H as (f & w2 & _ & H).
  by injection H as <- <-.
Qed.

Lemma connect_levels_ok self tc tp fl cl w s' w' :
  connect_levels self tc tp fl cl w = (Ok s', w') →
  lvls w' = lvls w ∧
  ∃ T, tr_fine T = fl ∧ tr_coarse T = cl ∧
       s' = set_transfer_dict self
              (table_set (cl, fl) (T, down T)
                 (table_set (fl, cl) (T, restrict) (__transfer_dict self))).
Proof.
  unfold connect_levels. intros H.
  apply bind_ok_inv in H as (T & w1 & HT & H).
  apply new_transfer_ok in HT as (E & Hf & Hc & _).
  unfold down.
  destruct (finter T) eqn:Ef; injection H as <- <-; (split; [done|]); exists T;
    split_and!; try done; by rewrite Ef.
Qed.

(** ** The hierarchy loop *)

Lemma hierarchy_round_inv (descr_list : list loc) (b k : nat) (s s' : step) (w w' : world) :
  hierarchy_inv b k s w →
  hierarchy_round descr_list s k w = (Ok s', w') →
  hierarchy_inv b (S k) s' w'.
Proof.
  intros (Hlev & Hlen & Htau & Ts & HTs & Htab & Hends) H.
  unfold hierarchy_round in H.
  skip_head H as dl u0 E0. skip_head H as hook u1 E1.
  skip_head H as tparams u2 E2. skip_head H as pparams u3 E3.
  skip_head H as pc u4 E4. skip_head H as du u5 E5. skip_head H as df u6 E6.
  skip_head H as sc u7 E7. skip_head H as sp u8 E8. skip_head H as lp w0 E9.
  apply bind_ok_inv in H as (L & w1 & HL & H).
  injection HL as <- <-.
  apply bind_ok_inv in H as (s1 & w2 & Hreg & H).
  apply register_level_ok in Hreg as (-> & Hyes & Hno).
  simpl in Hyes, Hno. rewrite Hlev, length_app, length_seq in Hyes, Hno. simpl in *.
  assert (length (lvls w0) = b + k) as Hlen0 by congruence.
  (* the levels after registration *)
  assert (lvls w2 = lvls w ++ [mkLevel ("L" +:+ pretty k) pc pparams du df sc sp lp hook
                                       (0 <? k)]
          ∧ (0 <? k) = (1 <? k + 1)) as [Hlv Hk].
  { destruct (1 <? k + 1) eqn:Ek.
    - destruct (Hyes eq_refl) as (lv & Hlook & ->).
      rewrite lookup_app_r in Hlook by lia.
      replace (length (lvls w0) - length (lvls w0)) with 0 in Hlook by lia.
      injection Hlook as <-.
      rewrite insert_app_r_alt by lia.
      replace (length (lvls w0) - length (lvls w0)) with 0 by lia.
      apply Nat.ltb_lt in Ek.
      assert ((0 <? k) = true) as -> by (apply Nat.ltb_lt; lia).
      split; [|done]. simpl. unfold add_tau. simpl. congruence.
    - rewrite (Hno eq_refl). simpl. apply Nat.ltb_ge in Ek.
      assert ((0 <? k) = false) as -> by (apply Nat.ltb_ge; lia).
      split; [|done]. congruence. }
  assert (levels s ++ [length (lvls w0)] = seq b (S k)) as Hlev'.
  { rewrite seq_S. congruence. }
  assert (∀ w3 : world, lvls w3 = lvls w2 →
          (∀ i, i < S k → ∃ lv, lvls w3 !! (b + i) = Some lv ∧
                       tau_allocated lv = (0 <? i) ∧
                       level_id lv = "L" +:+ pretty i)) as Htau'.
  { intros w3 -> i Hi. rewrite Hlv. destruct (decide (i < k)) as [Hik|Hik].
    - rewrite lookup_app_l by lia. by apply Htau.
    - assert (i = k) as -> by lia. rewrite lookup_app_r by lia.
      replace (b + k - length (lvls w)) with 0 by lia. simpl. eauto. }
  destruct (0 <? k) eqn:Ek.
  - apply Nat.ltb_lt in Ek.
    apply bind_ok_inv in H as (tc & w3 & Htc & H).
    pose proof (reads_getitem (VDict dl) "transfer_class" w2) as Hr.
    rewrite Htc in Hr. simpl in Hr. subst w3.
    apply bind_ok_inv in H as (fine & w3 & Hfine & H). injection Hfine as Hfine <-.
    apply bind_ok_inv in H as (coarse & w3 & Hcoarse & H). injection Hcoarse as Hcoarse <-.
    apply index_Ok in Hfine, Hcoarse. rewrite Hlev' in Hfine, Hcoarse.
    apply lookup_seq in Hfine as [-> _]. apply lookup_seq in Hcoarse as [-> _].
    apply connect_levels_ok in H as (Hl' & T & Hf & Hc & ->).
    split_and!.
    + done.
    + rewrite Hl', Hlv, length_app. simpl. lia.
    + by apply Htau'.
    + exists (Ts ++ [T]). simpl. split_and!.
      * rewrite length_app. simpl. lia.
      * rewrite Htab, table_of_snoc, HTs. unfold entry_pair.
        replace (b + (k - 1)) with (b + k - 1) by lia.
        replace (S (b + k - 1)) with (b + k) by lia.
        rewrite (table_set_fresh (b + k - 1, b + k)).
        2:{ intros Hin. apply table_of_keys_bound in Hin. simpl in Hin. lia. }
        rewrite (table_set_fresh (b + k, b + k - 1)).
        2:{ rewrite fmap_app. intros Hin. apply elem_of_app in Hin as [Hin|Hin].
            - apply table_of_keys_bound in Hin. simpl in Hin. lia.
            - apply elem_of_cons in Hin as [[=]|Hin]; [lia|].
              by apply elem_of_nil in Hin. }
        by rewrite <- app_assoc.
      * intros i T' Hi. apply lookup_app_Some in Hi as [Hi|[Hge Hi]].
        -- by apply Hends.
        -- apply list_lookup_singleton_Some in Hi as [Hi ->].
           rewrite Hf, Hc. lia.
  - injection H as <- <-. apply Nat.ltb_ge in Ek. assert (k = 0) as -> by lia.
    split_and!.
    + done.
    + rewrite Hlv, length_app. simpl. lia.
    + by apply Htau'.
    + exists []. simpl in HTs. destruct Ts; [|discriminate]. by split_and!.
Qed.

Lemma hierarchy_loop_inv (descr_list : list loc) (b n k : nat) (s s' : step) (w w' : world) :
  hierarchy_inv b k s w →
  hierarchy_loop descr_list s (seq k n) w = (Ok s', w') →
  hierarchy_inv b (k + n) s' w'.
Proof.
  revert k s w. induction n as [|n IH]; intros k s w Hinv H; simpl in H.
  - injection H as <- <-. by rewrite Nat.add_0_r.
  - apply bind_ok_inv in H as (s1 & w1 & Hround & H).
    replace (k + S n) with (S k + n) by lia.
    apply (IH (S k) s1 w1); [|done].
    by eapply hierarchy_round_inv.
Qed.

(** A constructed step satisfies the invariant for the number of its levels,
    counted from the level objects that existed before. *)
Lemma step_init_inv (description : value) (w w' : world) (s : step) :
  step_init description w = (Ok s, w') →
  hierarchy_inv (length (lvls w)) (length (levels s)) s w'.
Proof.
  unfold step_init, generate_hierarchy. intros H.
  skip_head H as step_params u0 E0. skip_head H as sp_items u1 E1.
  skip_head H as x2 u2 E2. skip_head H as x3 u3 E3. skip_head H as x4 u4 E4.
  skip_head H as x5 u5 E5. skip_head H as x6 u6 E6. skip_head H as x7 u7 E7.
  skip_head H as x8 u8 E8.
  skip_head H as pp u9 E9. skip_head H as pparams_list u10 E10.
  skip_head H as lp u11 E11. skip_head H as lparams_list u12 E12.
  skip_head H as sp u13 E13. skip_head H as swparams_list u14 E14.
  skip_head H as descr_new u15 E15.
  skip_head H as x16 u16 E16. skip_head H as x17 u17 E17. skip_head H as x18 u18 E18.
  skip_head H as descr_list u19 E19. skip_head H as x20 u20 E20.
  assert (lvls u20 = lvls w) as E by congruence.
  assert (hierarchy_inv (length (lvls w)) (0 + length descr_list) s w') as Hinv.
  { eapply hierarchy_loop_inv; [|exact H].
    split_and!; [done|simpl; rewrite E; lia|intros i Hi; lia|].
    exists []. by split_and!. }
  destruct Hinv as (Hlev & Hrest). simpl in Hlev.
  rewrite Hlev, length_seq. by split.
Qed.

(** C1: a constructed step with [N] levels has a table of [2 * (N - 1)]
    entries under distinct keys; every key joins two neighbours of the level
    list; between two neighbours, the entry from fine to coarse is the
    [restrict] of their transfer, and the entry from coarse to fine is its
    [prolong_f] when [finter] is set and its [prolong] otherwise. *)
Theorem C1_transfer_table (description : value) (w w' : world) (s : step) :
  step_init description w = (Ok s, w') →
  let N := length (levels s) in
  length (__transfer_dict s) = 2 * (N - 1) ∧
  NoDup (__transfer_dict s).*1 ∧
  (∀ src tgt a, ((src, tgt), a) ∈ __transfer_dict s →
     ∃ i, (levels s !! i = Some src ∧ levels s !! S i = Some tgt) ∨
          (levels s !! S i = Some src ∧ levels s !! i = Some tgt)) ∧
  (∀ i fine coarse, levels s !! i = Some fine → levels s !! S i = Some coarse →
     ∃ T, tr_fine T = fine ∧ tr_coarse T = coarse ∧
          table_get (fine, coarse) (__transfer_dict s) = Some (T, restrict) ∧
          table_get (coarse, fine) (__transfer_dict s)
            = Some (T, if finter T then prolong_f else prolong)).
Proof.
  intros H N. apply step_init_inv in H as (Hlev & _ & _ & Ts & HTs & Htab & Hends).
  fold N in Hlev, HTs. rewrite Htab. split_and!.
  - rewrite table_of_length. lia.
  - apply table_of_NoDup.
  - intros src tgt a Hin. apply table_of_elem in Hin as (i & T & Hi & Hor).
    apply lookup_lt_Some in Hi. exists i. rewrite Hlev.
    destruct Hor as [(-> & -> & _)|(-> & -> & _)]; [left|right];
      split; (rewrite lookup_seq_lt by lia; f_equal; lia).
  - intros i fine coarse Hf Hc. rewrite Hlev in Hf, Hc.
    apply lookup_seq in Hf as [-> _]. apply lookup_seq in Hc as [-> Hi].
    destruct (lookup_lt_is_Some_2 Ts i) as [T HT]; [lia|].
    exists T. destruct (Hends i T HT) as [-> ->].
    split_and!; [done|done|by apply table_get_restrict|by apply table_get_down].
Qed.

(** C8: in a constructed step the level at index 0 has no [tau] and every
    level at a later index has one. *)
Theorem C8_tau_by_position (description : value) (w w' : world) (s : step) :
  step_init description w = (Ok s, w') →
  2 ≤ length (levels s) →
  ∀ i L, levels s !! i = Some L →
    ∃ lv, lvls w' !! L = Some lv ∧ (tau_allocated lv = true ↔ 0 < i).
Proof.
  intros H _ i L HL. apply step_init_inv in H as (Hlev & _ & Htau & _).
  rewrite Hlev in HL. apply lookup_seq in HL as [-> Hi].
  destruct (Htau i Hi) as (lv & Hlv & Ht & _). exists lv. split; [done|].
  rewrite Ht. apply Nat.ltb_lt.
Qed.

(** C6: on a constructed step, [transfer] between two levels that are not
    neighbours raises [KeyError] and does nothing else; between neighbours it
    calls the table entry of that pair, with no arguments. *)
Theorem C6_transfer_adjacent_only (description : value) (w w' : world) (s : step)
    (i j : nat) (source target : loc) (w1 : world) :
  step_init description w = (Ok s, w') →
  levels s !! i = Some source → levels s !! j = Some target →
  ((j ≠ S i ∧ i ≠ S j) → transfer s source target w1 = (Err KeyError, w1)) ∧
  ((j = S i ∨ i = S j) →
     ∃ a, table_get (source, target) (__transfer_dict s) = Some a ∧
          transfer s source target w1
            = (Ok tt, mkWorld (dicts w1) (lvls w1) (calls w1 ++ [(a, [])]) (stdout w1))).
Proof.
  intros H Hs Ht. apply step_init_inv in H as (Hlev & _ & _ & Ts & HTs & Htab & _).
  rewrite Hlev in Hs, Ht.
  apply lookup_seq in Hs as [-> Hi]. apply lookup_seq in Ht as [-> Hj].
  unfold transfer. rewrite Htab. split.
  - intros [H1 H2]. rewrite table_get_far; [done|lia|lia].
  - intros [-> | ->].
    + destruct (lookup_lt_is_Some_2 Ts i) as [T HT]; [lia|].
      exists (T, restrict). by rewrite (table_get_restrict _ _ _ _ HT).
    + destruct (lookup_lt_is_Some_2 Ts j) as [T HT]; [lia|].
      exists (T, down T). by rewrite (table_get_down _ _ _ _ HT).
Qed.

Lemma C1_transfer_table_witness :
  ∃ s w', step_init (VDict 4) three_level_world = (Ok s, w') ∧
    length (levels s) = 3 ∧
    length (__transfer_dict s) = 2 * (length (levels s) - 1) ∧
    NoDup (__transfer_dict s).*1 ∧
    (∀ src tgt a, ((src, tgt), a) ∈ __transfer_dict s →
       ∃ i, (levels s !! i = Some src ∧ levels s !! S i = Some tgt) ∨
            (levels s !! S i = Some src ∧ levels s !! i = Some tgt)) ∧
    (∀ i fine coarse, levels s !! i = Some fine → levels s !! S i = Some coarse →
       ∃ T, tr_fine T = fine ∧ tr_coarse T = coarse ∧
            table_get (fine, coarse) (__transfer_dict s) = Some (T, restrict) ∧
            table_get (coarse, fine) (__transfer_dict s)
              = Some (T, if finter T then prolong_f else prolong)).
Proof.
  eexists _, _. split; [vm_compute; reflexivity|]. split; [reflexivity|].
  eapply (C1_transfer_table (VDict 4) three_level_world). vm_compute. reflexivity.
Defined.

Lemma C8_tau_by_position_witness :
  ∃ s w', step_init (VDict 4) three_level_world = (Ok s, w') ∧
    length (levels s) = 3 ∧
    ∀ i L, levels s !! i = Some L →
      ∃ lv, lvls w' !! L = Some lv ∧ (tau_allocated lv = true ↔ 0 < i).
Proof.
  eexists _, _. split; [vm_compute; reflexivity|]. split; [reflexivity|].
  eapply (C8_tau_by_position (VDict 4) three_level_world).
  - vm_compute. reflexivity.
  - simpl. lia.
Defined.

(** Levels 0 and 2 of three: no transfer between them. *)
Lemma C6_transfer_adjacent_only_witness :
  ∃ s w', step_init (VDict 4) three_level_world = (Ok s, w') ∧
    levels s !! 0 = Some 0 ∧ levels s !! 2 = Some 2 ∧
    ((2 ≠ 1 ∧ 0 ≠ 3) → transfer s 0 2 w' = (Err KeyError, w')) ∧
    ((2 = 1 ∨ 0 = 3) →
       ∃ a, table_get (0, 2) (__transfer_dict s) = Some a ∧
            transfer s 0 2 w'
              = (Ok tt, mkWorld (dicts w') (lvls w') (calls w' ++ [(a, [])]) (stdout w'))).
Proof.
  eexists _, _. split; [vm_compute; reflexivity|].
  split; [reflexivity|]. split; [reflexivity|].
  eapply (C6_transfer_adjacent_only (VDict 4) three_level_world _ _ 0 2 0 2).
  - vm_compute. reflexivity.
  - reflexivity.
  - reflexivity.
Defined.

(** One level, with a transfer class given all the same: the construction
    prints its warning and leaves the table empty. *)
Example single_level_with_transfer_class :
  ∃ s w',
    step_init (VDict 3)
      (mkWorld [[("nvars", VList [VInt 50])]; [("restol", VInt 1)]; [("num_nodes", VInt 3)];
                [("problem_class", VObj 1); ("problem_params", VDict 0);
                 ("dtype_u", VObj 2); ("dtype_f", VObj 3); ("sweeper_class", VObj 4);
                 ("sweeper_params", VDict 2); ("level_params", VDict 1);
                 ("transfer_class", VObj 5)]] [] [] [])
    = (Ok s, w') ∧
    levels s = [0] ∧ __transfer_dict s = [] ∧
    stdout w' = ["WARNING: you have specified transfer classes, but only a single level..."].
Proof. eexists _, _. split; [vm_compute; reflexivity|]. by split_and!. Qed.

(** Levels 1 and 2 of three: the restriction of their transfer is called. *)
Example transfer_between_neighbours :
  ∃ s w' T, step_init (VDict 4) three_level_world = (Ok s, w') ∧
    (transfer s 1 2 w').1 = Ok tt ∧
    calls (transfer s 1 2 w').2 = [((T, restrict), [])] ∧
    tr_fine T = 1 ∧ tr_coarse T = 2.
Proof.
  eexists _, _, _. split; [vm_compute; reflexivity|].
  split; [reflexivity|]. split; [vm_compute; reflexivity|]. by split.
Qed.

(** * Further properties of the step *)

(** ** More on [__dict_to_list] *)

Lemma scan_max_val_err (its : dict) (m0 : nat) e :
  scan_max_val its m0 = Err e → ∃ m k v, e = SystemExit m k v.
Proof.
  revert m0. induction its as [|[k v] its IH]; intros m0; simpl; [done|].
  destruct v; try apply IH.
  destruct (_ && _); [|apply IH]. intros [= <-]. eauto.
Qed.

Lemma select_err (v : value) (d : nat) e : select v d = Err e → e = IndexError.
Proof.
  unfold select, index. destruct v; try done.
  destruct (length vs =? 1).
  - destruct (vs !! 0); [done|]. by intros [= <-].
  - destruct (vs !! d); [done|]. by intros [= <-].
Qed.

(** The inner loop stops with [IndexError] at the first value it cannot
    select from. *)
Lemma fill_dict_stops (its : dict) (target d : nat) (w : world) k vs :
  is_Some (dicts w !! target) →
  (k, VList vs) ∈ its → select (VList vs) d = Err IndexError →
  ∃ w1, fill_dict target d its w = (Err IndexError, w1) ∧ lvls w1 = lvls w ∧
        length (dicts w1) = length (dicts w).
Proof.
  revert w. induction its as [|[k0 v0] its IH]; intros w Ht Hin Hsel.
  - by apply elem_of_nil in Hin.
  - simpl. destruct (select v0 d) as [x|e] eqn:E.
    + assert ((k, VList vs) ∈ its) as Hin'.
      { apply elem_of_cons in Hin as [[= <- <-]|Hin]; [congruence|done]. }
      rewrite (bind_ok _ _ w x w) by done.
      destruct Ht as [acc Hacc].
      rewrite (bind_ok _ _ w tt
                 (set_dicts w (<[target := dict_set k0 x acc]> (dicts w))))
        by (unfold setitem; by rewrite Hacc).
      destruct (IH (set_dicts w (<[target := dict_set k0 x acc]> (dicts w))))
        as (w1 & -> & Hl & Hlen); [|done|done|].
      * simpl. rewrite list_lookup_insert_eq; [by eexists|]. by eapply lookup_lt_Some.
      * exists w1. split; [done|]. simpl in *. by rewrite length_insert in Hlen.
    + apply select_err in E as E'. subst e. exists w.
      split; [|done]. by apply bind_err.
Qed.

(** With an empty list among the items, filling the first level raises
    [IndexError]. *)
Lemma fill_levels_empty_list (w : world) (l : loc) (its : dict) (k : string) (N : nat) :
  dicts w !! l = Some its →
  (k, VList []) ∈ its →
  ∃ w2, fill_levels (VDict l) (seq (length (dicts w)) (S N)) (seq 0 (S N))
          (set_dicts w (dicts w ++ replicate (S N) [])) = (Err IndexError, w2).
Proof.
  intros Hl Hin.
  change (seq 0 (S N)) with (0 :: seq 1 N).
  set (w1 := set_dicts w (dicts w ++ replicate (S N) [])).
  assert (l < length (dicts w)) as Hlt by (by eapply lookup_lt_Some).
  destruct (fill_dict_stops its (length (dicts w)) 0 w1 k []) as (w2 & Hrun & _);
    [|done|done|].
  { unfold w1. simpl. rewrite lookup_app_r by done.
    rewrite Nat.sub_diag. simpl. by eexists. }
  exists w2. simpl. rewrite (bind_ok _ _ w1 its w1).
  2:{ unfold items, w1. simpl. by rewrite lookup_app_l, Hl. }
  rewrite (bind_ok _ _ w1 (length (dicts w)) w1) by done.
  by rewrite (bind_err _ _ _ _ _ Hrun).
Qed.

(** X1: a dict that holds an empty list is never expanded: either the scan
    of the lengths leaves through [sys.exit] on some other list, or filling
    the first level raises [IndexError]; no level dict is returned. *)
Theorem X1_empty_list_not_expanded (w : world) (l : loc) (its : dict) (k : string) :
  dicts w !! l = Some its →
  (k, VList []) ∈ its →
  ∃ e, (dict_to_list (VDict l) w).1 = Err e ∧
       (e = IndexError ∨ ∃ m k' v, e = SystemExit m k' v).
Proof.
  intros Hl Hin. unfold dict_to_list.
  rewrite (bind_ok _ _ w its w) by (unfold items; by rewrite Hl).
  destruct (scan_max_val its 1) as [N|e] eqn:Hscan.
  2:{ exists e. split; [|right; by eapply scan_max_val_err].
      by rewrite (bind_err _ _ w e w). }
  rewrite (bind_ok _ _ w N w) by done.
  rewrite (bind_ok _ _ _ _ _ (new_dicts_run N w)).
  apply scan_max_val_Ok in Hscan as [HN _].
  destruct N as [|N]; [lia|]. rewrite length_seq.
  destruct (fill_levels_empty_list w l its k N Hl Hin) as [w2 Hfill].
  exists IndexError. split; [|by left].
  by rewrite (bind_err _ _ _ _ _ Hfill).
Qed.

Lemma X1_empty_list_not_expanded_witness :
  ∃ e, (dict_to_list (VDict 0)
          (mkWorld [[("nvars", VList [VInt 50; VInt 25]); ("cadv", VList [])]] [] [] [])).1
       = Err e ∧
       (e = IndexError ∨ ∃ m k' v, e = SystemExit m k' v).
Proof.
  apply (X1_empty_list_not_expanded
           (mkWorld [[("nvars", VList [VInt 50; VInt 25]); ("cadv", VList [])]] [] [] [])
           0 [("nvars", VList [VInt 50; VInt 25]); ("cadv", VList [])] "cadv").
  - reflexivity.
  - apply elem_of_cons. right. apply elem_of_cons. by left.
Defined.

(** *** What an accepted dict looks like *)

Lemma scan_max_val_fixed (its : dict) (m0 m : nat) :
  1 < m0 → scan_max_val its m0 = Ok m →
  m = m0 ∧ ∀ k vs, (k, VList vs) ∈ its → length vs ≤ 1 ∨ length vs = m0.
Proof.
  intros Hm0. induction its as [|[k v] its IH]; simpl.
  - intros [= ->]. split; [done|]. by intros k vs ?%elem_of_nil.
  - assert (∀ k' vs, (∀ vs', v ≠ VList vs') → (k', VList vs) ∈ (k, v) :: its →
                     (k', VList vs) ∈ its) as Hskip.
    { intros k' vs Hv Hin. apply elem_of_cons in Hin as [[= <- <-]|Hin]; [|done].
      by destruct (Hv vs). }
    destruct v;
      try (intros H; destruct (IH H) as [-> Hall]; split; [done|];
           intros k' vs' Hin; apply (Hall k'), (Hskip k' vs'); [done|done]).
    destruct (_ && _) eqn:E; [discriminate|].
    assert (length vs ≤ 1 ∨ length vs = m0) as Hhead.
    { apply andb_false_iff in E as [E|E].
      - apply Nat.ltb_ge in E. by left.
      - apply andb_false_iff in E as [E|E].
        + apply Nat.ltb_ge in E. lia.
        + apply negb_false_iff, int_is_eq in E. by right. }
    replace (m0 `max` length vs) with m0 by lia.
    intros H. destruct (IH H) as [-> Hall]. split; [done|].
    intros k' vs' Hin. apply elem_of_cons in Hin as [[= <- <-]|Hin]; [done|].
    by apply (Hall k').
Qed.

(** The scan lets a dict through only if its lists of more than one entry
    all have the length it returns. *)
Lemma scan_max_val_accepts (its : dict) (m0 m : nat) :
  m0 ≤ 1 → scan_max_val its m0 = Ok m →
  ∀ k vs, (k, VList vs) ∈ its → length vs ≤ 1 ∨ length vs = m.
Proof.
  revert m0. induction its as [|[k v] its IH]; intros m0 Hm0; simpl.
  - intros _ k vs Hin. by apply elem_of_nil in Hin.
  - assert (∀ k' vs, (∀ vs', v ≠ VList vs') → (k', VList vs) ∈ (k, v) :: its →
                     (k', VList vs) ∈ its) as Hskip.
    { intros k' vs Hv Hin. apply elem_of_cons in Hin as [[= <- <-]|Hin]; [|done].
      by destruct (Hv vs). }
    destruct v;
      try (intros H k' vs' Hin; apply (IH m0 Hm0 H k'), (Hskip k' vs'); [done|done]).
    assert ((1 <? m0) = false) as -> by (apply Nat.ltb_ge; lia).
    rewrite andb_false_r. intros H k' vs' Hin.
    destruct (decide (length vs ≤ 1)) as [Hs|Hs].
    + apply elem_of_cons in Hin as [[= <- <-]|Hin]; [by left|].
      apply (IH (m0 `max` length vs)) with (k := k'); [lia|done|done].
    + destruct (scan_max_val_fixed its (m0 `max` length vs) m) as [-> Hall]; [lia|done|].
      apply elem_of_cons in Hin as [[= <- <-]|Hin]; [right; lia|].
      destruct (Hall k' vs' Hin) as [?| ->]; [by left|right; lia].
Qed.

Lemma len_free_fill_dict target d its : len_free (fill_dict target d its).
Proof.
  induction its as [|[k v] its IH]; intros w; simpl; [done|].
  unfold bind, lift. destruct (select v d); simpl; [|done].
  unfold setitem. destruct (dicts w !! target); simpl; [|done].
  rewrite IH. simpl. by rewrite length_insert.
Qed.

Lemma len_free_fill_levels dv ld ds : len_free (fill_levels dv ld ds).
Proof.
  induction ds as [|d ds IH]; intros w; simpl; [done|].
  unfold bind at 1. pose proof (reads_items dv w) as Hr.
  destruct (items dv w) as [[its|e] w1]; simpl in Hr; subst w1; simpl; [|done].
  unfold bind at 1, lift. destruct (index ld d); simpl; [|done].
  unfold bind at 1. pose proof (len_free_fill_dict a d its w) as Hf.
  destruct (fill_dict a d its w) as [[[]|e] w1]; simpl in *; [|done].
  by rewrite IH.
Qed.

(** A successful run of [__dict_to_list], taken apart. *)
Lemma dict_to_list_ok_shape (dv : value) (w w' : world) (ld : list loc) :
  dict_to_list dv w = (Ok ld, w') →
  ∃ l its, dv = VDict l ∧ dicts w !! l = Some its ∧
    scan_max_val its 1 = Ok (length ld) ∧
    ld = seq (length (dicts w)) (length ld) ∧
    length (dicts w') = length (dicts w) + length ld ∧
    fill_levels dv ld (seq 0 (length ld))
      (set_dicts w (dicts w ++ replicate (length ld) [])) = (Ok tt, w').
Proof.
  unfold dict_to_list. intros H.
  apply bind_ok_inv in H as (its & w1 & Hits & H).
  unfold items in Hits. destruct dv; try discriminate.
  destruct (dicts w !! l) as [its'|] eqn:Hl; [|discriminate].
  injection Hits as -> <-.
  apply bind_ok_inv in H as (mv & w1 & Hscan & H). injection Hscan as Hscan <-.
  rewrite (bind_ok _ _ _ _ _ (new_dicts_run mv w)) in H.
  apply bind_ok_inv in H as ([] & w2 & Hfill & H). injection H as <- <-.
  exists l, its. rewrite !length_seq. split_and!; try done.
  pose proof (len_free_fill_levels (VDict l) (seq (length (dicts w)) mv)
                (seq 0 (length (seq (length (dicts w)) mv)))
                (set_dicts w (dicts w ++ replicate mv []))) as Hlen.
  rewrite Hfill in Hlen. simpl in Hlen.
  by rewrite Hlen, length_app, length_replicate.
  by rewrite length_seq in Hfill.
Qed.

Lemma dict_to_list_ok_nonempty (dv : value) (w w' : world) (ld : list loc) :
  dict_to_list dv w = (Ok ld, w') → 1 ≤ length ld.
Proof.
  intros H. apply dict_to_list_ok_shape in H as (l & its & _ & _ & Hscan & _).
  apply scan_max_val_Ok in Hscan. lia.
Qed.

(** X2: when [__dict_to_list] returns, it returns as many dicts as the
    longest list of its argument is long, and at least one; they are new
    objects, placed one after the other behind the dicts that existed, which
    are all left as they were; nothing else is made. *)
Theorem X2_dict_to_list_returns_new_dicts (dv : value) (w w' : world) (ld : list loc) :
  dict_to_list dv w = (Ok ld, w') →
  ∃ l its new,
    dv = VDict l ∧ dicts w !! l = Some its ∧
    length ld = max_list_len its ∧ 1 ≤ length ld ∧
    ld = seq (length (dicts w)) (length ld) ∧
    dicts w' = dicts w ++ new ∧ length new = length ld ∧
    lvls w' = lvls w.
Proof.
  intros H. destruct (dict_to_list_ok_shape dv w w' ld H)
    as (l & its & -> & Hl & Hscan & Hseq & Hlen & _).
  destruct (frame_prefix w w') as [new Hnew].
  { pose proof (keeps_dict_to_list (length (dicts w)) (VDict l) w (Nat.le_refl _)) as [Hf _].
    by rewrite H in Hf. }
  exists l, its, new. split_and!; try done.
  - by eapply dict_to_list_ok_length.
  - apply scan_max_val_Ok in Hscan. lia.
  - rewrite Hnew, length_app in Hlen. lia.
  - pose proof (level_free_dict_to_list (VDict l) w) as E. by rewrite H in E.
Qed.

Lemma X2_dict_to_list_returns_new_dicts_witness :
  ∃ l its new,
    VDict 0 = VDict l ∧ dicts (mkWorld [two_level_params] [] [] []) !! l = Some its ∧
    length [1; 2] = max_list_len its ∧ 1 ≤ length [1; 2] ∧
    [1; 2] = seq (length (dicts (mkWorld [two_level_params] [] [] []))) (length [1; 2]) ∧
    [two_level_params;
     [("nvars", VInt 50); ("cadv", VInt 1); ("cs", VInt 5)];
     [("nvars", VInt 25); ("cadv", VInt 1); ("cs", VInt 5)]]
    = dicts (mkWorld [two_level_params] [] [] []) ++ new ∧
    length new = length [1; 2] ∧
    @nil level = lvls (mkWorld [two_level_params] [] [] []).
Proof.
  apply (X2_dict_to_list_returns_new_dicts (VDict 0)
           (mkWorld [two_level_params] [] [] [])
           (mkWorld [two_level_params;
                     [("nvars", VInt 50); ("cadv", VInt 1); ("cs", VInt 5)];
                     [("nvars", VInt 25); ("cadv", VInt 1); ("cs", VInt 5)]] [] [] [])
           [1; 2]).
  reflexivity.
Defined.

(** An accepted dict has lists of length 1 or of the returned width only. *)
Lemma dict_to_list_accepts (l : loc) (its : dict) (w w' : world) (ld : list loc) :
  dicts w !! l = Some its →
  dict_to_list (VDict l) w = (Ok ld, w') →
  lengths_1_or (length ld) its.
Proof.
  intros Hl H k vs Hin.
  destruct (dict_to_list_ok_shape _ _ _ _ H)
    as (l' & its' & [= <-] & Hl' & Hscan & Hseq & _ & Hfill).
  rewrite Hl in Hl'. injection Hl' as <-.
  destruct (scan_max_val_accepts its 1 (length ld) (Nat.le_refl _) Hscan k vs Hin)
    as [Hle|Hn]; [|by right].
  destruct vs as [|x vs]; [|simpl in *; left; lia].
  pose proof (dict_to_list_ok_nonempty _ _ _ _ H) as Hge.
  destruct (length ld) as [|n] eqn:En; [lia|].
  rewrite Hseq in Hfill.
  destruct (fill_levels_empty_list w l its k n Hl Hin) as [w2 Hstop].
  rewrite Hstop in Hfill. discriminate.
Qed.

(** X3: [__dict_to_list] returns only for a dict whose lists all have
    length 1 or the number [N] of dicts returned, none being empty; and
    then, the keys being distinct, the new dicts are exactly the [N] level
    dicts, in order. *)
Theorem X3_dict_to_list_accepts_only_uniform (l : loc) (its : dict) (w w' : world)
    (ld : list loc) :
  dicts w !! l = Some its →
  dict_to_list (VDict l) w = (Ok ld, w') →
  lengths_1_or (length ld) its ∧
  (NoDup its.*1 →
   w' = set_dicts w (dicts w ++ (level_dict its <$> seq 0 (length ld)))).
Proof.
  intros Hl H. pose proof (dict_to_list_accepts l its w w' ld Hl H) as Hacc.
  split; [done|]. intros Hnd.
  destruct (dict_to_list_ok_shape _ _ _ _ H) as (l' & its' & [= <-] & Hl' & Hscan & _).
  rewrite Hl in Hl'. injection Hl' as <-.
  rewrite (dict_to_list_run w l its (length ld)) in H; [by injection H as _ <-|done..|].
  intros d k v Hd Hin. apply (select_defined (length ld)); [|done].
  intros vs ->. by apply (Hacc k).
Qed.

Lemma X3_dict_to_list_accepts_only_uniform_witness :
  lengths_1_or (length [1; 2]) two_level_params ∧
  (NoDup two_level_params.*1 →
   mkWorld [two_level_params;
            [("nvars", VInt 50); ("cadv", VInt 1); ("cs", VInt 5)];
            [("nvars", VInt 25); ("cadv", VInt 1); ("cs", VInt 5)]] [] [] []
   = set_dicts (mkWorld [two_level_params] [] [] [])
       (dicts (mkWorld [two_level_params] [] [] [])
        ++ (level_dict two_level_params <$> seq 0 (length [1; 2])))).
Proof.
  apply (X3_dict_to_list_accepts_only_uniform 0 two_level_params
           (mkWorld [two_level_params] [] [] [])).
  - reflexivity.
  - reflexivity.
Defined.

(** *** Lengths above the small ints *)

Lemma int_is_large a b : 256 < a → int_is a b = false.
Proof.
  intros Ha. unfold int_is. apply andb_false_iff. right. apply Nat.leb_gt. lia.
Qed.

Lemma scan_max_val_large (its : dict) (m0 : nat) k vs :
  1 < m0 → (k, VList vs) ∈ its → 256 < length vs →
  ∃ m k' v, scan_max_val its m0 = Err (SystemExit m k' v).
Proof.
  revert m0. induction its as [|[k0 v0] its IH]; intros m0 Hm Hin Hlen.
  - by apply elem_of_nil in Hin.
  - simpl. apply elem_of_cons in Hin as [[= <- <-]|Hin].
    + rewrite int_is_large by done. simpl.
      assert ((1 <? length vs) = true) as -> by (apply Nat.ltb_lt; lia).
      assert ((1 <? m0) = true) as -> by (by apply Nat.ltb_lt).
      simpl. eauto.
    + destruct v0; try by apply IH.
      destruct (_ && _); [eauto|]. apply IH; [lia|done|done].
Qed.

Lemma scan_max_val_after (its : dict) (m0 i j : nat) k1 vs1 k2 vs2 :
  its !! i = Some (k1, VList vs1) → its !! j = Some (k2, VList vs2) → i < j →
  1 < length vs1 → 256 < length vs2 →
  ∃ m k v, scan_max_val its m0 = Err (SystemExit m k v).
Proof.
  revert m0 i j. induction its as [|[k0 v0] its IH]; intros m0 i j Hi Hj Hij L1 L2.
  - done.
  - destruct j as [|j]; [lia|]. simpl in Hj. destruct i as [|i]; simpl in Hi.
    + injection Hi as -> ->. simpl. destruct (_ && _); [eauto|].
      apply (scan_max_val_large its _ k2 vs2); [lia| |done].
      by eapply list_elem_of_lookup_2.
    + simpl. destruct v0; try (apply (IH m0 i j); by (done || lia)).
      destruct (_ && _); [eauto|]. apply (IH _ i j); by (done || lia).
Qed.

(** X4: the length test is an identity test on ints, and a length above
    256 is a new int object every time: a list of more than 256 entries that
    comes after another list of more than one entry is turned down through
    [sys.exit], also when the two are equally long; nothing has been made by
    then. *)
Theorem X4_long_lists_rejected (w : world) (l : loc) (its : dict) (i j : nat)
    (k1 k2 : string) (vs1 vs2 : list value) :
  dicts w !! l = Some its →
  its !! i = Some (k1, VList vs1) → its !! j = Some (k2, VList vs2) → i < j →
  1 < length vs1 → 256 < length vs2 →
  ∃ m k v, dict_to_list (VDict l) w = (Err (SystemExit m k v), w).
Proof.
  intros Hl Hi Hj Hij L1 L2.
  destruct (scan_max_val_after its 1 i j k1 vs1 k2 vs2) as (m & k & v & Hscan); [done..|].
  exists m, k, v. unfold dict_to_list.
  rewrite (bind_ok _ _ w its w) by (unfold items; by rewrite Hl).
  apply bind_err. unfold lift. by rewrite Hscan.
Qed.

Lemma X4_long_lists_rejected_witness :
  ∃ m k v,
    dict_to_list (VDict 0)
      (mkWorld [[("nvars", VList (replicate 300 (VInt 8)));
                 ("cadv", VList (replicate 300 (VInt 1)))]] [] [] [])
    = (Err (SystemExit m k v),
       mkWorld [[("nvars", VList (replicate 300 (VInt 8)));
                 ("cadv", VList (replicate 300 (VInt 1)))]] [] [] []).
Proof.
  apply (X4_long_lists_rejected
           (mkWorld [[("nvars", VList (replicate 300 (VInt 8)));
                      ("cadv", VList (replicate 300 (VInt 1)))]] [] [] [])
           0 [("nvars", VList (replicate 300 (VInt 8)));
              ("cadv", VList (replicate 300 (VInt 1)))]
           0 1 "nvars" "cadv" (replicate 300 (VInt 8)) (replicate 300 (VInt 1))).
  - reflexivity.
  - reflexivity.
  - reflexivity.
  - lia.
  - rewrite length_replicate. lia.
  - rewrite length_replicate. lia.
Defined.

(** ** What the construction prints and calls *)

Lemma quiet_ret {A} (a : A) : quiet (ret a).
Proof. done. Qed.

Lemma quiet_bind {A B} (m : M A) (f : A → M B) :
  quiet m → (∀ a, quiet (f a)) → quiet (bind m f).
Proof.
  intros Hm Hf w. unfold bind. specialize (Hm w).
  destruct (m w) as [[a|e] w1]; simpl in *; [|done].
  by destruct (Hf a w1) as [-> ->].
Qed.

Lemma quiet_if {A} (c : bool) (m1 m2 : M A) :
  quiet m1 → quiet m2 → quiet (if c then m1 else m2).
Proof. by destruct c. Qed.

Lemma reads_quiet {A} (m : M A) : reads m → quiet m.
Proof. intros Hr w. by rewrite Hr. Qed.

Lemma quiet_new_dict d : quiet (new_dict d).
Proof. done. Qed.
Lemma quiet_setitem l k v : quiet (setitem l k v).
Proof. intros w. unfold setitem. by destruct (dicts w !! l). Qed.
Lemma quiet_new_level L : quiet (new_level L).
Proof. done. Qed.
Lemma quiet_level_add_tau L : quiet (level_add_tau L).
Proof. intros w. unfold level_add_tau. by destruct (lvls w !! L). Qed.

Create HintDb quiet.
#[local] Hint Resolve quiet_ret quiet_new_dict quiet_setitem quiet_new_level
  quiet_level_add_tau : quiet.
#[local] Hint Resolve reads_raise reads_lift reads_assert reads_items reads_contains
  reads_getitem reads_truthy reads_is_level : quiet.

Ltac quiet_step :=
  lazymatch goal with
  | |- quiet (bind _ _) => apply quiet_bind; [|intros ?]
  | |- quiet (if _ then _ else _) => apply quiet_if
  | |- quiet (match ?x with _ => _ end) => destruct x
  | |- quiet _ => first [ by eauto with quiet
                        | apply reads_quiet; by eauto with quiet ]
  end.

Lemma quiet_fill_dict target d its : quiet (fill_dict target d its).
Proof. induction its as [|[k v] its IH]; simpl; repeat quiet_step. Qed.

#[local] Hint Resolve quiet_fill_dict : quiet.

Lemma quiet_fill_levels dv ld ds : quiet (fill_levels dv ld ds).
Proof. induction ds as [|d ds IH]; simpl; repeat quiet_step. Qed.

Lemma quiet_new_dicts n : quiet (new_dicts n).
Proof. induction n as [|n IH]; simpl; repeat quiet_step. Qed.

#[local] Hint Resolve quiet_fill_levels quiet_new_dicts : quiet.

Lemma quiet_dict_to_list dv : quiet (dict_to_list dv).
Proof. unfold dict_to_list. repeat quiet_step. Qed.

Lemma quiet_dict_copy dv : quiet (dict_copy dv).
Proof. unfold dict_copy. repeat quiet_step. Qed.

Lemma quiet_get_or dv k default : quiet default → quiet (get_or dv k default).
Proof. intros Hd. unfold get_or. repeat quiet_step. Qed.

Lemma quiet_empty_dict : quiet empty_dict.
Proof. unfold empty_dict. repeat quiet_step. Qed.

Lemma quiet_assert_in k dv : quiet (assert_in k dv).
Proof. unfold assert_in. repeat quiet_step. Qed.

Lemma quiet_new_transfer tc fl cl tp : quiet (new_transfer tc fl cl tp).
Proof. unfold new_transfer. repeat quiet_step. Qed.

Lemma quiet_register_level self L : quiet (register_level self L).
Proof. unfold register_level. repeat quiet_step. Qed.

#[local] Hint Resolve quiet_dict_to_list quiet_dict_copy quiet_get_or
  quiet_empty_dict quiet_assert_in quiet_new_transfer quiet_register_level : quiet.

Lemma quiet_connect_levels self tc tp fl cl : quiet (connect_levels self tc tp fl cl).
Proof. unfold connect_levels. repeat quiet_step. Qed.

#[local] Hint Resolve quiet_connect_levels : quiet.

Lemma quiet_hierarchy_round descr_list self l : quiet (hierarchy_round descr_list self l).
Proof. unfold hierarchy_round. repeat quiet_step. Qed.

Lemma quiet_hierarchy_loop descr_list self ls : quiet (hierarchy_loop descr_list self ls).
Proof.
  revert self. induction ls as [|l ls IH]; intros self; simpl.
  - apply quiet_ret.
  - apply quiet_bind; [apply quiet_hierarchy_round|intros self'; apply IH].
Qed.

(** ** A successful construction, taken apart *)

Lemma apart_refl w : apart (length (dicts w)) w w.
Proof. split; [by apply frame_refl|done]. Qed.

Lemma apart_step {A} b (m : M A) (φ : A → Prop) w u :
  keeps b m φ → level_free m → quiet m →
  apart b w u → apart b w (m u).2.
Proof.
  intros Hk Hl Hq (Hf & E1 & E2 & E3).
  destruct (Hk u) as [Hf' _]; [apply Hf|].
  destruct (Hq u) as [Q1 Q2].
  split; [by eapply frame_trans|]. rewrite Hl, Q1, Q2. done.
Qed.

Lemma assert_in_ok k dv w u :
  assert_in k dv w = (Ok tt, u) → u = w ∧ contains k dv w = (Ok true, w).
Proof.
  unfold assert_in. intros H. apply bind_ok_inv in H as (b & w1 & Hc & H).
  pose proof (reads_contains k dv w) as Hr. rewrite Hc in Hr. simpl in Hr. subst w1.
  destruct b; [|discriminate]. by injection H as <-.
Qed.

Lemma getitem_ok dv k w v u :
  getitem dv k w = (Ok v, u) →
  u = w ∧ ∃ l d, dv = VDict l ∧ dicts w !! l = Some d ∧ dict_get k d = Some v.
Proof.
  unfold getitem. destruct dv; try discriminate.
  destruct (dicts w !! l) as [d|] eqn:Hl; [|discriminate].
  destruct (dict_get k d) as [x|] eqn:Hk; [|discriminate].
  intros [= <- <-]. split; [done|]. by exists l, d.
Qed.

Lemma contains_dict k l d w :
  dicts w !! l = Some d → contains k (VDict l) w = (Ok (dict_has k d), w).
Proof. intros Hl. unfold contains. by rewrite Hl. Qed.

Lemma dict_get_set_ne k k' v (d : dict) :
  k ≠ k' → dict_get k (dict_set k' v d) = dict_get k d.
Proof.
  intros Hne. apply String.eqb_neq in Hne.
  induction d as [|[k0 v0] d IH]; simpl.
  - by rewrite Hne.
  - destruct (String.eqb k' k0) eqn:E; simpl.
    + apply String.eqb_eq in E as ->. by rewrite Hne.
    + destruct (String.eqb k k0); [done|apply IH].
Qed.

Lemma dict_get_set k v (d : dict) : dict_get k (dict_set k v d) = Some v.
Proof.
  induction d as [|[k0 v0] d IH]; simpl.
  - by rewrite String.eqb_refl.
  - destruct (String.eqb k k0) eqn:E; simpl; rewrite E; [done|apply IH].
Qed.

Lemma dict_has_with_expanded k descr pl ll sl :
  k ∉ param_keys →
  dict_has k (with_expanded descr pl ll sl) = dict_has k descr.
Proof.
  intros Hk. unfold dict_has, with_expanded.
  rewrite !dict_get_set_ne; [done|..];
    intros ->; apply Hk; apply list_elem_of_In; simpl; tauto.
Qed.

(** The copy of the description and the three assignments to it. *)
Lemma copy_and_set {B} (ld : loc) (descr : dict) (pl ll sl : list loc)
    (f : loc → M B) (w : world) :
  dicts w !! ld = Some descr →
  (descr_new <- dict_copy (VDict ld) ;;
   setitem descr_new "problem_params" (dict_list pl) ;;;
   setitem descr_new "level_params" (dict_list ll) ;;;
   setitem descr_new "sweeper_params" (dict_list sl) ;;;
   f descr_new) w
  = f (length (dicts w)) (set_dicts w (dicts w ++ [with_expanded descr pl ll sl])).
Proof.
  intros Hld. set (n := length (dicts w)).
  rewrite (bind_ok _ _ w n (set_dicts w (dicts w ++ [descr]))).
  2:{ unfold dict_copy. rewrite (bind_ok _ _ w descr w); [done|].
      unfold items. by rewrite Hld. }
  rewrite (bind_ok _ _ _ tt
             (set_dicts w (dicts w ++ [dict_set "problem_params" (dict_list pl) descr]))).
  2:{ unfold setitem. simpl. rewrite lookup_app_r by done.
      replace (n - length (dicts w)) with 0 by (unfold n; lia). simpl.
      rewrite insert_app_r_alt by done.
      replace (n - length (dicts w)) with 0 by (unfold n; lia). done. }
  rewrite (bind_ok _ _ _ tt
             (set_dicts w (dicts w ++ [dict_set "level_params" (dict_list ll)
                                         (dict_set "problem_params" (dict_list pl) descr)]))).
  2:{ unfold setitem. simpl. rewrite lookup_app_r by done.
      replace (n - length (dicts w)) with 0 by (unfold n; lia). simpl.
      rewrite insert_app_r_alt by done.
      replace (n - length (dicts w)) with 0 by (unfold n; lia). done. }
  rewrite (bind_ok _ _ _ tt (set_dicts w (dicts w ++ [with_expanded descr pl ll sl]))).
  2:{ unfold setitem. simpl. rewrite lookup_app_r by done.
      replace (n - length (dicts w)) with 0 by (unfold n; lia). simpl.
      rewrite insert_app_r_alt by done.
      replace (n - length (dicts w)) with 0 by (unfold n; lia). done. }
  done.
Qed.

Lemma dict_to_list_expanded (w0 u u' : world) (descr : dict) key pp pl :
  frame (length (dicts w0)) w0 u →
  dict_get key descr = Some pp →
  dict_to_list pp u = (Ok pl, u') →
  expanded w0 descr key pl.
Proof.
  intros [_ Hsame] Hget Hrun l its Hget' Hl. rewrite Hget in Hget'. injection Hget' as ->.
  apply (dict_to_list_ok_length l its u u'); [|done].
  rewrite Hsame; [done|]. by eapply lookup_lt_Some.
Qed.

Lemma dict_to_list_step (w0 u u' : world) (ld : loc) (descr : dict) pp pl :
  apart (length (dicts w0)) w0 u → dicts u !! ld = Some descr →
  dict_to_list pp u = (Ok pl, u') →
  apart (length (dicts w0)) w0 u' ∧ dicts u' !! ld = Some descr.
Proof.
  intros Hap Hld Hrun. split.
  - pose proof (apart_step _ (dict_to_list pp) _ w0 u
                  (keeps_dict_to_list _ pp) (level_free_dict_to_list pp)
                  (quiet_dict_to_list pp) Hap) as Hap'.
    by rewrite Hrun in Hap'.
  - destruct (keeps_dict_to_list (length (dicts u)) pp u (Nat.le_refl _)) as [[_ Hsame] _].
    rewrite Hrun in Hsame. simpl in Hsame. rewrite Hsame; [done|].
    by eapply lookup_lt_Some.
Qed.

(** What a successful run of [__generate_hierarchy] went through: the
    seven keys were there, the three parameter dicts were expanded, the copy
    with the expanded lists was expanded in turn, the transfer keys were
    there if that gave more than one level, the warning was printed if it
    gave one level and a transfer class was there, and the loop ran. *)
Lemma generate_hierarchy_runs (self : step) (dv : value) (w : world) (s : step)
    (w' : world) :
  generate_hierarchy self dv w = (Ok s, w') →
  ∃ ld descr l1 l2 l3 pl ll sl u1 u2 u3 dl w2,
    dv = VDict ld ∧ dicts w !! ld = Some descr ∧
    Forall (λ k, dict_has k descr = true) required_keys ∧
    dict_get "problem_params" descr = Some (VDict l1) ∧
    dict_get "level_params" descr = Some (VDict l2) ∧
    dict_get "sweeper_params" descr = Some (VDict l3) ∧
    dict_to_list (VDict l1) w = (Ok pl, u1) ∧
    dict_to_list (VDict l2) u1 = (Ok ll, u2) ∧
    dict_to_list (VDict l3) u2 = (Ok sl, u3) ∧
    dict_to_list (VDict (length (dicts u3)))
      (set_dicts u3 (dicts u3 ++ [with_expanded descr pl ll sl])) = (Ok dl, w2) ∧
    (1 < length dl →
       dict_has "transfer_class" descr = true ∧ dict_has "transfer_params" descr = true) ∧
    hierarchy_loop dl self (seq 0 (length dl))
      (if (length dl <=? 1) && dict_has "transfer_class" descr
       then (print single_level_warning w2).2 else w2) = (Ok s, w').
Proof.
  intros H. unfold generate_hierarchy in H.
  apply bind_ok_inv in H as ([] & u & H1 & H). apply assert_in_ok in H1 as [-> C1].
  apply bind_ok_inv in H as ([] & u & H1 & H). apply assert_in_ok in H1 as [-> C2].
  apply bind_ok_inv in H as ([] & u & H1 & H). apply assert_in_ok in H1 as [-> C3].
  apply bind_ok_inv in H as ([] & u & H1 & H). apply assert_in_ok in H1 as [-> C4].
  apply bind_ok_inv in H as ([] & u & H1 & H). apply assert_in_ok in H1 as [-> C5].
  apply bind_ok_inv in H as ([] & u & H1 & H). apply assert_in_ok in H1 as [-> C6].
  apply bind_ok_inv in H as ([] & u & H1 & H). apply assert_in_ok in H1 as [-> C7].
  apply bind_ok_inv in H as (pp & u & Hpp & H).
  apply getitem_ok in Hpp as (-> & ld & descr & -> & Hld & Gpp).
  rewrite (contains_dict _ _ _ _ Hld) in C1. rewrite (contains_dict _ _ _ _ Hld) in C2.
  rewrite (contains_dict _ _ _ _ Hld) in C3. rewrite (contains_dict _ _ _ _ Hld) in C4.
  rewrite (contains_dict _ _ _ _ Hld) in C5. rewrite (contains_dict _ _ _ _ Hld) in C6.
  rewrite (contains_dict _ _ _ _ Hld) in C7.
  injection C1 as C1. injection C2 as C2. injection C3 as C3. injection C4 as C4.
  injection C5 as C5. injection C6 as C6. injection C7 as C7.
  apply bind_ok_inv in H as (pl & u1 & Hpl & H).
  destruct (dict_to_list_step w w u1 ld descr pp pl (apart_refl w) Hld Hpl) as [_ Hld1].
  apply bind_ok_inv in H as (lp & u & Hlp & H).
  apply getitem_ok in Hlp as (-> & ld' & descr' & [= <-] & Hld' & Glp).
  rewrite Hld1 in Hld'. injection Hld' as <-.
  apply bind_ok_inv in H as (ll & u2 & Hll & H).
  destruct (dict_to_list_step u1 u1 u2 ld descr lp ll (apart_refl u1) Hld1 Hll) as [_ Hld2].
  apply bind_ok_inv in H as (sp & u & Hsp & H).
  apply getitem_ok in Hsp as (-> & ld' & descr' & [= <-] & Hld' & Gsp).
  rewrite Hld2 in Hld'. injection Hld' as <-.
  apply bind_ok_inv in H as (sl & u3 & Hsl & H).
  destruct (dict_to_list_step u2 u2 u3 ld descr sp sl (apart_refl u2) Hld2 Hsl) as [_ Hld3].
  rewrite (copy_and_set ld descr pl ll sl _ u3 Hld3) in H.
  apply bind_ok_inv in H as (dl & w2 & Hdl & H).
  set (D := with_expanded descr pl ll sl) in *.
  assert (dicts w2 !! length (dicts u3) = Some D) as HD.
  { destruct (keeps_dict_to_list (S (length (dicts u3))) (VDict (length (dicts u3)))
                (set_dicts u3 (dicts u3 ++ [D]))) as [[_ Hsame] _].
    { simpl. rewrite length_app. simpl. lia. }
    rewrite Hdl in Hsame. simpl in Hsame. rewrite Hsame by lia.
    by rewrite lookup_app_r, Nat.sub_diag by done. }
  assert (dict_has "transfer_class" D = dict_has "transfer_class" descr) as Etc.
  { apply dict_has_with_expanded. intros Hin. apply list_elem_of_In in Hin.
    simpl in Hin. intuition discriminate. }
  assert (dict_has "transfer_params" D = dict_has "transfer_params" descr) as Etp.
  { apply dict_has_with_expanded. intros Hin. apply list_elem_of_In in Hin.
    simpl in Hin. intuition discriminate. }
  pose proof (dict_to_list_ok_shape _ _ _ _ Hpl) as (l1 & ? & -> & _).
  pose proof (dict_to_list_ok_shape _ _ _ _ Hll) as (l2 & ? & -> & _).
  pose proof (dict_to_list_ok_shape _ _ _ _ Hsl) as (l3 & ? & -> & _).
  exists ld, descr, l1, l2, l3, pl, ll, sl, u1, u2, u3, dl, w2.
  split_and!; try done.
  - unfold required_keys. by repeat constructor.
  - intros HN. apply Nat.ltb_lt in HN. rewrite HN in H.
    apply bind_ok_inv in H as ([] & u & Hchk & _).
    apply bind_ok_inv in Hchk as ([] & u' & H1 & H2).
    apply assert_in_ok in H1 as [-> T1]. apply assert_in_ok in H2 as [-> T2].
    rewrite (contains_dict _ _ _ _ HD) in T1. rewrite (contains_dict _ _ _ _ HD) in T2.
    injection T1 as T1. injection T2 as T2. by rewrite <- Etc, <- Etp.
  - destruct (1 <? length dl) eqn:EN.
    + apply Nat.ltb_lt in EN.
      assert ((length dl <=? 1) = false) as -> by (apply Nat.leb_gt; lia). simpl.
      apply bind_ok_inv in H as ([] & u & Hchk & H).
      apply bind_ok_inv in Hchk as ([] & u' & H1 & H2).
      apply assert_in_ok in H1 as [-> _]. apply assert_in_ok in H2 as [-> _]. done.
    + apply Nat.ltb_ge in EN.
      assert ((length dl <=? 1) = true) as -> by (by apply Nat.leb_le). simpl.
      apply bind_ok_inv in H as ([] & u & Hchk & H).
      rewrite (bind_ok _ _ w2 _ w2 (contains_dict _ _ _ _ HD)) in Hchk.
      rewrite Etc in Hchk.
      destruct (dict_has "transfer_class" descr); by injection Hchk as <-.
Qed.

(** The same, seen from a store [w0] the construction started in. *)
Lemma generate_hierarchy_ok (self : step) (dv : value) (w0 w : world) (s : step)
    (w' : world) :
  apart (length (dicts w0)) w0 w →
  generate_hierarchy self dv w = (Ok s, w') →
  ∃ ld descr pl ll sl u dl w2,
    dv = VDict ld ∧ dicts w !! ld = Some descr ∧
    Forall (λ k, dict_has k descr = true) required_keys ∧
    Forall (λ k, ∃ l, dict_get k descr = Some (VDict l)) param_keys ∧
    expanded w0 descr "problem_params" pl ∧
    expanded w0 descr "level_params" ll ∧
    expanded w0 descr "sweeper_params" sl ∧
    apart (length (dicts w0)) w0 u ∧
    dict_to_list (VDict (length (dicts u)))
      (set_dicts u (dicts u ++ [with_expanded descr pl ll sl])) = (Ok dl, w2) ∧
    (1 < length dl →
       dict_has "transfer_class" descr = true ∧ dict_has "transfer_params" descr = true) ∧
    hierarchy_loop dl self (seq 0 (length dl))
      (if (length dl <=? 1) && dict_has "transfer_class" descr
       then (print single_level_warning w2).2 else w2) = (Ok s, w').
Proof.
  intros Hap H. apply generate_hierarchy_runs in H
    as (ld & descr & l1 & l2 & l3 & pl & ll & sl & u1 & u2 & u3 & dl & w2 & -> & Hld &
        Hreq & G1 & G2 & G3 & Hpl & Hll & Hsl & Hdl & Htr & Hloop).
  destruct (dict_to_list_step w0 w u1 ld descr _ pl Hap Hld Hpl) as [Hap1 Hld1].
  destruct (dict_to_list_step w0 u1 u2 ld descr _ ll Hap1 Hld1 Hll) as [Hap2 Hld2].
  destruct (dict_to_list_step w0 u2 u3 ld descr _ sl Hap2 Hld2 Hsl) as [Hap3 Hld3].
  exists ld, descr, pl, ll, sl, u3, dl, w2. split_and!; try done.
  - unfold param_keys. repeat constructor; by eexists.
  - by apply (dict_to_list_expanded w0 w u1 descr _ _ pl (proj1 Hap) G1).
  - by apply (dict_to_list_expanded w0 u1 u2 descr _ _ ll (proj1 Hap1) G2).
  - by apply (dict_to_list_expanded w0 u2 u3 descr _ _ sl (proj1 Hap2) G3).
Qed.

(** One round of the loop leaves the other attributes of the step and the
    level objects that were there alone, and makes one level. *)
Lemma hierarchy_round_rest (dl : list loc) (s s' : step) (l : nat) (w w' : world) :
  hierarchy_round dl s l w = (Ok s', w') →
  params s' = params s ∧ step_status s' = step_status s ∧
  __prev s' = __prev s ∧ __next s' = __next s ∧
  length (lvls w') = S (length (lvls w)) ∧
  ∀ b, b ≤ length (lvls w) → take b (lvls w') = take b (lvls w).
Proof.
  unfold hierarchy_round. intros H.
  skip_head H as dl0 u0 E0. skip_head H as hook u1 E1.
  skip_head H as tparams u2 E2. skip_head H as pparams u3 E3.
  skip_head H as pc u4 E4. skip_head H as du u5 E5. skip_head H as df u6 E6.
  skip_head H as sc u7 E7. skip_head H as sp u8 E8. skip_head H as lp w0 E9.
  apply bind_ok_inv in H as (L & w1 & HL & H).
  injection HL as <- <-.
  apply bind_ok_inv in H as (s1 & w2 & Hreg & H).
  apply register_level_ok in Hreg as (-> & Hyes & Hno).
  assert (lvls w0 = lvls w) as E by congruence.
  assert (length (lvls w2) = S (length (lvls w)) ∧
          ∀ b, b ≤ length (lvls w) → take b (lvls w2) = take b (lvls w)) as [Hlen Hold].
  { destruct (1 <? _) eqn:Ek.
    - destruct (Hyes eq_refl) as (lv & _ & ->). simpl. rewrite E.
      rewrite length_insert, length_app. simpl. split; [lia|].
      intros b Hb. rewrite take_insert_ge by done. by apply take_app_le.
    - rewrite (Hno eq_refl). simpl. rewrite E, length_app. simpl. split; [lia|].
      intros b Hb. by apply take_app_le. }
  destruct (0 <? l).
  - apply bind_ok_inv in H as (tc & w3 & Htc & H).
    pose proof (reads_getitem (VDict dl0) "transfer_class" w2) as Hr.
    rewrite Htc in Hr. simpl in Hr. subst w3.
    apply bind_ok_inv in H as (fine & w3 & Hfine & H). injection Hfine as _ <-.
    apply bind_ok_inv in H as (coarse & w3 & Hcoarse & H). injection Hcoarse as _ <-.
    apply connect_levels_ok in H as (Hl' & T & _ & _ & ->). simpl.
    rewrite Hl'. by split_and!.
  - injection H as <- <-. simpl. by split_and!.
Qed.

Lemma hierarchy_loop_rest (dl : list loc) (s s' : step) (ls : list nat) (w w' : world) :
  hierarchy_loop dl s ls w = (Ok s', w') →
  params s' = params s ∧ step_status s' = step_status s ∧
  __prev s' = __prev s ∧ __next s' = __next s ∧
  length (lvls w') = length (lvls w) + length ls ∧
  ∀ b, b ≤ length (lvls w) → take b (lvls w') = take b (lvls w).
Proof.
  revert s w. induction ls as [|l ls IH]; intros s w H; simpl in H.
  - injection H as <- <-. simpl. split_and!; try done; lia.
  - apply bind_ok_inv in H as (s1 & w1 & Hround & H).
    apply hierarchy_round_rest in Hround as (P1 & P2 & P3 & P4 & Hlen & Hold).
    apply IH in H as (Q1 & Q2 & Q3 & Q4 & Hlen' & Hold').
    split_and!; try congruence.
    + simpl. lia.
    + intros b Hb. rewrite Hold' by lia. by apply Hold.
Qed.

(** How [__init__] gets to [__generate_hierarchy]: with the parameters of
    the step, or with a new empty dict for them. *)
Lemma step_init_ok (dv : value) (w : world) (s : step) (w' : world) :
  step_init dv w = (Ok s, w') →
  ∃ ld descr sp w0,
    dv = VDict ld ∧ dicts w !! ld = Some descr ∧
    match dict_get "step_params" descr with
    | Some v => ∃ l, v = VDict l ∧ dicts w !! l = Some sp ∧ w0 = w
    | None => sp = [] ∧ w0 = set_dicts w (dicts w ++ [[]])
    end ∧
    generate_hierarchy (mkStep (pars sp) new_status [] [] VNone VNone) dv w0 = (Ok s, w').
Proof.
  unfold step_init. intros H.
  apply bind_ok_inv in H as (step_params & u & Hg & H).
  apply bind_ok_inv in H as (sp & u' & Hsp & H).
  pose proof (reads_items step_params u) as Hr. rewrite Hsp in Hr. simpl in Hr. subst u'.
  destruct (generate_hierarchy_ok _ dv u u s w' (apart_refl u) H)
    as (ld & ? & ? & ? & ? & ? & ? & ? & -> & _).
  unfold get_or, contains in Hg.
  destruct (dicts w !! ld) as [descr|] eqn:Hld.
  2:{ unfold bind in Hg. rewrite Hld in Hg. discriminate. }
  exists ld, descr, sp, u. split; [done|]. split; [done|]. split; [|done].
  unfold bind in Hg. rewrite Hld in Hg. unfold dict_has in Hg. unfold getitem in Hg.
  destruct (dict_get "step_params" descr) as [v|] eqn:Hv.
  - rewrite Hld, Hv in Hg. injection Hg as <- <-. unfold items in Hsp. destruct v; try discriminate.
    destruct (dicts w !! l) as [d|] eqn:Hl; [|discriminate].
    injection Hsp as <-. by exists l.
  - unfold empty_dict, bind, new_dict, ret in Hg. simpl in Hg. injection Hg as <- <-.
    unfold items in Hsp. simpl in Hsp.
    rewrite lookup_app_r, Nat.sub_diag in Hsp by done. simpl in Hsp.
    by injection Hsp as <-.
Qed.

(** A successful construction, from the description to the loop. *)
Lemma step_init_facts (dv : value) (w : world) (s : step) (w' : world) :
  step_init dv w = (Ok s, w') →
  ∃ ld descr sp pl ll sl u dl w2,
    dv = VDict ld ∧ dicts w !! ld = Some descr ∧
    (dict_get "step_params" descr = None → sp = []) ∧
    (∀ l, dict_get "step_params" descr = Some (VDict l) → dicts w !! l = Some sp) ∧
    Forall (λ k, dict_has k descr = true) required_keys ∧
    Forall (λ k, ∃ l, dict_get k descr = Some (VDict l)) param_keys ∧
    expanded w descr "problem_params" pl ∧
    expanded w descr "level_params" ll ∧
    expanded w descr "sweeper_params" sl ∧
    apart (length (dicts w)) w u ∧
    dict_to_list (VDict (length (dicts u)))
      (set_dicts u (dicts u ++ [with_expanded descr pl ll sl])) = (Ok dl, w2) ∧
    length dl = length (levels s) ∧
    (1 < length dl →
       dict_has "transfer_class" descr = true ∧ dict_has "transfer_params" descr = true) ∧
    hierarchy_loop dl (mkStep (pars sp) new_status [] [] VNone VNone) (seq 0 (length dl))
      (if (length dl <=? 1) && dict_has "transfer_class" descr
       then (print single_level_warning w2).2 else w2) = (Ok s, w').
Proof.
  intros H. apply step_init_ok in H as (ld & descr & sp & w0 & -> & Hld & Hsp & H).
  assert (apart (length (dicts w)) w w0 ∧ dicts w0 !! ld = Some descr) as [Hap Hld0].
  { destruct (dict_get "step_params" descr).
    - destruct Hsp as (l & _ & _ & ->). split; [apply apart_refl|done].
    - destruct Hsp as [_ ->]. split.
      + split; [|done]. split; simpl.
        * rewrite length_app. lia.
        * intros l Hl. by rewrite lookup_app_l.
      + simpl. rewrite lookup_app_l; [done|]. by eapply lookup_lt_Some. }
  destruct (generate_hierarchy_ok _ _ w w0 s w' Hap H)
    as (ld' & descr' & pl & ll & sl & u & dl & w2 & [= <-] & Hld' & Hreq & Hpar &
        Xp & Xl & Xs & Hap' & Hdl & Htr & Hloop).
  rewrite Hld0 in Hld'. injection Hld' as <-.
  exists ld, descr, sp, pl, ll, sl, u, dl, w2. split_and!; try done.
  - intros E. rewrite E in Hsp. by destruct Hsp.
  - intros l E. rewrite E in Hsp. by destruct Hsp as (l' & [= <-] & ? & _).
  - pose proof Hloop as Hinv.
    apply (hierarchy_loop_inv dl (length (lvls
             (if (length dl <=? 1) && dict_has "transfer_class" descr
              then (print single_level_warning w2).2 else w2))) (length dl) 0) in Hinv.
    + destruct Hinv as (-> & _). by rewrite length_seq.
    + split_and!; [done|lia|intros i Hi; lia|]. exists []. by split_and!.
Qed.


(** ** The checks of the constructor *)


Lemma get_or_dict k l d default w :
  dicts w !! l = Some d →
  get_or (VDict l) k default w
  = match dict_get k d with Some v => (Ok v, w) | None => default w end.
Proof.
  intros Hl. unfold get_or.
  rewrite (bind_ok _ _ w _ w (contains_dict k l d w Hl)).
  unfold dict_has, getitem. destruct (dict_get k d) eqn:E; [|done]. by rewrite Hl, E.
Qed.




(** X6: a step is constructed only from a description that is a dict with
    the seven keys; it has at least one level; and it has more than one only
    if the description names a transfer class and transfer parameters. *)
Theorem X6_constructed_from (dv : value) (w w' : world) (s : step) :
  step_init dv w = (Ok s, w') →
  ∃ ld descr,
    dv = VDict ld ∧ dicts w !! ld = Some descr ∧
    (∀ k, k ∈ required_keys → dict_has k descr = true) ∧
    1 ≤ length (levels s) ∧
    (1 < length (levels s) →
       dict_has "transfer_class" descr = true ∧ dict_has "transfer_params" descr = true).
Proof.
  intros H. apply step_init_facts in H
    as (ld & descr & sp & pl & ll & sl & u & dl & w2 & -> & Hld & _ & _ & Hreq & _ &
        _ & _ & _ & _ & Hdl & HN & Htr & _).
  exists ld, descr. split_and!; try done.
  - by apply Forall_forall.
  - rewrite <- HN. by apply dict_to_list_ok_nonempty in Hdl.
  - by rewrite <- HN.
Qed.

Lemma X6_constructed_from_witness :
  ∃ s w', step_init (VDict 2) plain_world = (Ok s, w') ∧
    ∃ ld descr,
      VDict 2 = VDict ld ∧ dicts plain_world !! ld = Some descr ∧
      (∀ k, k ∈ required_keys → dict_has k descr = true) ∧
      1 ≤ length (levels s) ∧
      (1 < length (levels s) →
         dict_has "transfer_class" descr = true ∧ dict_has "transfer_params" descr = true).
Proof.
  eexists _, _. split; [vm_compute; reflexivity|].
  eapply (X6_constructed_from (VDict 2) plain_world). vm_compute. reflexivity.
Defined.

(** What the loop of the constructor comes to, started on a new step. *)
Lemma hierarchy_loop_ok (dl : list loc) (self s : step) (w w' : world) :
  levels self = [] → __transfer_dict self = [] →
  hierarchy_loop dl self (seq 0 (length dl)) w = (Ok s, w') →
  hierarchy_inv (length (lvls w)) (length dl) s w' ∧
  params s = params self ∧ step_status s = step_status self ∧
  __prev s = __prev self ∧ __next s = __next self ∧
  (∃ new, lvls w' = lvls w ++ new ∧ length new = length dl) ∧
  stdout w' = stdout w ∧ calls w' = calls w.
Proof.
  intros Hlev Htab H.
  pose proof (hierarchy_loop_rest _ _ _ _ _ _ H) as (P1 & P2 & P3 & P4 & Hlen & Hold).
  destruct (quiet_hierarchy_loop dl self (seq 0 (length dl)) w) as [Q1 Q2].
  rewrite H in Q1, Q2. simpl in Q1, Q2.
  split_and!; try done.
  - apply (hierarchy_loop_inv dl (length (lvls w)) (length dl) 0 self s w w'); [|done].
    split_and!; [done|lia|intros i Hi; lia|]. exists []. by split_and!.
  - exists (drop (length (lvls w)) (lvls w')). split.
    + rewrite <- (take_drop (length (lvls w)) (lvls w')) at 1. f_equal.
      rewrite Hold by done. by apply firstn_all.
    + rewrite length_drop, Hlen, length_seq. lia.
Qed.

(** X7: a successful construction calls no transfer method, and prints one
    line, the warning, exactly when it made a single level from a
    description that names a transfer class; otherwise it prints nothing. *)
Theorem X7_warning_for_single_level (dv : value) (w w' : world) (s : step) :
  step_init dv w = (Ok s, w') →
  ∃ ld descr,
    dv = VDict ld ∧ dicts w !! ld = Some descr ∧
    stdout w' = stdout w ++ (if (length (levels s) =? 1) && dict_has "transfer_class" descr
                             then [single_level_warning] else []) ∧
    calls w' = calls w.
Proof.
  intros H. apply step_init_facts in H
    as (ld & descr & sp & pl & ll & sl & u & dl & w2 & -> & Hld & _ & _ & _ & _ &
        _ & _ & _ & Hap & Hdl & HN & _ & Hloop).
  exists ld, descr. split; [done|]. split; [done|].
  apply hierarchy_loop_ok in Hloop as (_ & _ & _ & _ & _ & _ & Q1 & Q2); [|done..].
  assert (stdout w2 = stdout w ∧ calls w2 = calls w) as [S2 C2].
  { destruct Hap as (_ & _ & S & C).
    destruct (quiet_dict_to_list (VDict (length (dicts u)))
                (set_dicts u (dicts u ++ [with_expanded descr pl ll sl]))) as [Q3 Q4].
    rewrite Hdl in Q3, Q4. simpl in Q3, Q4. split; congruence. }
  pose proof (dict_to_list_ok_nonempty _ _ _ _ Hdl) as Hge.
  rewrite <- HN.
  assert ((length dl <=? 1) = (length dl =? 1)) as E.
  { destruct (length dl =? 1) eqn:E1.
    - apply Nat.eqb_eq in E1. apply Nat.leb_le. lia.
    - apply Nat.eqb_neq in E1. apply Nat.leb_gt. lia. }
  rewrite E in Q1, Q2.
  destruct ((length dl =? 1) && dict_has "transfer_class" descr); simpl in Q1, Q2.
  - split; congruence.
  - rewrite app_nil_r. split; congruence.
Qed.

Lemma X7_warning_for_single_level_witness :
  ∃ s w', step_init (VDict 2) plain_world = (Ok s, w') ∧
    ∃ ld descr,
      VDict 2 = VDict ld ∧ dicts plain_world !! ld = Some descr ∧
      stdout w' = stdout plain_world
                  ++ (if (length (levels s) =? 1) && dict_has "transfer_class" descr
                      then [single_level_warning] else []) ∧
      calls w' = calls plain_world.
Proof.
  eexists _, _. split; [vm_compute; reflexivity|].
  eapply (X7_warning_for_single_level (VDict 2) plain_world). vm_compute. reflexivity.
Defined.

(** *** The parameters of the step *)

Lemma dict_get_not_key k (d : dict) : k ∉ d.*1 → dict_get k d = None.
Proof.
  induction d as [|[k0 v0] d IH]; simpl; [done|].
  rewrite not_elem_of_cons. intros [Hne Hin].
  apply String.eqb_neq in Hne. rewrite Hne. by apply IH.
Qed.

Lemma dict_get_fold_set k (its acc : dict) :
  NoDup its.*1 →
  dict_get k (fold_left (λ acc kv, dict_set kv.1 kv.2 acc) its acc)
  = match dict_get k its with Some v => Some v | None => dict_get k acc end.
Proof.
  revert acc. induction its as [|[k0 v0] its IH]; intros acc Hnd; simpl; [done|].
  apply NoDup_cons in Hnd as [Hk0 Hnd]. rewrite IH by done.
  destruct (String.eqb k k0) eqn:E.
  - apply String.eqb_eq in E as ->.
    by rewrite (dict_get_not_key k0 its), dict_get_set.
  - apply String.eqb_neq in E. by rewrite dict_get_set_ne.
Qed.

(** X8: a new step has every status variable unset and neither a previous
    nor a next step; its parameters are those of [step_params] (none where
    the description does not give the key), with [maxiter] unset unless it
    is among them. *)
Theorem X8_new_step_attributes (dv : value) (w w' : world) (s : step) :
  step_init dv w = (Ok s, w') →
  step_status s = new_status ∧ prev s = VNone ∧ next s = VNone ∧ __next s = VNone ∧
  ∃ ld descr sp,
    dv = VDict ld ∧ dicts w !! ld = Some descr ∧
    (dict_get "step_params" descr = None → sp = []) ∧
    (∀ l, dict_get "step_params" descr = Some (VDict l) → dicts w !! l = Some sp) ∧
    params s = pars sp ∧
    (NoDup sp.*1 →
     ∀ k, dict_get k (params s)
          = match dict_get k sp with
            | Some v => Some v
            | None => if String.eqb k "maxiter" then Some VNone else None
            end).
Proof.
  intros H. apply step_init_facts in H
    as (ld & descr & sp & pl & ll & sl & u & dl & w2 & -> & Hld & Hno & Hyes & _ & _ &
        _ & _ & _ & _ & _ & _ & _ & Hloop).
  apply hierarchy_loop_ok in Hloop as (_ & P1 & P2 & P3 & P4 & _); [|done..].
  simpl in *. unfold prev, next. split_and!; try done.
  exists ld, descr, sp. split_and!; try done.
  intros Hnd k. rewrite P1. unfold pars. by rewrite dict_get_fold_set.
Qed.

Lemma X8_new_step_attributes_witness :
  ∃ s w', step_init (VDict 2) plain_world = (Ok s, w') ∧
    step_status s = new_status ∧ prev s = VNone ∧ next s = VNone ∧ __next s = VNone ∧
    ∃ ld descr sp,
      VDict 2 = VDict ld ∧ dicts plain_world !! ld = Some descr ∧
      (dict_get "step_params" descr = None → sp = []) ∧
      (∀ l, dict_get "step_params" descr = Some (VDict l) →
            dicts plain_world !! l = Some sp) ∧
      params s = pars sp ∧
      (NoDup sp.*1 →
       ∀ k, dict_get k (params s)
            = match dict_get k sp with
              | Some v => Some v
              | None => if String.eqb k "maxiter" then Some VNone else None
              end).
Proof.
  eexists _, _. split; [vm_compute; reflexivity|].
  eapply (X8_new_step_attributes (VDict 2) plain_world). vm_compute. reflexivity.
Defined.

(** X9: the levels of a constructed step are new objects, one after the
    other behind the level objects that existed, which are all left as they
    were; the level at position [i] has the id [L] followed by [i]. *)
Theorem X9_levels_are_new (dv : value) (w w' : world) (s : step) :
  step_init dv w = (Ok s, w') →
  levels s = seq (length (lvls w)) (length (levels s)) ∧
  (∃ new, lvls w' = lvls w ++ new ∧ length new = length (levels s)) ∧
  (∀ i L, levels s !! i = Some L →
     ∃ lv, lvls w' !! L = Some lv ∧ level_id lv = "L" +:+ pretty i).
Proof.
  intros H. apply step_init_facts in H
    as (ld & descr & sp & pl & ll & sl & u & dl & w2 & -> & Hld & _ & _ & _ & _ &
        _ & _ & _ & Hap & Hdl & HN & _ & Hloop).
  apply hierarchy_loop_ok in Hloop as (Hinv & _ & _ & _ & _ & Hnew & _); [|done..].
  assert (lvls w2 = lvls w) as E.
  { destruct Hap as (_ & E & _).
    pose proof (level_free_dict_to_list (VDict (length (dicts u)))
                  (set_dicts u (dicts u ++ [with_expanded descr pl ll sl]))) as E'.
    rewrite Hdl in E'. simpl in E'. congruence. }
  assert (lvls (if (length dl <=? 1) && dict_has "transfer_class" descr
                then (print single_level_warning w2).2 else w2) = lvls w) as E3.
  { by destruct (_ && _). }
  rewrite E3 in Hinv, Hnew. rewrite HN in Hinv, Hnew.
  destruct Hinv as (Hlev & _ & Hids & _).
  split_and!; [done|done|].
  intros i L HL. rewrite Hlev in HL. apply lookup_seq in HL as [-> Hi].
  destruct (Hids i Hi) as (lv & Hlv & _ & Hid). by exists lv.
Qed.

Lemma X9_levels_are_new_witness :
  ∃ s w', step_init (VDict 4) three_level_world = (Ok s, w') ∧
    levels s = seq (length (lvls three_level_world)) (length (levels s)) ∧
    (∃ new, lvls w' = lvls three_level_world ++ new ∧ length new = length (levels s)) ∧
    (∀ i L, levels s !! i = Some L →
       ∃ lv, lvls w' !! L = Some lv ∧ level_id lv = "L" +:+ pretty i).
Proof.
  eexists _, _. split; [vm_compute; reflexivity|].
  eapply (X9_levels_are_new (VDict 4) three_level_world). vm_compute. reflexivity.
Defined.

(** *** The number of levels *)

Lemma max_list_len_witness (its : dict) :
  1 < max_list_len its →
  ∃ k vs, (k, VList vs) ∈ its ∧ length vs = max_list_len its.
Proof.
  induction its as [|[k v] its IH]; simpl; [lia|].
  unfold max_list_len in *. simpl. intros Hlt.
  assert (1 < foldr (λ kv m, match kv.2 with
                             | VList vs => length vs `max` m
                             | _ => m
                             end) 1 its →
          ∃ k' vs, (k', VList vs) ∈ (k, v) :: its ∧
                   length vs = foldr (λ kv m, match kv.2 with
                                              | VList vs => length vs `max` m
                                              | _ => m
                                              end) 1 its) as Htail.
  { intros Hm. destruct (IH Hm) as (k' & vs & Hin & E).
    exists k', vs. split; [|done]. apply elem_of_cons. by right. }
  destruct v; try by apply Htail.
  set (m := foldr _ 1 its) in *.
  destruct (decide (m ≤ length vs)) as [Hle|Hgt].
  - exists k, vs. split; [apply elem_of_cons; by left|lia].
  - destruct Htail as (k' & vs' & Hin & E); [lia|].
    exists k', vs'. split; [done|lia].
Qed.

Lemma dict_set_keys k v (d : dict) x :
  x ∈ (dict_set k v d).*1 ↔ x = k ∨ x ∈ d.*1.
Proof.
  induction d as [|[k0 v0] d IH]; simpl.
  - rewrite list_elem_of_singleton, elem_of_nil. tauto.
  - destruct (String.eqb k k0) eqn:E; simpl.
    + apply String.eqb_eq in E as ->. rewrite !elem_of_cons. tauto.
    + rewrite !elem_of_cons, IH. tauto.
Qed.

Lemma dict_set_NoDup k v (d : dict) : NoDup d.*1 → NoDup (dict_set k v d).*1.
Proof.
  induction d as [|[k0 v0] d IH]; simpl; intros Hnd.
  - apply NoDup_singleton.
  - apply NoDup_cons in Hnd as [Hk0 Hnd].
    destruct (String.eqb k k0) eqn:E; simpl.
    + by apply NoDup_cons.
    + apply NoDup_cons. split; [|by apply IH].
      rewrite dict_set_keys. apply String.eqb_neq in E. intros [->|?]; done.
Qed.

Lemma dict_set_elem_inv k v k' v' (d : dict) :
  NoDup d.*1 → (k, v) ∈ dict_set k' v' d →
  (k = k' ∧ v = v') ∨ (k ≠ k' ∧ (k, v) ∈ d).
Proof.
  induction d as [|[k0 v0] d IH]; simpl; intros Hnd Hin.
  - apply list_elem_of_singleton in Hin as [= -> ->]. by left.
  - apply NoDup_cons in Hnd as [Hk0 Hnd].
    destruct (String.eqb k' k0) eqn:E.
    + apply String.eqb_eq in E as ->.
      apply elem_of_cons in Hin as [[= -> ->]|Hin]; [by left|].
      right. split; [|apply elem_of_cons; by right].
      intros ->. apply Hk0. apply list_elem_of_fmap. by exists (k0, v).
    + apply String.eqb_neq in E.
      apply elem_of_cons in Hin as [[= -> ->]|Hin].
      * right. split; [done|]. apply elem_of_cons. by left.
      * destruct (IH Hnd Hin) as [?|[? ?]]; [by left|].
        right. split; [done|]. apply elem_of_cons. by right.
Qed.

(** The width of an expanded parameter dict is a width the description
    asks for. *)
Lemma expanded_source (w : world) (descr : dict) (key : string) (pl : list loc) :
  key ∈ param_keys →
  (∃ l, dict_get key descr = Some (VDict l)) →
  (∀ key l, key ∈ param_keys → dict_get key descr = Some (VDict l) →
            is_Some (dicts w !! l)) →
  expanded w descr key pl →
  width_source w descr (length pl).
Proof.
  intros Hkey [l Hget] Hclosed Hexp.
  destruct (Hclosed key l Hkey Hget) as [its Hits].
  rewrite (Hexp l its Hget Hits). by eapply width_of_params.
Qed.

(** X10: the number of levels of a constructed step is a width the
    description asks for, and every width it asks for is 1 or that number:
    the largest list length in its parameter dicts and among its own
    entries decides how many levels there are.  (For the first part the
    description has distinct keys and its parameter dicts exist.) *)
Theorem X10_level_count (ld : loc) (descr : dict) (w w' : world) (s : step) :
  step_init (VDict ld) w = (Ok s, w') → dicts w !! ld = Some descr →
  (∀ a, width_source w descr a → a = 1 ∨ a = length (levels s)) ∧
  (NoDup descr.*1 →
   (∀ key l, key ∈ param_keys → dict_get key descr = Some (VDict l) →
             is_Some (dicts w !! l)) →
   width_source w descr (length (levels s))).
Proof.
  intros H Hld0. apply step_init_facts in H
    as (ld' & descr' & sp & pl & ll & sl & u & dl & w2 & [= <-] & Hld & _ & _ & _ & Hpar &
        Xp & Xl & Xs & Hap & Hdl & HN & _ & _).
  rewrite Hld0 in Hld. injection Hld as <-. rewrite <- HN.
  set (D := with_expanded descr pl ll sl) in *.
  assert (dicts (set_dicts u (dicts u ++ [D])) !! length (dicts u) = Some D) as HD.
  { simpl. by rewrite lookup_app_r, Nat.sub_diag. }
  pose proof (dict_to_list_accepts _ _ _ _ _ HD Hdl) as Hacc.
  pose proof (dict_to_list_ok_length _ _ _ _ _ HD Hdl) as Hmax.
  assert (∀ a, width_source w descr a → a = 1 ∨ a = length dl) as Hall.
  { intros a Ha.
    destruct (width_source_entry w descr pl ll sl a Xp Xl Xs Ha) as (k & vs & Hin & <-).
    by apply (Hacc k). }
  split; [done|]. intros Hnd Hclosed.
  apply Forall_forall with (x := "problem_params") in Hpar as Hpp;
    [|apply list_elem_of_In; simpl; tauto].
  apply Forall_forall with (x := "level_params") in Hpar as Hlp;
    [|apply list_elem_of_In; simpl; tauto].
  apply Forall_forall with (x := "sweeper_params") in Hpar as Hsp;
    [|apply list_elem_of_In; simpl; tauto].
  assert (width_source w descr (length pl)) as Wp.
  { apply (expanded_source w descr "problem_params"); try done.
    apply list_elem_of_In; simpl; tauto. }
  assert (width_source w descr (length ll)) as Wl.
  { apply (expanded_source w descr "level_params"); try done.
    apply list_elem_of_In; simpl; tauto. }
  assert (width_source w descr (length sl)) as Ws.
  { apply (expanded_source w descr "sweeper_params"); try done.
    apply list_elem_of_In; simpl; tauto. }
  destruct (decide (1 < length dl)) as [Hbig|Hsmall].
  2:{ pose proof (dict_to_list_ok_nonempty _ _ _ _ Hdl).
      destruct (Hall _ Wp) as [E|E]; rewrite E in Wp; [|done].
      by replace (length dl) with 1 by lia. }
  rewrite Hmax in Hbig. destruct (max_list_len_witness D Hbig) as (k & vs & Hin & E).
  rewrite Hmax, <- E. unfold D, with_expanded in Hin.
  apply dict_set_elem_inv in Hin as [[-> [= ->]]|[N1 Hin]];
    [by rewrite length_fmap| |by do 2 apply dict_set_NoDup].
  apply dict_set_elem_inv in Hin as [[-> [= ->]]|[N2 Hin]];
    [by rewrite length_fmap| |by apply dict_set_NoDup].
  apply dict_set_elem_inv in Hin as [[-> [= ->]]|[N3 Hin]];
    [by rewrite length_fmap| |done].
  apply (width_of_list w descr k vs Hin).
  intros Hk. apply list_elem_of_In in Hk. simpl in Hk. intuition congruence.
Qed.

Lemma X10_level_count_witness :
  ∃ s w', step_init (VDict 4) three_level_world = (Ok s, w') ∧
    length (levels s) = 3 ∧
    (∀ a, width_source three_level_world three_level_description a →
          a = 1 ∨ a = length (levels s)) ∧
    (NoDup three_level_description.*1 →
     (∀ key l, key ∈ param_keys →
        dict_get key three_level_description = Some (VDict l) →
        is_Some (dicts three_level_world !! l)) →
     width_source three_level_world three_level_description (length (levels s))).
Proof.
  eexists _, _. split; [vm_compute; reflexivity|]. split; [reflexivity|].
  eapply (X10_level_count 4 three_level_description three_level_world).
  - vm_compute. reflexivity.
  - reflexivity.
Defined.

(** ** What the levels are built from *)

Lemma built_from_add_tau its l lv : built_from its l lv → built_from its l (add_tau lv).
Proof. done. Qed.

(** One round of the loop makes its level out of the items of its level
    dict. *)
Lemma hierarchy_round_level (dl : list loc) (s s' : step) (l : nat) (w w' : world)
    (d : loc) (its : dict) :
  dl !! l = Some d → dicts w !! d = Some its →
  hierarchy_round dl s l w = (Ok s', w') →
  ∃ lv, lvls w' !! length (lvls w) = Some lv ∧ built_from its l lv.
Proof.
  intros Hd Hits H. unfold hierarchy_round in H.
  rewrite (bind_ok _ _ w d w) in H by (unfold lift, index; by rewrite Hd).
  apply bind_ok_inv in H as (hook & u1 & Hhook & H).
  rewrite (get_or_dict _ _ _ _ _ Hits) in Hhook.
  assert (u1 = w ∧ hook = default default_hooks (dict_get "hook_class" its)) as [-> Ehook].
  { destruct (dict_get "hook_class" its); by injection Hhook as <- <-. }
  apply bind_ok_inv in H as (tparams & u2 & Htp & H).
  assert (dicts u2 !! d = Some its ∧ lvls u2 = lvls w) as [Hits2 El2].
  { rewrite (get_or_dict _ _ _ _ _ Hits) in Htp.
    destruct (dict_get "transfer_params" its).
    - by injection Htp as _ <-.
    - injection Htp as _ <-. simpl. split; [|done].
      rewrite lookup_app_l; [done|]. by eapply lookup_lt_Some. }
  apply bind_ok_inv in H as (pparams & u3 & Hpp & H).
  rewrite (get_or_dict _ _ _ _ _ Hits2) in Hpp.
  assert (dicts u3 !! d = Some its ∧ lvls u3 = lvls w ∧
          ∀ v, dict_get "problem_params" its = Some v → pparams = v)
    as (Hits3 & El3 & Epp).
  { destruct (dict_get "problem_params" its).
    - injection Hpp as <- <-. split_and!; try done. by intros ? [= <-].
    - injection Hpp as _ <-. simpl. split_and!; try done.
      rewrite lookup_app_l; [done|]. by eapply lookup_lt_Some. }
  apply bind_ok_inv in H as (pc & u & Hpc & H).
  apply getitem_ok in Hpc as (-> & l0 & d0 & [= <-] & Hd0 & Gpc).
  rewrite Hits3 in Hd0. injection Hd0 as <-.
  apply bind_ok_inv in H as (du & u & Hdu & H).
  apply getitem_ok in Hdu as (-> & l0 & d0 & [= <-] & Hd0 & Gdu).
  rewrite Hits3 in Hd0. injection Hd0 as <-.
  apply bind_ok_inv in H as (df & u & Hdf & H).
  apply getitem_ok in Hdf as (-> & l0 & d0 & [= <-] & Hd0 & Gdf).
  rewrite Hits3 in Hd0. injection Hd0 as <-.
  apply bind_ok_inv in H as (sc & u & Hsc & H).
  apply getitem_ok in Hsc as (-> & l0 & d0 & [= <-] & Hd0 & Gsc).
  rewrite Hits3 in Hd0. injection Hd0 as <-.
  apply bind_ok_inv in H as (sp & u & Hsp & H).
  apply getitem_ok in Hsp as (-> & l0 & d0 & [= <-] & Hd0 & Gsp).
  rewrite Hits3 in Hd0. injection Hd0 as <-.
  apply bind_ok_inv in H as (lp & u & Hlp & H).
  apply getitem_ok in Hlp as (-> & l0 & d0 & [= <-] & Hd0 & Glp).
  rewrite Hits3 in Hd0. injection Hd0 as <-.
  apply bind_ok_inv in H as (L & w1 & HL & H). injection HL as <- <-.
  apply bind_ok_inv in H as (s1 & w2 & Hreg & H).
  apply register_level_ok in Hreg as (-> & Hyes & Hno).
  set (lv0 := mkLevel ("L" +:+ pretty l) pc pparams du df sc sp lp hook false) in *.
  assert (built_from its l lv0) as Hb by (by split_and!).
  assert (∃ lv, lvls w2 !! length (lvls w) = Some lv ∧ built_from its l lv) as Hlv.
  { destruct (1 <? _) eqn:Ek.
    - destruct (Hyes eq_refl) as (lv & Hlook & ->). simpl in Hlook |- *.
      rewrite El3 in Hlook |- *.
      rewrite lookup_app_r, Nat.sub_diag in Hlook by done. injection Hlook as <-.
      exists (add_tau lv0). split; [|by apply built_from_add_tau].
      apply list_lookup_insert_eq. rewrite length_app. simpl. lia.
    - rewrite (Hno eq_refl). simpl. rewrite El3. exists lv0. split; [|done].
      by rewrite lookup_app_r, Nat.sub_diag. }
  destruct (0 <? l).
  - apply bind_ok_inv in H as (tc & w3 & Htc & H).
    pose proof (reads_getitem (VDict d) "transfer_class" w2) as Hr.
    rewrite Htc in Hr. simpl in Hr. subst w3.
    apply bind_ok_inv in H as (fine & w3 & Hfine & H). injection Hfine as _ <-.
    apply bind_ok_inv in H as (coarse & w3 & Hcoarse & H). injection Hcoarse as _ <-.
    apply connect_levels_ok in H as (Hl' & _). by rewrite Hl'.
  - by injection H as <- <-.
Qed.

(** The loop makes level [i] out of the items of level dict [i], and later
    rounds leave it as it is. *)
Lemma hierarchy_loop_levels (dl : list loc) (I : nat → dict) (n : nat) :
  ∀ (k : nat) (s s' : step) (w w' : world),
  (∀ i d, dl !! i = Some d → dicts w !! d = Some (I i)) →
  hierarchy_loop dl s (seq k n) w = (Ok s', w') →
  length dl = k + n →
  ∀ i, i < n → ∃ lv, lvls w' !! (length (lvls w) + i) = Some lv ∧ built_from (I (k + i)) (k + i) lv.
Proof.
  induction n as [|n IH]; intros k s s' w w' HI H Hlen i Hi; [lia|].
  simpl in H. apply bind_ok_inv in H as (s1 & w1 & Hround & H).
  destruct (lookup_lt_is_Some_2 dl k) as [d Hd]; [lia|].
  destruct (hierarchy_round_level dl s s1 k w w1 d (I k) Hd (HI k d Hd) Hround)
    as (lv & Hlv & Hb).
  pose proof (hierarchy_round_rest _ _ _ _ _ _ Hround) as (_ & _ & _ & _ & Hlen1 & _).
  pose proof (hierarchy_loop_rest _ _ _ _ _ _ H) as (_ & _ & _ & _ & _ & Hold).
  destruct i as [|i].
  - exists lv. rewrite !Nat.add_0_r. split; [|done].
    rewrite <- Hlv. rewrite <- (lookup_take_lt (lvls w') (length (lvls w1))) by lia.
    rewrite Hold by done. rewrite firstn_all. done.
  - destruct (IH (S k) s1 s' w1 w') with (i := i) as (lv' & Hlv' & Hb'); [|done|lia|lia|].
    + intros j dj Hj.
      destruct (keeps_hierarchy_round (length (dicts w)) dl s k w (Nat.le_refl _))
        as [[_ Hsame] _].
      rewrite Hround in Hsame. simpl in Hsame. rewrite Hsame; [by apply HI|].
      eapply lookup_lt_Some. by apply HI.
    + exists lv'. replace (k + S i) with (S k + i) by lia. split; [|done].
      rewrite <- Hlv'. f_equal. lia.
Qed.

Lemma dict_get_Some_elem k v (d : dict) : dict_get k d = Some v → (k, v) ∈ d.
Proof.
  induction d as [|[k0 v0] d IH]; simpl; [done|].
  destruct (String.eqb k k0) eqn:E.
  - apply String.eqb_eq in E as ->. intros [= ->]. apply elem_of_cons. by left.
  - intros Hg. apply elem_of_cons. right. by apply IH.
Qed.

Lemma dict_get_level_dict k (its : dict) (d : nat) :
  dict_get k (level_dict its d) = pick d <$> dict_get k its.
Proof.
  induction its as [|[k0 v0] its IH]; simpl; [done|].
  by destruct (String.eqb k k0).
Qed.

Lemma dict_get_with_expanded k descr pl ll sl :
  k ∉ param_keys → dict_get k (with_expanded descr pl ll sl) = dict_get k descr.
Proof.
  intros Hk. unfold with_expanded.
  rewrite !dict_get_set_ne; [done|..];
    intros ->; apply Hk; apply list_elem_of_In; simpl; tauto.
Qed.

(** An expansion of a dict with distinct keys, in full. *)
Lemma dict_to_list_known (l : loc) (its : dict) (u u' : world) (pl : list loc) :
  dicts u !! l = Some its → NoDup its.*1 →
  dict_to_list (VDict l) u = (Ok pl, u') →
  pl = seq (length (dicts u)) (length pl) ∧ length pl = max_list_len its ∧
  lengths_1_or (length pl) its ∧
  dicts u' = dicts u ++ (level_dict its <$> seq 0 (length pl)).
Proof.
  intros Hl Hnd H.
  pose proof (dict_to_list_accepts l its u u' pl Hl H) as Hacc.
  pose proof (dict_to_list_ok_length l its u u' pl Hl H) as Hmax.
  destruct (dict_to_list_ok_shape _ _ _ _ H) as (l' & its' & [= <-] & Hl' & Hscan & Hseq & _).
  rewrite Hl in Hl'. injection Hl' as <-.
  split_and!; try done.
  rewrite (dict_to_list_run u l its (length pl)) in H; [by injection H as _ <-|done..|].
  intros d k v Hd Hin. apply (select_defined (length pl)); [|done].
  intros vs ->. by apply (Hacc k).
Qed.

Lemma pick_short (i j : nat) (v : value) :
  (∀ vs, v = VList vs → length vs ≤ 1) → pick j v = pick i v.
Proof.
  intros Hv. unfold pick. destruct v; try done.
  specialize (Hv vs eq_refl). simpl.
  destruct vs as [|x [|y vs]]; simpl in *; [done|done|lia].
Qed.

Lemma level_dict_width1 (its : dict) (i j : nat) :
  max_list_len its = 1 → level_dict its j = level_dict its i.
Proof.
  unfold max_list_len, level_dict.
  induction its as [|[k v] its IH]; simpl; [done|]. intros Hmax.
  pose proof (max_list_len_ge1 its) as Hge. unfold max_list_len in Hge.
  f_equal.
  - f_equal. apply pick_short. intros vs ->. simpl in Hmax. lia.
  - apply IH. destruct v; simpl in Hmax; try done. lia.
Qed.

Lemma pick_dict_list (b n N i : nat) :
  n = 1 ∨ n = N → i < N →
  pick i (dict_list (seq b n)) = VDict (b + (if n =? 1 then 0 else i)) ∧
  (if n =? 1 then 0 else i) < n.
Proof.
  intros Hn Hi. unfold pick, dict_list, select. rewrite length_fmap, length_seq.
  unfold index. destruct (n =? 1) eqn:E.
  - apply Nat.eqb_eq in E. rewrite list_lookup_fmap, lookup_seq_lt by lia.
    split; [done|lia].
  - apply Nat.eqb_neq in E. rewrite list_lookup_fmap, lookup_seq_lt by lia.
    split; [done|lia].
Qed.

(** What a level gets for an expanded parameter dict: the dict of its own
    position. *)
Lemma expanded_entry (its : dict) (b n N i : nat) (x : value) (W : list dict) :
  n = max_list_len its → n = 1 ∨ n = N → i < N →
  x = pick i (dict_list (seq b n)) →
  (∀ j, j < n → W !! (b + j) = Some (level_dict its j)) →
  ∃ lp, x = VDict lp ∧ W !! lp = Some (level_dict its i).
Proof.
  intros Hmax Hn Hi -> HW.
  destruct (pick_dict_list b n N i Hn Hi) as [-> Hj].
  eexists. split; [done|]. rewrite HW by done.
  destruct (n =? 1) eqn:E; [|done].
  apply Nat.eqb_eq in E. f_equal. apply level_dict_width1. congruence.
Qed.

Lemma keeps_frame {A} b (m : M A) (φ : A → Prop) u r u' :
  keeps b m φ → b ≤ length (dicts u) → m u = (r, u') → frame b u u'.
Proof. intros Hk Hb Hrun. destruct (Hk u Hb) as [Hf _]. by rewrite Hrun in Hf. Qed.

(** X11: every level of a constructed step is built from the entries of
    its own position: the level at position [i] has for its problem class,
    its data types and its sweeper class entry [i] of what the description
    gives (the value itself where it is no list), for its hook class
    likewise or the default hooks, and for its problem, sweeper and level
    parameters a new dict that holds the level dict [i] of the parameters the
    description gives.  (The description and its parameter dicts have
    distinct keys, and the parameter dicts exist.) *)
Theorem X11_levels_from_description (ld : loc) (descr : dict) (w w' : world) (s : step) :
  step_init (VDict ld) w = (Ok s, w') → dicts w !! ld = Some descr →
  NoDup descr.*1 →
  (∀ key l, key ∈ param_keys → dict_get key descr = Some (VDict l) →
            ∃ its, dicts w !! l = Some its ∧ NoDup its.*1) →
  ∀ i L, levels s !! i = Some L →
    ∃ lv, lvls w' !! L = Some lv ∧
      (∀ v, dict_get "problem_class" descr = Some v → lv_problem_class lv = pick i v) ∧
      (∀ v, dict_get "dtype_u" descr = Some v → lv_dtype_u lv = pick i v) ∧
      (∀ v, dict_get "dtype_f" descr = Some v → lv_dtype_f lv = pick i v) ∧
      (∀ v, dict_get "sweeper_class" descr = Some v → lv_sweeper_class lv = pick i v) ∧
      lv_hook_class lv = default default_hooks (pick i <$> dict_get "hook_class" descr) ∧
      (∀ l its, dict_get "problem_params" descr = Some (VDict l) → dicts w !! l = Some its →
         ∃ lp, lv_problem_params lv = VDict lp ∧ dicts w' !! lp = Some (level_dict its i)) ∧
      (∀ l its, dict_get "sweeper_params" descr = Some (VDict l) → dicts w !! l = Some its →
         ∃ lp, lv_sweeper_params lv = VDict lp ∧ dicts w' !! lp = Some (level_dict its i)) ∧
      (∀ l its, dict_get "level_params" descr = Some (VDict l) → dicts w !! l = Some its →
         ∃ lp, lv_level_params lv = VDict lp ∧ dicts w' !! lp = Some (level_dict its i)).
Proof.
  intros H Hld Hnd Hclosed i L HL.
  pose proof (step_init_inv _ _ _ _ H) as (Hlev & _).
  apply step_init_ok in H as (ld' & descr' & sp & w0 & [= <-] & Hld' & Hsp & H).
  rewrite Hld in Hld'. injection Hld' as <-.
  assert (frame (length (dicts w)) w w0 ∧ lvls w0 = lvls w) as [Hf0 El0].
  { destruct (dict_get "step_params" descr).
    - destruct Hsp as (l & _ & _ & ->). split; [by apply frame_refl|done].
    - destruct Hsp as [_ ->]. split; [|done]. split; simpl.
      + rewrite length_app. lia.
      + intros l Hl. by rewrite lookup_app_l. }
  apply generate_hierarchy_runs in H
    as (ld' & descr' & l1 & l2 & l3 & pl & ll & sl & u1 & u2 & u3 & dl & w2 & [= <-] & Hld0 &
        _ & G1 & G2 & G3 & Hpl & Hll & Hsl & Hdl & _ & Hloop).
  assert (dicts w0 !! ld = Some descr) as Hld0'.
  { destruct Hf0 as [_ Hsame]. rewrite Hsame; [done|]. by eapply lookup_lt_Some. }
  rewrite Hld0' in Hld0. injection Hld0 as <-.
  (* the three parameter dicts *)
  destruct (Hclosed "problem_params" l1) as (its1 & Hi1 & Hn1);
    [apply list_elem_of_In; simpl; tauto|done|].
  destruct (Hclosed "level_params" l2) as (its2 & Hi2 & Hn2);
    [apply list_elem_of_In; simpl; tauto|done|].
  destruct (Hclosed "sweeper_params" l3) as (its3 & Hi3 & Hn3);
    [apply list_elem_of_In; simpl; tauto|done|].
  assert (∀ l its, dicts w !! l = Some its → dicts w0 !! l = Some its) as Hup0.
  { intros l its Hl. destruct Hf0 as [_ Hsame]. rewrite Hsame; [done|].
    by eapply lookup_lt_Some. }
  pose proof (keeps_frame _ _ _ _ _ _ (keeps_dict_to_list (length (dicts w0)) _)
                (Nat.le_refl _) Hpl) as F01.
  pose proof (keeps_frame _ _ _ _ _ _ (keeps_dict_to_list (length (dicts w0)) _)
                (proj1 F01) Hll) as F02.
  pose proof (frame_trans _ _ _ _ F01 F02) as F02'.
  assert (∀ l its, dicts w !! l = Some its → dicts u1 !! l = Some its) as Hup1.
  { intros l its Hl. destruct F01 as [_ Hsame]. rewrite Hsame; [by apply Hup0|].
    eapply lookup_lt_Some. by apply Hup0. }
  assert (∀ l its, dicts w !! l = Some its → dicts u2 !! l = Some its) as Hup2.
  { intros l its Hl. destruct F02' as [_ Hsame]. rewrite Hsame; [by apply Hup0|].
    eapply lookup_lt_Some. by apply Hup0. }
  destruct (dict_to_list_known l1 its1 w0 u1 pl (Hup0 _ _ Hi1) Hn1 Hpl)
    as (Epl & Mpl & _ & D1).
  destruct (dict_to_list_known l2 its2 u1 u2 ll (Hup1 _ _ Hi2) Hn2 Hll)
    as (Ell & Mll & _ & D2).
  destruct (dict_to_list_known l3 its3 u2 u3 sl (Hup2 _ _ Hi3) Hn3 Hsl)
    as (Esl & Msl & _ & D3).
  (* the expansion of the copy *)
  set (D := with_expanded descr pl ll sl) in *.
  set (W := set_dicts u3 (dicts u3 ++ [D])) in *.
  assert (dicts W !! length (dicts u3) = Some D) as HD.
  { simpl. by rewrite lookup_app_r, Nat.sub_diag. }
  assert (NoDup D.*1) as HnD by (by do 3 apply dict_set_NoDup).
  destruct (dict_to_list_known _ D W w2 dl HD HnD Hdl) as (Edl & Mdl & Hacc & D4).
  set (w3 := if (length dl <=? 1) && dict_has "transfer_class" descr
             then (print single_level_warning w2).2 else w2) in *.
  assert (dicts w3 = dicts w2 ∧ lvls w3 = lvls w) as [E3 El3].
  { assert (lvls w2 = lvls w) as E.
    { pose proof (level_free_dict_to_list (VDict l1) w0) as F1. rewrite Hpl in F1.
      pose proof (level_free_dict_to_list (VDict l2) u1) as F2. rewrite Hll in F2.
      pose proof (level_free_dict_to_list (VDict l3) u2) as F3. rewrite Hsl in F3.
      pose proof (level_free_dict_to_list (VDict (length (dicts u3))) W) as F4.
      rewrite Hdl in F4. simpl in *. congruence. }
    unfold w3. by destruct (_ && _). }
  set (self := mkStep (pars sp) new_status [] [] VNone VNone) in *.
  pose proof (keeps_frame _ _ _ _ _ _
                (keeps_hierarchy_loop (length (dicts w3)) dl self (seq 0 (length dl)))
                (Nat.le_refl _) Hloop) as [_ Fend].
  (* the level *)
  pose proof (hierarchy_loop_inv dl (length (lvls w3)) (length dl) 0 self s w3 w') as Hinv.
  destruct Hinv as (Hlev' & _); [|done|].
  { split_and!; [done|lia|intros j Hj; lia|]. exists []. by split_and!. }
  rewrite Hlev' in HL. apply lookup_seq in HL as [-> Hi]. simpl in Hi.
  destruct (hierarchy_loop_levels dl (level_dict D) (length dl) 0 self s w3 w') with (i := i)
    as (lv & Hlv & Hb); [|done|done|done|].
  { intros j d Hj. rewrite Edl in Hj. apply lookup_seq in Hj as [-> Hj].
    rewrite E3, D4. rewrite lookup_app_r by lia.
    replace (length (dicts W) + j - length (dicts W)) with j by lia.
    by rewrite list_lookup_fmap, lookup_seq_lt. }
  simpl in Hb. exists lv. split; [done|].
  destruct Hb as (_ & Bpc & Bdu & Bdf & Bsc & Bsp & Blp & Bhook & Bpp).
  rewrite !dict_get_level_dict in *.
  assert (∀ k, k ∉ param_keys → dict_get k D = dict_get k descr) as Hother.
  { intros k Hk. by apply dict_get_with_expanded. }
  assert (∀ k, k ∈ ["problem_class"; "dtype_u"; "dtype_f"; "sweeper_class"; "hook_class"] →
               k ∉ param_keys) as Hcls.
  { intros k Hk Hk'. apply list_elem_of_In in Hk, Hk'. simpl in *.
    intuition congruence. }
  rewrite Hother in Bpc, Bdu, Bdf, Bsc, Bhook
    by (apply Hcls, list_elem_of_In; simpl; tauto).
  assert (dict_get "sweeper_params" D = Some (dict_list sl)) as Gs.
  { unfold D, with_expanded. apply dict_get_set. }
  assert (dict_get "level_params" D = Some (dict_list ll)) as Gl.
  { unfold D, with_expanded. rewrite dict_get_set_ne by done. apply dict_get_set. }
  assert (dict_get "problem_params" D = Some (dict_list pl)) as Gp.
  { unfold D, with_expanded. rewrite !dict_get_set_ne by done. apply dict_get_set. }
  rewrite Gs in Bsp. rewrite Gl in Blp. rewrite Gp in Bpp.
  simpl in Bsp, Blp. injection Bsp as Bsp. injection Blp as Blp.
  specialize (Bpp _ eq_refl).
  (* where the expanded dicts are at the end *)
  assert (∀ lp, lp < length (dicts w2) → dicts w' !! lp = dicts w2 !! lp) as Hend.
  { intros lp Hlp. rewrite <- E3. apply Fend. by rewrite E3. }
  assert (dicts w2 = (((dicts w0 ++ (level_dict its1 <$> seq 0 (length pl)))
                         ++ (level_dict its2 <$> seq 0 (length ll)))
                        ++ (level_dict its3 <$> seq 0 (length sl)))
                       ++ [D] ++ (level_dict D <$> seq 0 (length dl))) as Eall.
  { rewrite D4. simpl. rewrite D3, D2, D1. by rewrite <- !app_assoc. }
  assert (length (dicts u1) = length (dicts w0) + length pl) as Len1.
  { by rewrite D1, length_app, length_fmap, length_seq. }
  assert (length (dicts u2) = length (dicts u1) + length ll) as Len2.
  { by rewrite D2, length_app, length_fmap, length_seq. }
  assert (length (dicts u3) = length (dicts u2) + length sl) as Len3.
  { by rewrite D3, length_app, length_fmap, length_seq. }
  assert (length (dicts u3) < length (dicts w2)) as Len4.
  { rewrite D4. simpl. rewrite !length_app. simpl. lia. }
  assert (∀ j, j < length pl →
            dicts w' !! (length (dicts w0) + j) = Some (level_dict its1 j)) as W1.
  { intros j Hj. rewrite Hend by lia. rewrite Eall.
    rewrite !lookup_app_l by (rewrite ?length_app, ?length_fmap, ?length_seq; lia).
    rewrite lookup_app_r by lia.
    replace (length (dicts w0) + j - length (dicts w0)) with j by lia.
    by rewrite list_lookup_fmap, lookup_seq_lt. }
  assert (∀ j, j < length ll →
            dicts w' !! (length (dicts u1) + j) = Some (level_dict its2 j)) as W2.
  { intros j Hj. rewrite Hend by lia. rewrite Eall.
    rewrite !lookup_app_l by (rewrite ?length_app, ?length_fmap, ?length_seq; lia).
    rewrite lookup_app_r by (rewrite ?length_app, ?length_fmap, ?length_seq; lia).
    rewrite length_app, length_fmap, length_seq.
    replace (length (dicts u1) + j - (length (dicts w0) + length pl)) with j by lia.
    by rewrite list_lookup_fmap, lookup_seq_lt. }
  assert (∀ j, j < length sl →
            dicts w' !! (length (dicts u2) + j) = Some (level_dict its3 j)) as W3.
  { intros j Hj. rewrite Hend by lia. rewrite Eall.
    rewrite lookup_app_l by (rewrite ?length_app, ?length_fmap, ?length_seq; lia).
    rewrite lookup_app_r by (rewrite ?length_app, ?length_fmap, ?length_seq; lia).
    rewrite !length_app, !length_fmap, !length_seq.
    replace (length (dicts u2) + j - (length (dicts w0) + length pl + length ll))
      with j by lia.
    by rewrite list_lookup_fmap, lookup_seq_lt. }
  assert (∀ k xs, dict_get k D = Some (dict_list xs) →
                  length xs = 1 ∨ length xs = length dl) as Hw.
  { intros k xs Hk. apply dict_get_Some_elem in Hk.
    destruct (Hacc k (VDict <$> xs) Hk) as [E|E]; rewrite length_fmap in E; tauto. }
  split_and!.
  - intros v Hv. rewrite Hv in Bpc. simpl in Bpc. congruence.
  - intros v Hv. rewrite Hv in Bdu. simpl in Bdu. congruence.
  - intros v Hv. rewrite Hv in Bdf. simpl in Bdf. congruence.
  - intros v Hv. rewrite Hv in Bsc. simpl in Bsc. congruence.
  - done.
  - intros l its Hg Hl. rewrite G1 in Hg. injection Hg as <-.
    rewrite Hi1 in Hl. injection Hl as <-.
    apply (expanded_entry its1 (length (dicts w0)) (length pl) (length dl) i); try done.
    + by apply (Hw "problem_params").
    + by rewrite <- Epl.
  - intros l its Hg Hl. rewrite G3 in Hg. injection Hg as <-.
    rewrite Hi3 in Hl. injection Hl as <-.
    apply (expanded_entry its3 (length (dicts u2)) (length sl) (length dl) i); try done.
    + by apply (Hw "sweeper_params").
    + by rewrite <- Esl.
  - intros l its Hg Hl. rewrite G2 in Hg. injection Hg as <-.
    rewrite Hi2 in Hl. injection Hl as <-.
    apply (expanded_entry its2 (length (dicts u1)) (length ll) (length dl) i); try done.
    + by apply (Hw "level_params").
    + by rewrite <- Ell.
Qed.


Lemma X11_levels_from_description_witness :
  ∃ s w', step_init (VDict 4) three_level_world = (Ok s, w') ∧
    ∀ i L, levels s !! i = Some L →
      ∃ lv, lvls w' !! L = Some lv ∧
        (∀ v, dict_get "problem_class" three_level_description = Some v →
              lv_problem_class lv = pick i v) ∧
        (∀ v, dict_get "dtype_u" three_level_description = Some v →
              lv_dtype_u lv = pick i v) ∧
        (∀ v, dict_get "dtype_f" three_level_description = Some v →
              lv_dtype_f lv = pick i v) ∧
        (∀ v, dict_get "sweeper_class" three_level_description = Some v →
              lv_sweeper_class lv = pick i v) ∧
        lv_hook_class lv
        = default default_hooks (pick i <$> dict_get "hook_class" three_level_description) ∧
        (∀ l its, dict_get "problem_params" three_level_description = Some (VDict l) →
           dicts three_level_world !! l = Some its →
           ∃ lp, lv_problem_params lv = VDict lp ∧
                 dicts w' !! lp = Some (level_dict its i)) ∧
        (∀ l its, dict_get "sweeper_params" three_level_description = Some (VDict l) →
           dicts three_level_world !! l = Some its →
           ∃ lp, lv_sweeper_params lv = VDict lp ∧
                 dicts w' !! lp = Some (level_dict its i)) ∧
        (∀ l its, dict_get "level_params" three_level_description = Some (VDict l) →
           dicts three_level_world !! l = Some its →
           ∃ lp, lv_level_params lv = VDict lp ∧
                 dicts w' !! lp = Some (level_dict its i)).
Proof.
  eexists _, _. split; [vm_compute; reflexivity|].
  eapply (X11_levels_from_description 4 three_level_description three_level_world).
  - vm_compute. reflexivity.
  - reflexivity.
  - apply NoDup_ListNoDup. simpl.
    repeat (constructor; [simpl; intuition discriminate|]). constructor.
  - intros key l Hkey Hget. apply list_elem_of_In in Hkey. simpl in Hkey.
    destruct Hkey as [<-|[<-|[<-|[]]]]; simpl in Hget; injection Hget as <-;
      (eexists; split; [reflexivity|]); apply NoDup_ListNoDup; simpl;
      repeat (constructor; [simpl; intuition discriminate|]); constructor.
Defined.

(** ** Connecting two levels, on any step *)

Lemma table_get_set k a (t : transfer_table) : table_get k (table_set k a t) = Some a.
Proof.
  induction t as [|[k0 a0] t IH]; simpl.
  - by rewrite key_eqb_refl.
  - destruct (key_eqb k k0) eqn:E; simpl; rewrite E; [done|apply IH].
Qed.

Lemma table_get_set_ne k k' a (t : transfer_table) :
  k ≠ k' → table_get k (table_set k' a t) = table_get k t.
Proof.
  intros Hne. induction t as [|[k0 a0] t IH]; simpl.
  - by rewrite key_eqb_ne.
  - destruct (key_eqb k' k0) eqn:E; simpl.
    + apply key_eqb_eq in E as <-. by rewrite key_eqb_ne.
    + destruct (key_eqb k k0); [done|apply IH].
Qed.

(** X12: after [connect_levels] the table answers for the two levels with
    the one new transfer: from coarse to fine with its [prolong_f] or
    [prolong], as [finter] says, and from fine to coarse with its [restrict],
    unless the two levels are the same, in which case the second entry has
    replaced the first; every other entry and the list of levels are as
    before, and [transfer] calls just these entries. *)
Theorem X12_connect_then_transfer (self : step) (tc tp : value) (f c : loc)
    (w : world) (s' : step) (w' : world) :
  connect_levels self tc tp f c w = (Ok s', w') →
  levels s' = levels self ∧
  ∃ T, tr_class T = tc ∧ tr_params T = tp ∧ tr_fine T = f ∧ tr_coarse T = c ∧
    table_get (c, f) (__transfer_dict s') = Some (T, down T) ∧
    (f ≠ c → table_get (f, c) (__transfer_dict s') = Some (T, restrict)) ∧
    (∀ k, k ≠ (f, c) → k ≠ (c, f) →
          table_get k (__transfer_dict s') = table_get k (__transfer_dict self)) ∧
    ∀ w1, transfer s' c f w1 = invoke (T, down T) [] w1 ∧
          (f ≠ c → transfer s' f c w1 = invoke (T, restrict) [] w1).
Proof.
  unfold connect_levels. intros H.
  apply bind_ok_inv in H as (T & w1 & HT & H).
  apply new_transfer_ok in HT as (_ & Hf & Hc & Hcl & Hp).
  assert (s' = set_transfer_dict self
                 (table_set (c, f) (T, down T)
                    (table_set (f, c) (T, restrict) (__transfer_dict self)))) as ->.
  { unfold down. destruct (finter T); by injection H as <- _. }
  split; [done|]. exists T. simpl.
  assert (table_get (c, f)
            (table_set (c, f) (T, down T)
               (table_set (f, c) (T, restrict) (__transfer_dict self)))
          = Some (T, down T)) as E1 by apply table_get_set.
  assert (f ≠ c →
          table_get (f, c)
            (table_set (c, f) (T, down T)
               (table_set (f, c) (T, restrict) (__transfer_dict self)))
          = Some (T, restrict)) as E2.
  { intros Hne. rewrite table_get_set_ne by congruence. apply table_get_set. }
  split_and!; try done.
  - intros k K1 K2. by rewrite !table_get_set_ne.
  - intros w2. unfold transfer. simpl. rewrite E1. split; [done|].
    intros Hne. by rewrite (E2 Hne).
Qed.

Lemma X12_connect_then_transfer_witness :
  ∃ s' w',
    connect_levels (mkStep [] new_status [] [0; 1] VNone VNone) (VObj 5) (VDict 3) 0 1
      three_level_world = (Ok s', w') ∧
    levels s' = [0; 1] ∧
    ∃ T, tr_class T = VObj 5 ∧ tr_params T = VDict 3 ∧ tr_fine T = 0 ∧ tr_coarse T = 1 ∧
      table_get (1, 0) (__transfer_dict s') = Some (T, down T) ∧
      (0 ≠ 1 → table_get (0, 1) (__transfer_dict s') = Some (T, restrict)) ∧
      (∀ k, k ≠ (0, 1) → k ≠ (1, 0) → table_get k (__transfer_dict s') = table_get k []) ∧
      ∀ w1, transfer s' 1 0 w1 = invoke (T, down T) [] w1 ∧
            (0 ≠ 1 → transfer s' 0 1 w1 = invoke (T, restrict) [] w1).
Proof.
  eexists _, _. split; [vm_compute; reflexivity|].
  eapply (X12_connect_then_transfer (mkStep [] new_status [] [0; 1] VNone VNone)
            (VObj 5) (VDict 3) 0 1 three_level_world).
  vm_compute. reflexivity.
Defined.

(** ** Descriptions that pass the checks of the constructor *)









(** * Properties of the 1D mesh transfer *)

Module TransferMesh_1D_Facts.
Import TransferMesh_1D.

Section facts.
Context {R : Type} `{FloatLaws R}.
Context (interp : list R → list R → value → matrix R).

(** Row [i] of the identity picks entry [i], as a number. *)
Lemma vdot_unit_row (v : list R) (s i : nat) :
  Forall finite v →
  same (vdot ((λ j, if i =? j then rI else rO) <$> seq s (length v)) v)
       (if bool_decide (s ≤ i < s + length v) then nth (i - s) v rO else rO).
Proof.
  intros Hfin. revert s. induction Hfin as [|x v Hx Hv IH]; intros s.
  - simpl. rewrite bool_decide_eq_false_2 by lia. apply same_refl, finite_0.
  - simpl. unfold vdot in *. simpl. specialize (IH (S s)).
    set (acc := foldr radd rO
                  (zip_with rmul ((λ j, if i =? j then rI else rO) <$> seq (S s) (length v)) v))
      in *.
    destruct (i =? s) eqn:E.
    + apply Nat.eqb_eq in E as ->.
      rewrite bool_decide_eq_false_2 in IH by lia.
      rewrite bool_decide_eq_true_2 by lia. rewrite Nat.sub_diag. simpl.
      apply same_trans with (rmul rI x); [|by apply rmul_1_l].
      apply radd_0_r; [|done]. apply (same_finite _ x); [by apply rmul_1_l|done].
    + apply Nat.eqb_neq in E.
      assert (same (radd (rmul rO x) acc) acc) as Hsum.
      { apply radd_0_l; [by apply rmul_0_l|].
        case_bool_decide.
        - apply (same_finite _ _ IH).
          destruct (lookup_lt_is_Some_2 v (i - S s)) as [y Hy]; [lia|].
          rewrite (nth_lookup_Some _ _ rO _ Hy).
          apply (proj1 (Forall_lookup _ _) Hv _ _ Hy).
        - apply (same_finite _ _ IH), finite_0. }
      apply same_trans with acc; [done|].
      repeat case_bool_decide; try lia; [|done].
      replace (i - s) with (S (i - S s)) by lia. done.
Qed.

(** The identity hands back every finite buffer, entry by entry the same
    number. *)
Lemma dot_eye (v : list R) :
  Forall finite v →
  ∃ vs, dot (eye (length v)) v = Ok vs ∧ Forall2 same vs v.
Proof.
  intros Hfin. unfold dot, eye. simpl. rewrite Nat.eqb_refl.
  eexists. split; [done|].
  apply Forall2_same_length_lookup. split.
  - by rewrite !length_fmap, length_seq.
  - intros i x y Hx Hy. rewrite !list_lookup_fmap in Hx.
    assert (i < length v) as Hi by (by eapply lookup_lt_Some).
    rewrite lookup_seq_lt in Hx by done. simpl in Hx. injection Hx as <-.
    pose proof (vdot_unit_row v 0 i Hfin) as Hrow.
    rewrite bool_decide_eq_true_2 in Hrow by lia. rewrite Nat.sub_0_r in Hrow.
    by rewrite (nth_lookup_Some _ _ rO _ Hy) in Hrow.
Qed.

Lemma same_finite_all (vs v : list R) :
  Forall2 same vs v → Forall finite v → Forall finite vs.
Proof.
  intros H2 Hv. induction H2 as [|x y vs v Hxy _ IH]; [done|].
  apply Forall_cons in Hv as [Hy Hv]. apply Forall_cons. split; [|by apply IH].
  by apply (same_finite x y).
Qed.

Lemma same_trans_all (us vs v : list R) :
  Forall2 same us vs → Forall2 same vs v → Forall2 same us v.
Proof.
  intros H1. revert v. induction H1 as [|x y us vs Hxy _ IH]; intros v H2.
  - by apply Forall2_nil_inv_l in H2 as ->.
  - apply Forall2_cons_inv_l in H2 as (z & v' & Hyz & H2 & ->).
    constructor; [by eapply same_trans|by apply IH].
Qed.

Lemma eye_shape (n : nat) : n_rows (eye (R:=R) n) = n ∧ n_cols (eye (R:=R) n) = n.
Proof. unfold n_rows, eye. simpl. by rewrite length_fmap, length_seq. Qed.

Lemma dot_length (M : matrix R) (v vs : list R) :
  dot M v = Ok vs → length vs = n_rows M.
Proof.
  unfold dot. destruct (length v =? n_cols M); [|discriminate].
  intros [= <-]. by rewrite length_fmap.
Qed.

Lemma dot_defined (M : matrix R) (v : list R) :
  length v = n_cols M → ∃ vs, dot M v = Ok vs.
Proof. intros E. unfold dot. rewrite E, Nat.eqb_refl. eauto. Qed.

(** The operators [__init__] builds, when it returns. *)
Lemma init_spaces (fl cl : level R) (ps : dict) (T : mesh_to_mesh_1d_dirichlet R) :
  init interp fl cl ps = Ok T →
  fine_level T = fl ∧ coarse_level T = cl ∧
  init_f T = nvars (prob fl) ∧ init_c T = nvars (prob cl) ∧
  (nvars (prob fl) = nvars (prob cl) →
     Rspace T = eye (nvars (prob cl)) ∧ Pspace T = eye (nvars (prob fl))) ∧
  (nvars (prob fl) ≠ nvars (prob cl) →
     ∃ kr ki, dict_get "rorder" ps = Some kr ∧ dict_get "iorder" ps = Some ki ∧
       Rspace T = scale half (transpose (interp (grid fl) (grid cl) kr)) ∧
       Pspace T = interp (grid fl) (grid cl) ki).
Proof.
  unfold init. intros HT.
  destruct (decide (nvars (prob fl) = nvars (prob cl))) as [E|E].
  - rewrite E, Nat.eqb_refl in HT. simpl in HT. injection HT as <-. simpl.
    split_and!; try done. by rewrite E.
  - assert ((nvars (prob cl) =? nvars (prob fl)) = false) as E1
      by (apply Nat.eqb_neq; congruence).
    assert ((nvars (prob fl) =? nvars (prob cl)) = false) as E2
      by (by apply Nat.eqb_neq).
    rewrite E1, E2 in HT.
    unfold lookup_param in HT.
    destruct (dict_get "rorder" ps) as [kr|]; [|discriminate]. simpl in HT.
    destruct (dict_get "iorder" ps) as [ki|]; [|discriminate]. simpl in HT.
    injection HT as <-. simpl. split_and!; try done.
    intros _. by exists kr, ki.
Qed.

(** When the unknown-counts agree, [__init__] returns, whatever the
    parameters, and both operators are the identity. *)
Lemma init_identity (fl cl : level R) (ps : dict) :
  nvars (prob fl) = nvars (prob cl) →
  init interp fl cl ps
  = Ok (mkTransfer fl cl (nvars (prob fl)) (nvars (prob cl)) ps
          (eye (nvars (prob cl))) (eye (nvars (prob fl)))).
Proof.
  intros E. unfold init. rewrite E, Nat.eqb_refl. reflexivity.
Qed.

Lemma init_shape (fl cl : level R) (ps : dict) (T : mesh_to_mesh_1d_dirichlet R) :
  interp_shape interp → init interp fl cl ps = Ok T →
  n_rows (Pspace T) = nvars (prob fl) ∧ n_cols (Pspace T) = nvars (prob cl).
Proof.
  intros Hshape HT. apply init_spaces in HT as (_ & _ & _ & _ & Hid & Hne).
  destruct (decide (nvars (prob fl) = nvars (prob cl))) as [E|E].
  - destruct (Hid E) as [_ ->]. destruct (eye_shape (nvars (prob fl))). split; congruence.
  - destruct (Hne E) as (kr & ki & _ & _ & _ & ->).
    destruct (Hshape (grid fl) (grid cl) ki) as [-> ->].
    unfold grid. by rewrite !length_fmap, !length_seq.
Qed.

(** Over identity operators [restrict_space] hands back the values of any
    finite container the fine level recognises, in a container of the class
    that matched. *)
Lemma restrict_space_identity (T : mesh_to_mesh_1d_dirichlet R) (F : field R) :
  Rspace T = eye (length (values F)) →
  Forall finite (values F) →
  isinstance F (dtype_u (prob (fine_level T))) = true ∨
  isinstance F (dtype_f (prob (fine_level T))) = true →
  ∃ G, restrict_space T F = Ok (Some G) ∧ Forall2 same (values G) (values F) ∧
       f_class G = (if isinstance F (dtype_u (prob (fine_level T)))
                    then dtype_u (prob (fine_level T))
                    else dtype_f (prob (fine_level T))).
Proof.
  intros HR Hfin HF. destruct (dot_eye (values F) Hfin) as (vs & Hvs & Hsame).
  unfold restrict_space. rewrite HR, Hvs. simpl.
  destruct (isinstance F (dtype_u (prob (fine_level T)))).
  - by eexists.
  - destruct HF as [?| ->]; [done|]. by eexists.
Qed.

(** C4: on a transfer built by [__init__], [prolong_space] of a field
    of the coarse level that is a solution or a right-hand-side container of
    the coarse problem returns a new container of a class the field is an
    instance of, that class being the matched one; its values are [P] times
    the values of the field, one per unknown of the fine level. *)
Theorem C4_prolong_space (fl cl : level R) (ps : dict) (T : mesh_to_mesh_1d_dirichlet R)
    (G : field R) :
  interp_shape interp →
  init interp fl cl ps = Ok T →
  isinstance G (dtype_u (prob cl)) = true ∨ isinstance G (dtype_f (prob cl)) = true →
  length (values G) = nvars (prob cl) →
  ∃ r, prolong_space T G = Ok (Some r) ∧
       dot (Pspace T) (values G) = Ok (values r) ∧
       length (values r) = nvars (prob fl) ∧
       isinstance G (f_class r) = true ∧
       (f_class r = dtype_u (prob cl) ∨ f_class r = dtype_f (prob cl)).
Proof.
  intros Hshape HT Hinst Hlen.
  destruct (init_shape fl cl ps T Hshape HT) as [Hr Hc].
  apply init_spaces in HT as (_ & Hcl & _).
  destruct (dot_defined (Pspace T) (values G)) as [vs Hvs]; [congruence|].
  pose proof (dot_length _ _ _ Hvs) as Hl.
  unfold prolong_space. rewrite Hcl, Hvs. simpl.
  destruct (isinstance G (dtype_u (prob cl))) eqn:Eu.
  - eexists. split; [reflexivity|]. simpl. split_and!; [done|congruence|done|by left].
  - destruct Hinst as [?|Ef]; [done|]. rewrite Ef.
    eexists. split; [reflexivity|]. simpl. split_and!; [done|congruence|done|by right].
Qed.

(** C5, as the code has it: for an input that is an instance neither of
    the solution class nor of the right-hand-side class of the fine problem,
    [restrict_space] raises nothing and returns [None]. *)
Theorem C5_restrict_space_unrecognised (T : mesh_to_mesh_1d_dirichlet R) (F : field R) :
  isinstance F (dtype_u (prob (fine_level T))) = false →
  isinstance F (dtype_f (prob (fine_level T))) = false →
  restrict_space T F = Ok None.
Proof. intros Hu Hf. unfold restrict_space. by rewrite Hu, Hf. Qed.

Lemma issubclass_refl (c : pyclass) : issubclass c c = true.
Proof. unfold issubclass. apply bool_decide_eq_true_2, elem_of_cons. by left. Qed.

(** Over identity operators [prolong_space] hands back the values of any
    container the coarse level recognises. *)
Lemma prolong_space_identity (T : mesh_to_mesh_1d_dirichlet R) (G : field R) :
  Pspace T = eye (length (values G)) →
  Forall finite (values G) →
  isinstance G (dtype_u (prob (coarse_level T))) = true ∨
  isinstance G (dtype_f (prob (coarse_level T))) = true →
  ∃ F', prolong_space T G = Ok (Some F') ∧ Forall2 same (values F') (values G).
Proof.
  intros HP Hfin HG. destruct (dot_eye (values G) Hfin) as (vs & Hvs & Hsame).
  unfold prolong_space. rewrite HP, Hvs. simpl.
  destruct (isinstance G (dtype_u (prob (coarse_level T)))).
  - by eexists.
  - destruct HG as [?| ->]; [done|]. by eexists.
Qed.

(** C9, as the code has it: when the two levels have the same
    unknown-count, [__init__] returns with both operators the identity;
    [restrict_space] of a fine field with finite values returns a container
    of the same numbers, of the class of the fine problem that matched; and
    [prolong_space] of that container returns a container of the same
    numbers again where the coarse level recognises it, as it does when the
    two levels use the same container classes.  The same numbers: equal as
    floats compare, so that a zero may come back with the other sign. *)
Theorem C9_identity_round_trip (fl cl : level R) (ps : dict) :
  nvars (prob fl) = nvars (prob cl) →
  ∃ T, init interp fl cl ps = Ok T ∧
    Rspace T = eye (nvars (prob cl)) ∧ Pspace T = eye (nvars (prob fl)) ∧
    ∀ F, isinstance F (dtype_u (prob fl)) = true ∨ isinstance F (dtype_f (prob fl)) = true →
         length (values F) = nvars (prob fl) →
         Forall finite (values F) →
         ∃ G, restrict_space T F = Ok (Some G) ∧ Forall2 same (values G) (values F) ∧
              (f_class G = dtype_u (prob fl) ∨ f_class G = dtype_f (prob fl)) ∧
              (isinstance G (dtype_u (prob cl)) = true ∨
               isinstance G (dtype_f (prob cl)) = true →
               ∃ F', prolong_space T G = Ok (Some F') ∧
                     Forall2 same (values F') (values F)) ∧
              (dtype_u (prob cl) = dtype_u (prob fl) →
               dtype_f (prob cl) = dtype_f (prob fl) →
               ∃ F', prolong_space T G = Ok (Some F') ∧
                     Forall2 same (values F') (values F)).
Proof.
  intros E. eexists. split; [by apply init_identity|]. simpl.
  split; [done|]. split; [done|]. intros F HF Hlen Hfin.
  set (T := mkTransfer fl cl (nvars (prob fl)) (nvars (prob cl)) ps
              (eye (nvars (prob cl))) (eye (nvars (prob fl)))).
  destruct (restrict_space_identity T F) as (G & Hres & Hsame & Hcls); [|done|done|].
  { simpl. by rewrite <- E, Hlen. }
  simpl in Hcls.
  assert (f_class G = dtype_u (prob fl) ∨ f_class G = dtype_f (prob fl)) as Hc.
  { rewrite Hcls. destruct (isinstance F (dtype_u (prob fl))); [by left|by right]. }
  assert (isinstance G (dtype_u (prob cl)) = true ∨
          isinstance G (dtype_f (prob cl)) = true →
          ∃ F', prolong_space T G = Ok (Some F') ∧ Forall2 same (values F') (values F))
    as Hback.
  { intros Hrec. destruct (prolong_space_identity T G) as (F' & Hpro & Hsame'); [| |done|].
    - simpl. by rewrite (Forall2_length _ _ _ Hsame), Hlen.
    - by apply (same_finite_all _ (values F)).
    - exists F'. split; [done|]. by apply (same_trans_all _ (values G)). }
  exists G. split_and!; [done|done|done|done|].
  intros Eu Ef. apply Hback. unfold isinstance. rewrite Eu, Ef.
  destruct Hc as [-> | ->]; [left|right]; apply issubclass_refl.
Qed.

End facts.

(** The IEEE-like arithmetic has the laws of the floats. *)
Lemma fnum_same_refl (a : fnum) : fnum_finite a = true → fnum_same a a.
Proof. destruct a as [| | |x]; simpl; try done. by intros Hx%negb_true_iff. Qed.

Lemma fnum_same_trans (a b c : fnum) : fnum_same a b → fnum_same b c → fnum_same a c.
Proof.
  destruct a as [| | |x], b as [| | |y], c as [| | |z]; simpl; try done.
  by intros [Hx ->] [_ ->].
Qed.

Lemma fnum_same_finite (a b : fnum) :
  fnum_same a b → fnum_finite b = true → fnum_finite a = true.
Proof.
  destruct a as [| | |x], b as [| | |y]; simpl; try done.
  intros [Hx _] _. by rewrite Hx.
Qed.

Lemma fmul_0_l (a : fnum) : fnum_finite a = true → fnum_same (fmul (FZero false) a) (FZero false).
Proof. by destruct a. Qed.

Lemma fmul_1_l (a : fnum) : fnum_finite a = true → fnum_same (fmul (FNum (q 1 1)) a) a.
Proof.
  destruct a as [| | |x]; simpl; try done.
  intros Hx%negb_true_iff. unfold fnum_of.
  unfold q. by rewrite Qcanon.Qcmult_1_l, Hx.
Qed.

Lemma fadd_0_l (z a : fnum) :
  fnum_same z (FZero false) → fnum_finite a = true → fnum_same (fadd z a) a.
Proof.
  destruct z as [| | |x], a as [| | |y]; simpl; try done.
  by intros _ Hy%negb_true_iff.
Qed.

Lemma fadd_0_r (a z : fnum) :
  fnum_finite a = true → fnum_same z (FZero false) → fnum_same (fadd a z) a.
Proof.
  destruct a as [| | |x], z as [| | |y]; simpl; try done.
  by intros Hx%negb_true_iff _.
Qed.

#[export] Instance fnum_laws : FloatLaws fnum := {|
  finite := λ a, fnum_finite a = true;
  same := fnum_same;
  same_refl := fnum_same_refl;
  same_trans := fnum_same_trans;
  same_finite := fnum_same_finite;
  finite_0 := eq_refl;
  rmul_0_l := fmul_0_l;
  rmul_1_l := fmul_1_l;
  radd_0_l := fadd_0_l;
  radd_0_r := fadd_0_r
|}.

Lemma injection_matrix_shape {R : Type} `{Scalar R} : interp_shape (injection_matrix (R:=R)).
Proof.
  intros fg cg k. unfold n_rows, injection_matrix. simpl.
  by rewrite length_fmap, length_seq.
Qed.

Lemma C4_prolong_space_witness :
  ∃ T, init injection_matrix (level_of 4 mesh rhs_mesh) (level_of 2 mesh rhs_mesh) orders
       = Ok T ∧
    ∃ r, prolong_space T (mkField rhs_mesh [q 3 1; q 5 1]) = Ok (Some r) ∧
         dot (Pspace T) [q 3 1; q 5 1] = Ok (values r) ∧
         length (values r) = 4 ∧
         isinstance (mkField rhs_mesh [q 3 1; q 5 1]) (f_class r) = true ∧
         (f_class r = mesh ∨ f_class r = rhs_mesh).
Proof.
  eexists. split; [reflexivity|].
  apply (C4_prolong_space injection_matrix
           (level_of 4 mesh rhs_mesh) (level_of 2 mesh rhs_mesh) orders _
           (mkField rhs_mesh [q 3 1; q 5 1])).
  - apply injection_matrix_shape.
  - reflexivity.
  - right. reflexivity.
  - reflexivity.
Defined.

(** An object of a class the fine problem does not know. *)
Lemma C5_restrict_space_unrecognised_witness :
  restrict_space
    (mkTransfer (level_of 2 mesh rhs_mesh) (level_of 2 mesh rhs_mesh) 2 2 orders
       (eye 2) (eye 2))
    (mkField other_mesh [q 3 1; q 5 1])
  = Ok None.
Proof.
  apply (C5_restrict_space_unrecognised
           (mkTransfer (level_of 2 mesh rhs_mesh) (level_of 2 mesh rhs_mesh) 2 2 orders
              (eye 2) (eye 2))
           (mkField other_mesh [q 3 1; q 5 1])).
  - reflexivity.
  - reflexivity.
Defined.

(** C5 as stated fails: on a transfer built by [__init__], the restriction
    of an object of an unknown class is not an error; it is [None]. *)
Lemma C5_no_type_error :
  ∃ T, init injection_matrix (level_of 4 mesh rhs_mesh) (level_of 2 mesh rhs_mesh) orders
       = Ok T ∧
    isinstance (mkField other_mesh [q 3 1; q 5 1; q 7 1; q 9 1])
      (dtype_u (prob (fine_level T))) = false ∧
    isinstance (mkField other_mesh [q 3 1; q 5 1; q 7 1; q 9 1])
      (dtype_f (prob (fine_level T))) = false ∧
    restrict_space T (mkField other_mesh [q 3 1; q 5 1; q 7 1; q 9 1]) = Ok None ∧
    ∀ e, restrict_space T (mkField other_mesh [q 3 1; q 5 1; q 7 1; q 9 1]) ≠ Err e.
Proof.
  eexists. split; [reflexivity|]. split_and!; try reflexivity.
  intros e. discriminate.
Qed.

Lemma C9_identity_round_trip_witness :
  ∃ T, init injection_matrix (float_level_of 2 mesh rhs_mesh)
         (float_level_of 2 mesh rhs_mesh) orders = Ok T ∧
    Rspace T = eye 2 ∧ Pspace T = eye 2 ∧
    ∀ F, isinstance F mesh = true ∨ isinstance F rhs_mesh = true →
         length (values F) = 2 →
         Forall finite (values F) →
         ∃ G, restrict_space T F = Ok (Some G) ∧ Forall2 same (values G) (values F) ∧
              (f_class G = mesh ∨ f_class G = rhs_mesh) ∧
              (isinstance G mesh = true ∨ isinstance G rhs_mesh = true →
               ∃ F', prolong_space T G = Ok (Some F') ∧
                     Forall2 same (values F') (values F)) ∧
              (mesh = mesh → rhs_mesh = rhs_mesh →
               ∃ F', prolong_space T G = Ok (Some F') ∧
                     Forall2 same (values F') (values F)).
Proof.
  apply (C9_identity_round_trip injection_matrix
           (float_level_of 2 mesh rhs_mesh) (float_level_of 2 mesh rhs_mesh) orders).
  reflexivity.
Defined.

(** The round trip of a buffer with a negative zero, and why the values
    have to be finite: the zero comes back positive, and an infinity turns
    the other entry into nan. *)
Example identity_on_negative_zero :
  restrict_space
    (mkTransfer (float_level_of 2 mesh rhs_mesh) (float_level_of 2 mesh rhs_mesh) 2 2
       orders (eye 2) (eye 2))
    (mkField mesh [FZero true; FNum (q 3 1)])
  = Ok (Some (mkField mesh [FZero false; FNum (q 3 1)])).
Proof. vm_compute. reflexivity. Qed.

Example identity_on_infinity :
  restrict_space
    (mkTransfer (float_level_of 2 mesh rhs_mesh) (float_level_of 2 mesh rhs_mesh) 2 2
       orders (eye 2) (eye 2))
    (mkField mesh [FInf false; FNum (q 1 1)])
  = Ok (Some (mkField mesh [FInf false; FNaN])).
Proof. vm_compute. reflexivity. Qed.

(** C9 as stated fails where the two levels use different container
    classes: the unknown-counts agree and both operators are the identity,
    yet the coarse level does not recognise what [restrict_space] returns,
    and [prolong_space] answers [None]. *)
Lemma C9_round_trip_lost :
  ∃ T G,
    init injection_matrix (level_of 2 mesh rhs_mesh) (level_of 2 other_mesh other_rhs) orders
      = Ok T ∧
    Rspace T = eye 2 ∧ Pspace T = eye 2 ∧
    isinstance (mkField mesh [q 3 1; q 5 1]) (dtype_u (prob (fine_level T))) = true ∧
    restrict_space T (mkField mesh [q 3 1; q 5 1]) = Ok (Some G) ∧
    values G = [q 3 1; q 5 1] ∧
    prolong_space T G = Ok None.
Proof.
  eexists _, (mkField mesh [q 3 1; q 5 1]).
  split; [reflexivity|]. split; [reflexivity|]. split; [reflexivity|].
  split; [reflexivity|]. split; [|by split].
  vm_compute. reflexivity.
Qed.

(** ** Further properties of the 1D mesh transfer *)

Section more_facts.
Context {R : Type} `{Scalar R}.
Context (interp : list R → list R → value → matrix R).

Lemma transpose_shape (M : matrix R) :
  n_rows (transpose M) = n_cols M ∧ n_cols (transpose M) = n_rows M.
Proof. unfold n_rows, transpose. simpl. by rewrite length_fmap, length_seq. Qed.

Lemma scale_shape (c : R) (M : matrix R) :
  n_rows (scale c M) = n_rows M ∧ n_cols (scale c M) = n_cols M.
Proof. unfold n_rows, scale. simpl. by rewrite length_fmap. Qed.

(** The restriction has one row per coarse unknown and one column per fine
    unknown. *)
Lemma init_shape_R (fl cl : level R) (ps : dict) (T : mesh_to_mesh_1d_dirichlet R) :
  interp_shape interp → init interp fl cl ps = Ok T →
  n_rows (Rspace T) = nvars (prob cl) ∧ n_cols (Rspace T) = nvars (prob fl).
Proof.
  intros Hshape HT. apply init_spaces in HT as (_ & _ & _ & _ & Hid & Hne).
  destruct (decide (nvars (prob fl) = nvars (prob cl))) as [E|E].
  - destruct (Hid E) as [-> _]. destruct (eye_shape (nvars (prob cl))). split; congruence.
  - destruct (Hne E) as (kr & ki & _ & _ & -> & _).
    destruct (scale_shape half (transpose (interp (grid fl) (grid cl) kr))) as [-> ->].
    destruct (transpose_shape (interp (grid fl) (grid cl) kr)) as [-> ->].
    destruct (Hshape (grid fl) (grid cl) kr) as [-> ->].
    unfold grid. by rewrite !length_fmap, !length_seq.
Qed.

Lemma dot_mismatch (M : matrix R) (v : list R) :
  length v ≠ n_cols M → dot M v = Err ValueError.
Proof. intros E. unfold dot. apply Nat.eqb_neq in E. by rewrite E. Qed.

(** X15: on a transfer built by [__init__], [restrict_space] of a field of
    the fine level that is a solution or a right-hand-side container of the
    fine problem returns a new container of the matched class, the solution
    class coming first; its values are [R] times the values of the field,
    one per unknown of the coarse level. *)
Theorem X15_restrict_space (fl cl : level R) (ps : dict) (T : mesh_to_mesh_1d_dirichlet R)
    (F : field R) :
  interp_shape interp →
  init interp fl cl ps = Ok T →
  isinstance F (dtype_u (prob fl)) = true ∨ isinstance F (dtype_f (prob fl)) = true →
  length (values F) = nvars (prob fl) →
  ∃ r, restrict_space T F = Ok (Some r) ∧
       dot (Rspace T) (values F) = Ok (values r) ∧
       length (values r) = nvars (prob cl) ∧
       f_class r = (if isinstance F (dtype_u (prob fl))
                    then dtype_u (prob fl) else dtype_f (prob fl)).
Proof.
  intros Hshape HT Hinst Hlen.
  destruct (init_shape_R fl cl ps T Hshape HT) as [Hr Hc].
  apply init_spaces in HT as (Hfl & _).
  destruct (dot_defined (Rspace T) (values F)) as [vs Hvs]; [congruence|].
  pose proof (dot_length _ _ _ Hvs) as Hl.
  unfold restrict_space. rewrite Hfl, Hvs. simpl.
  destruct (isinstance F (dtype_u (prob fl))) eqn:Eu.
  - eexists. split; [reflexivity|]. simpl. split_and!; [done|congruence|done].
  - destruct Hinst as [?|Ef]; [done|]. rewrite Ef.
    eexists. split; [reflexivity|]. simpl. split_and!; [done|congruence|done].
Qed.

(** X16: a field that the level recognises but that has not as many
    values as the level has unknowns is turned down by the matrix product:
    [restrict_space] and [prolong_space] raise [ValueError]. *)
Theorem X16_wrong_length_rejected (fl cl : level R) (ps : dict)
    (T : mesh_to_mesh_1d_dirichlet R) (F : field R) :
  interp_shape interp →
  init interp fl cl ps = Ok T →
  (isinstance F (dtype_u (prob fl)) = true ∨ isinstance F (dtype_f (prob fl)) = true →
   length (values F) ≠ nvars (prob fl) → restrict_space T F = Err ValueError) ∧
  (isinstance F (dtype_u (prob cl)) = true ∨ isinstance F (dtype_f (prob cl)) = true →
   length (values F) ≠ nvars (prob cl) → prolong_space T F = Err ValueError).
Proof.
  intros Hshape HT.
  destruct (init_shape_R fl cl ps T Hshape HT) as [_ HcR].
  destruct (init_shape interp fl cl ps T Hshape HT) as [_ HcP].
  apply init_spaces in HT as (Hfl & Hcl & _).
  split; intros Hinst Hlen.
  - unfold restrict_space. rewrite Hfl, dot_mismatch by congruence. simpl.
    destruct (isinstance F (dtype_u (prob fl))); [done|].
    by destruct Hinst as [?| ->].
  - unfold prolong_space. rewrite Hcl, dot_mismatch by congruence. simpl.
    destruct (isinstance F (dtype_u (prob cl))); [done|].
    by destruct Hinst as [?| ->].
Qed.

(** X17: the operators [__init__] builds.  Where the two unknown-counts
    agree, both are the identity of that size, with no factor.  Where they
    differ, the prolongation is what the helper returns for [iorder], and the
    restriction is half the transpose of what it returns for [rorder]: it has
    a row for every column of that matrix and a column for every row; with
    the same order for both, the restriction is half the transpose of the
    prolongation. *)
Theorem X17_operator_shapes (fl cl : level R) (ps : dict)
    (T : mesh_to_mesh_1d_dirichlet R) :
  init interp fl cl ps = Ok T →
  (nvars (prob fl) = nvars (prob cl) →
   Rspace T = eye (nvars (prob cl)) ∧ Pspace T = eye (nvars (prob fl)) ∧
   n_rows (Rspace T) = nvars (prob cl) ∧ n_cols (Rspace T) = nvars (prob fl) ∧
   n_rows (Pspace T) = nvars (prob fl) ∧ n_cols (Pspace T) = nvars (prob cl)) ∧
  (nvars (prob fl) ≠ nvars (prob cl) →
   ∃ kr ki,
     dict_get "rorder" ps = Some kr ∧ dict_get "iorder" ps = Some ki ∧
     Pspace T = interp (grid fl) (grid cl) ki ∧
     Rspace T = scale half (transpose (interp (grid fl) (grid cl) kr)) ∧
     n_rows (Rspace T) = n_cols (interp (grid fl) (grid cl) kr) ∧
     n_cols (Rspace T) = n_rows (interp (grid fl) (grid cl) kr) ∧
     (kr = ki →
      Rspace T = scale half (transpose (Pspace T)) ∧
      n_rows (Rspace T) = n_cols (Pspace T) ∧ n_cols (Rspace T) = n_rows (Pspace T))).
Proof.
  intros HT. apply init_spaces in HT as (_ & _ & _ & _ & Hid & Hne). split.
  - intros E. destruct (Hid E) as [-> ->].
    destruct (eye_shape (R:=R) (nvars (prob cl))) as [-> ->].
    destruct (eye_shape (R:=R) (nvars (prob fl))) as [-> ->].
    by split_and!.
  - intros E. destruct (Hne E) as (kr & ki & Gr & Gi & -> & ->).
    exists kr, ki.
    destruct (scale_shape half (transpose (interp (grid fl) (grid cl) kr))) as [-> ->].
    destruct (transpose_shape (interp (grid fl) (grid cl) kr)) as [-> ->].
    split_and!; try done. by intros ->.
Qed.

End more_facts.

Lemma X15_restrict_space_witness :
  ∃ T, init injection_matrix (level_of 4 mesh rhs_mesh) (level_of 2 mesh rhs_mesh) orders
       = Ok T ∧
    ∃ r, restrict_space T (mkField rhs_mesh [q 3 1; q 5 1; q 7 1; q 9 1]) = Ok (Some r) ∧
         dot (Rspace T) [q 3 1; q 5 1; q 7 1; q 9 1] = Ok (values r) ∧
         length (values r) = 2 ∧
         f_class r = (if isinstance (mkField rhs_mesh [q 3 1; q 5 1; q 7 1; q 9 1]) mesh
                      then mesh else rhs_mesh).
Proof.
  eexists. split; [reflexivity|].
  apply (X15_restrict_space injection_matrix
           (level_of 4 mesh rhs_mesh) (level_of 2 mesh rhs_mesh) orders _
           (mkField rhs_mesh [q 3 1; q 5 1; q 7 1; q 9 1])).
  - apply injection_matrix_shape.
  - reflexivity.
  - right. reflexivity.
  - reflexivity.
Defined.

Lemma X16_wrong_length_rejected_witness :
  ∃ T, init injection_matrix (level_of 4 mesh rhs_mesh) (level_of 2 mesh rhs_mesh) orders
       = Ok T ∧
    (isinstance (mkField mesh [q 3 1; q 5 1; q 7 1]) mesh = true ∨
     isinstance (mkField mesh [q 3 1; q 5 1; q 7 1]) rhs_mesh = true →
     length [q 3 1; q 5 1; q 7 1] ≠ 4 →
     restrict_space T (mkField mesh [q 3 1; q 5 1; q 7 1]) = Err ValueError) ∧
    (isinstance (mkField mesh [q 3 1; q 5 1; q 7 1]) mesh = true ∨
     isinstance (mkField mesh [q 3 1; q 5 1; q 7 1]) rhs_mesh = true →
     length [q 3 1; q 5 1; q 7 1] ≠ 2 →
     prolong_space T (mkField mesh [q 3 1; q 5 1; q 7 1]) = Err ValueError).
Proof.
  eexists. split; [reflexivity|].
  apply (X16_wrong_length_rejected injection_matrix
           (level_of 4 mesh rhs_mesh) (level_of 2 mesh rhs_mesh) orders _
           (mkField mesh [q 3 1; q 5 1; q 7 1])).
  - apply injection_matrix_shape.
  - reflexivity.
Defined.

Lemma X17_operator_shapes_witness :
  ∃ T, init injection_matrix (level_of 4 mesh rhs_mesh) (level_of 2 mesh rhs_mesh)
         [("rorder", VInt 2); ("iorder", VInt 2)] = Ok T ∧
    (4 = 2 →
     Rspace T = eye 2 ∧ Pspace T = eye 4 ∧
     n_rows (Rspace T) = 2 ∧ n_cols (Rspace T) = 4 ∧
     n_rows (Pspace T) = 4 ∧ n_cols (Pspace T) = 2) ∧
    (4 ≠ 2 →
     ∃ kr ki,
       dict_get "rorder" [("rorder", VInt 2); ("iorder", VInt 2)] = Some kr ∧
       dict_get "iorder" [("rorder", VInt 2); ("iorder", VInt 2)] = Some ki ∧
       Pspace T = injection_matrix (grid (level_of 4 mesh rhs_mesh))
                    (grid (level_of 2 mesh rhs_mesh)) ki ∧
       Rspace T = scale half
                    (transpose (injection_matrix (grid (level_of 4 mesh rhs_mesh))
                                  (grid (level_of 2 mesh rhs_mesh)) kr)) ∧
       n_rows (Rspace T)
       = n_cols (injection_matrix (grid (level_of 4 mesh rhs_mesh))
                   (grid (level_of 2 mesh rhs_mesh)) kr) ∧
       n_cols (Rspace T)
       = n_rows (injection_matrix (grid (level_of 4 mesh rhs_mesh))
                   (grid (level_of 2 mesh rhs_mesh)) kr) ∧
       (kr = ki →
        Rspace T = scale half (transpose (Pspace T)) ∧
        n_rows (Rspace T) = n_cols (Pspace T) ∧ n_cols (Rspace T) = n_rows (Pspace T))).
Proof.
  eexists. split; [reflexivity|].
  apply (X17_operator_shapes injection_matrix
           (level_of 4 mesh rhs_mesh) (level_of 2 mesh rhs_mesh)
           [("rorder", VInt 2); ("iorder", VInt 2)]).
  reflexivity.
Defined.

End TransferMesh_1D_Facts.

